(** * SimpleVector and ArrayPtr: a shallow embedding and its properties

    The development follows [simple-vector/array_ptr.h] and
    [simple-vector/simple_vector.h].  C++ objects live in stores indexed by
    object identity, heap arrays live in a heap of blocks, and every method is
    a computation in a state-and-exception monad over that machine state.
    Allocation and the construction and assignment of an element may throw;
    which of these steps throws is part of the state.

    Embedded are the members of [ArrayPtr] and, of [SimpleVector], the
    constructors, the destructor, copy and move assignment, [operator[]],
    [At], [Resize], [Reserve], [Clear], [swap], the iterators, [PushBack] and
    [Insert] in both overloads, [PopBack], [Erase] and the private helpers,
    then [ReserveProxyObj] with the function [Reserve] and the six comparison
    operators.  The overload [operator=(const SimpleVector&&)] has no
    instance that compiles (it move-assigns and clears a [const] object) and
    is never selected for a non-const rvalue; it is the one member left
    out.  *)

From stdpp Require Import gmap list.

Set Default Proof Using "Type".

(** ** The abstract machine *)

(** Block names of heap arrays and identities of C++ objects. *)
Abbreviation addr := positive (only parsing).
Abbreviation oid := positive (only parsing).

(** A [Type*]: the null pointer, or the address of slot [off] of block [b].
    Pointer arithmetic is pure; a pointer that C++ would not allow to be
    formed ([nullptr + n] with [n > 0], stepping before the start of a block)
    collapses to [Null], and every access through [Null] or outside a live
    block is undefined behaviour ([Undef] below). *)
Inductive pointer := Null | Ptr (b : addr) (off : nat).

#[global] Instance pointer_eq_dec : EqDecision pointer.
Proof. solve_decision. Defined.

Definition padd (p : pointer) (n : nat) : pointer :=
  match p with Null => Null | Ptr b off => Ptr b (off + n) end.

Definition psub (p : pointer) (n : nat) : pointer :=
  match p with
  | Null => Null
  | Ptr b off => if decide (n ≤ off) then Ptr b (off - n) else Null
  end.

(** [p - q] for two pointers into the same array. *)
Definition pdiff (p q : pointer) : option nat :=
  match p, q with
  | Null, Null => Some 0
  | Ptr b i, Ptr c j => if decide (b = c ∧ j ≤ i) then Some (i - j) else None
  | _, _ => None
  end.

(** [p <= q]; unspecified between unrelated arrays. *)
Definition ple (p q : pointer) : option bool :=
  match p, q with
  | Null, Null => Some true
  | Ptr b i, Ptr c j => if decide (b = c) then Some (bool_decide (i ≤ j)) else None
  | _, _ => None
  end.

Infix "+ₚ" := padd (at level 50, left associativity).
Infix "-ₚ" := psub (at level 50, left associativity).

(** The data members of the two classes.  [ArrayPtr] and [SimpleVector] both
    call a member [capacity_], so each record sits in a module of its own. *)
Module AP.
Record t := Build { raw_ptr_ : pointer; capacity_ : nat }.
(** [Type* raw_ptr_ = nullptr; size_t capacity_ = 0;] *)
Definition init : t := Build Null 0.
Definition with_raw_ptr (a : t) (p : pointer) : t := Build p (capacity_ a).
Definition with_capacity (a : t) (c : nat) : t := Build (raw_ptr_ a) c.
End AP.

Module SV.
Record t := Build { items_ : AP.t; size_ : nat; capacity_ : nat }.
(** [ArrayPtr<Type> items_{}; size_t size_ = 0; size_t capacity_ = 0;] *)
Definition init : t := Build AP.init 0 0.
Definition with_items (v : t) (a : AP.t) : t := Build a (size_ v) (capacity_ v).
Definition with_size (v : t) (n : nat) : t := Build (items_ v) n (capacity_ v).
Definition with_capacity (v : t) (c : nat) : t := Build (items_ v) (size_ v) c.
End SV.

(** The element type [Type] of the templates: what value-initialisation
    yields, and what an element looks like after it has been moved from
    (the identity for scalar types). *)
Class Elem (T : Type) := { dflt : T; moved : T → T }.

(** [operator==] and [operator<] of the element type, for the comparison
    operators of the vector. *)
Class Comparable (T : Type) := { eq_elem : T → T → bool; lt_elem : T → T → bool }.

(** Machine state.  [fault] injects a failure: [Some k] lets [k] more fallible
    steps (allocations, element constructions, element assignments) succeed and
    makes the next one throw; [None] means nothing throws. *)
Record World (T : Type) := mkWorld {
  heap : gmap addr (list T);
  arrs : gmap oid AP.t;
  vecs : gmap oid SV.t;
  fault : option nat
}.
Arguments mkWorld {T}.
Arguments heap {T}.
Arguments arrs {T}.
Arguments vecs {T}.
Arguments fault {T}.

(** Outcome of a computation: a value, a C++ exception in flight, or no
    defined behaviour at all (undefined behaviour, or a failed [assert]). *)
Inductive Res (W A : Type) := Ok (a : A) (w : W) | Throw (w : W) | Undef.
Arguments Ok {W A}.
Arguments Throw {W A}.
Arguments Undef {W A}.

Definition M (T A : Type) : Type := World T → Res (World T) A.

(** An l-value of type [ArrayPtr]: the member [items_] of a vector, or a
    local variable. *)
Inductive place := Items (v : oid) | Local (l : oid).

#[global] Instance place_eq_dec : EqDecision place.
Proof. solve_decision. Defined.

Section machine.
Context {T : Type} `{!Elem T}.

Definition ret {A} (a : A) : M T A := λ w, Ok a w.

Definition bind {A B} (m : M T A) (f : A → M T B) : M T B := λ w,
  match m w with
  | Ok a w' => f a w'
  | Throw w' => Throw w'
  | Undef => Undef
  end.

Definition undef {A} : M T A := λ _, Undef.

(** [throw e;]: the exception object itself is not represented. *)
Definition throw {A} : M T A := λ w, Throw w.

Definition set_heap (w : World T) (h : gmap addr (list T)) : World T :=
  mkWorld h (arrs w) (vecs w) (fault w).
Definition set_arrs (w : World T) (a : gmap oid AP.t) : World T :=
  mkWorld (heap w) a (vecs w) (fault w).
Definition set_vecs (w : World T) (v : gmap oid SV.t) : World T :=
  mkWorld (heap w) (arrs w) v (fault w).
Definition set_fault (w : World T) (f : option nat) : World T :=
  mkWorld (heap w) (arrs w) (vecs w) f.

(** A step that may throw. *)
Definition fallible : M T unit := λ w,
  match fault w with
  | None => Ok tt w
  | Some (S k) => Ok tt (set_fault w (Some k))
  | Some 0 => Throw w
  end.

Definition assert_ (b : option bool) : M T unit :=
  match b with Some true => ret tt | _ => undef end.

Definition get_vec (o : oid) : M T SV.t := λ w,
  match vecs w !! o with Some v => Ok v w | None => Undef end.

Definition put_vec (o : oid) (v : SV.t) : M T unit := λ w,
  Ok tt (set_vecs w (<[o := v]> (vecs w))).

Definition get_arr (p : place) : M T AP.t := λ w,
  match p with
  | Items o => match vecs w !! o with Some v => Ok (SV.items_ v) w | None => Undef end
  | Local l => match arrs w !! l with Some a => Ok a w | None => Undef end
  end.

Definition put_arr (p : place) (a : AP.t) : M T unit := λ w,
  match p with
  | Items o =>
      match vecs w !! o with
      | Some v => Ok tt (set_vecs w (<[o := SV.with_items v a]> (vecs w)))
      | None => Undef
      end
  | Local l => Ok tt (set_arrs w (<[l := a]> (arrs w)))
  end.

(** Reading and writing one slot of a live block. *)
Definition load (p : pointer) : M T T := λ w,
  match p with
  | Ptr b off =>
      match heap w !! b with
      | Some blk => match blk !! off with Some x => Ok x w | None => Undef end
      | None => Undef
      end
  | Null => Undef
  end.

Definition store (p : pointer) (x : T) : M T unit := λ w,
  match p with
  | Ptr b off =>
      match heap w !! b with
      | Some blk =>
          if decide (off < length blk)
          then Ok tt (set_heap w (<[b := <[off := x]> blk]> (heap w)))
          else Undef
      | None => Undef
      end
  | Null => Undef
  end.
End machine.

#[global] Instance M_ret {T} : MRet (M T) := @ret T.
#[global] Instance M_bind {T} : MBind (M T) := λ A B f m, @bind T A B m f.

Section machine_ops.
Context {T : Type} `{!Elem T}.

Fixpoint times (n : nat) (m : M T unit) : M T unit :=
  match n with
  | 0 => mret tt
  | S n' => m;; times n' m
  end.

(** [new Type[n]{}]: the allocation may throw, then each of the [n] elements
    is value-initialised, which may throw too; nothing is allocated when it
    throws. *)
Definition fresh_block (n : nat) : M T pointer := λ w,
  let b := fresh (dom (heap w)) in
  Ok (Ptr b 0) (set_heap w (<[b := replicate n dflt]> (heap w))).

Definition new_array (n : nat) : M T pointer :=
  fallible;; times n fallible;; fresh_block n.

(** [delete[] p]. *)
Definition delete_array (p : pointer) : M T unit := λ w,
  match p with
  | Null => Ok tt w
  | Ptr b 0 =>
      match heap w !! b with
      | Some _ => Ok tt (set_heap w (delete b (heap w)))
      | None => Undef
      end
  | Ptr _ (S _) => Undef
  end.

(** [Type()]. *)
Definition construct : M T T := fallible;; mret dflt.

(** [*p = x] for a value [x] that is at hand: a new [Type()], or an object
    that the assignments in question do not reach. *)
Definition assign (p : pointer) (x : T) : M T unit := fallible;; store p x.

(** [*d = *s]. *)
Definition copy_elem (d s : pointer) : M T unit := x ← load s; assign d x.

(** [*d = std::move( *s )]: the source slot is left moved-from. *)
Definition move_elem (d s : pointer) : M T unit :=
  x ← load s; fallible;; store d x;; store s (moved x).

(** Both element transfers at once, for the proofs: the value moves from [s]
    to [d] and [mv] says what stays behind ([id] for a copy, [moved] for a
    move). *)
Definition xfer (mv : T → T) (d s : pointer) : M T unit :=
  x ← load s; fallible;; store d x;; store s (mv x).

(** The loop of [std::copy] and of [std::move] (the algorithm), over the
    [n = last - first] elements from [first]. *)
Fixpoint forward (step : pointer → pointer → M T unit) (n : nat)
    (first d_first : pointer) : M T unit :=
  match n with
  | 0 => mret tt
  | S n' => step d_first first;; forward step n' (first +ₚ 1) (d_first +ₚ 1)
  end.

(** The loop of [std::copy_backward] and [std::move_backward]:
    [while (first != last) *(--d_last) = *(--last);]. *)
Fixpoint backward (step : pointer → pointer → M T unit) (n : nat)
    (last d_last : pointer) : M T unit :=
  match n with
  | 0 => mret tt
  | S n' =>
      let last' := last -ₚ 1 in
      let d_last' := d_last -ₚ 1 in
      step d_last' last';; backward step n' last' d_last'
  end.

Definition range (first last : pointer) : M T nat := λ w,
  match pdiff last first with Some n => Ok n w | None => Undef end.

Definition std_copy (first last d_first : pointer) : M T unit :=
  n ← range first last; forward copy_elem n first d_first.
Definition std_move (first last d_first : pointer) : M T unit :=
  n ← range first last; forward move_elem n first d_first.
Definition std_copy_backward (first last d_last : pointer) : M T unit :=
  n ← range first last; backward copy_elem n last d_last.
Definition std_move_backward (first last d_last : pointer) : M T unit :=
  n ← range first last; backward move_elem n last d_last.

(** [std::generate(first, last, [](){ return Type(); })]. *)
Fixpoint generate_loop (n : nat) (first : pointer) : M T unit :=
  match n with
  | 0 => mret tt
  | S n' => x ← construct; assign first x;; generate_loop n' (first +ₚ 1)
  end.
Definition std_generate (first last : pointer) : M T unit :=
  n ← range first last; generate_loop n first.

(** [std::fill(first, last, value)]. *)
Fixpoint fill_loop (n : nat) (first : pointer) (value : T) : M T unit :=
  match n with
  | 0 => mret tt
  | S n' => assign first value;; fill_loop n' (first +ₚ 1) value
  end.
Definition std_fill (first last : pointer) (value : T) : M T unit :=
  n ← range first last; fill_loop n first value.

(** Copying the elements of an [initializer_list] (they are const, so
    [std::move] copies them) to [d_first]. *)
Fixpoint assign_list (init : list T) (d_first : pointer) : M T unit :=
  match init with
  | [] => mret tt
  | x :: init' => assign d_first x;; assign_list init' (d_first +ₚ 1)
  end.

(** [p + 1], formed as the bound of a range: not defined on the null
    pointer. *)
Definition next (p : pointer) : M T pointer :=
  match p with
  | Null => undef
  | Ptr b off => mret (Ptr b (off + 1))
  end.

(** [--n] on a [size_t]: 0 wraps around to [SIZE_MAX]. *)
Definition SIZE_MAX : nat := 2 ^ 64 - 1.
Definition decrement (n : nat) : nat :=
  match n with
  | 0 => SIZE_MAX
  | S n' => n'
  end.

(** Run [cleanup] when [m] leaves by an exception, as stack unwinding does. *)
Definition on_unwind {A} (m : M T A) (cleanup : M T unit) : M T A := λ w,
  match m w with
  | Ok a w' => Ok a w'
  | Throw w' =>
      match cleanup w' with
      | Ok _ w'' => Throw w''
      | _ => Undef
      end
  | Undef => Undef
  end.

(** Run [cleanup] however [m] leaves: the end of a scope. *)
Definition at_exit {A} (m : M T A) (cleanup : M T unit) : M T A :=
  a ← on_unwind m cleanup; cleanup;; mret a.
End machine_ops.

(** ** [array_ptr.h]: class [ArrayPtr] *)

Module ArrayPtr.
Section methods.
Context {T : Type} `{!Elem T}.

Definition set_raw_ptr (this : place) (p : pointer) : M T unit :=
  a ← get_arr this; put_arr this (AP.with_raw_ptr a p).

Definition set_capacity (this : place) (c : nat) : M T unit :=
  a ← get_arr this; put_arr this (AP.with_capacity a c).

(** [Type* Get() const noexcept] *)
Definition Get (this : place) : M T pointer :=
  a ← get_arr this; mret (AP.raw_ptr_ a).

(** [ArrayPtr() = default;] *)
Definition ctor_default (this : place) : M T unit := put_arr this AP.init.

(** [explicit ArrayPtr(size_t size)] *)
Definition ctor_size (this : place) (size : nat) : M T unit :=
  put_arr this AP.init;;
  if decide (0 < size) then
    p ← new_array size;
    set_raw_ptr this p;;
    set_capacity this size
  else mret tt.

(** [explicit ArrayPtr(Type* raw_ptr) noexcept] *)
Definition ctor_raw (this : place) (raw_ptr : pointer) : M T unit :=
  put_arr this AP.init;;
  set_raw_ptr this raw_ptr.

(** [void swap(ArrayPtr& other) noexcept]: two [std::swap]s, each through a
    temporary. *)
Definition swap (this other : place) : M T unit :=
  a ← get_arr this;
  (let tmp := AP.raw_ptr_ a in
   b ← get_arr other; set_raw_ptr this (AP.raw_ptr_ b);;
   set_raw_ptr other tmp);;
  a ← get_arr this;
  (let tmp := AP.capacity_ a in
   b ← get_arr other; set_capacity this (AP.capacity_ b);;
   set_capacity other tmp).

(** [ArrayPtr& operator=(ArrayPtr&& rhs)] *)
Definition move_assign (this rhs : place) : M T unit :=
  if decide (this ≠ rhs) then swap this rhs else mret tt.

(** [ArrayPtr(ArrayPtr&& other)] *)
Definition ctor_move (this other : place) : M T unit :=
  put_arr this AP.init;;
  move_assign this other.

(** [void Delete()] *)
Definition Delete (this : place) : M T unit :=
  p ← Get this;
  delete_array p;;
  set_raw_ptr this Null.

(** [~ArrayPtr()] *)
Definition dtor (this : place) : M T unit :=
  p ← Get this; delete_array p.

(** [[[nodiscard]] Type* Release() noexcept] *)
Definition Release (this : place) : M T pointer :=
  tmp_ptr ← Get this;
  set_raw_ptr this Null;;
  mret tmp_ptr.

(** [Type& operator[](size_t index) noexcept]: the address of the element. *)
Definition index (this : place) (i : nat) : M T pointer :=
  p ← Get this; mret (p +ₚ i).

(** [explicit operator bool() const] *)
Definition to_bool (this : place) : M T bool :=
  p ← Get this; mret (bool_decide (p ≠ Null)).

Definition forget (l : oid) : M T unit := λ w,
  Ok tt (set_arrs w (delete l (arrs w))).

(** A local variable of type [ArrayPtr]: its storage is set aside, [ctor]
    constructs it, [body] is the rest of the enclosing block, and the
    destructor runs when the block is left, normally or by an exception.  A
    constructor that throws leaves nothing to destroy. *)
Definition local {A} (ctor : place → M T unit) (body : place → M T A) : M T A := λ w,
  let l := fresh (dom (arrs w)) in
  (put_arr (Local l) AP.init;;
   on_unwind (ctor (Local l)) (forget l);;
   at_exit (body (Local l)) (dtor (Local l);; forget l)) w.
End methods.
End ArrayPtr.

(** ** [simple_vector.h]: class [ReserveProxyObj] and the function [Reserve] *)

Module ReserveProxyObj.
Record t := Build { capacity_ : nat }.
End ReserveProxyObj.

(** [ReserveProxyObj Reserve(size_t capacity_to_reserve)] *)
Definition Reserve (capacity_to_reserve : nat) : ReserveProxyObj.t :=
  ReserveProxyObj.Build capacity_to_reserve.

(** ** [simple_vector.h]: class [SimpleVector] *)

Module SimpleVector.
Section methods.
Context {T : Type} `{!Elem T}.

Definition set_size (this : oid) (n : nat) : M T unit :=
  v ← get_vec this; put_vec this (SV.with_size v n).

Definition set_capacity (this : oid) (c : nat) : M T unit :=
  v ← get_vec this; put_vec this (SV.with_capacity v c).

Definition GetSize (this : oid) : M T nat :=
  v ← get_vec this; mret (SV.size_ v).

Definition GetCapacity (this : oid) : M T nat :=
  v ← get_vec this; mret (SV.capacity_ v).

Definition IsEmpty (this : oid) : M T bool :=
  v ← get_vec this; mret (bool_decide (SV.size_ v = 0)).

(** [begin()], [cbegin()]: [items_.Get()]. *)
Definition begin (this : oid) : M T pointer := ArrayPtr.Get (Items this).
Definition cbegin (this : oid) : M T pointer := ArrayPtr.Get (Items this).

(** [end()], [cend()]: [items_.Get() + size_]. *)
Definition end_ (this : oid) : M T pointer :=
  p ← ArrayPtr.Get (Items this); v ← get_vec this; mret (p +ₚ SV.size_ v).
Definition cend (this : oid) : M T pointer :=
  p ← ArrayPtr.Get (Items this); v ← get_vec this; mret (p +ₚ SV.size_ v).

(** [void Clear() noexcept] *)
Definition Clear (this : oid) : M T unit := set_size this 0.

(** [SimpleVector() noexcept = default;] *)
Definition ctor_default (this : oid) : M T unit := put_vec this SV.init.

(** [explicit SimpleVector(size_t size)] *)
Definition ctor_size (this : oid) (size : nat) : M T unit :=
  put_vec this SV.init;;
  ArrayPtr.ctor_size (Items this) size;;
  set_size this size;;
  set_capacity this size;;
  b ← begin this; e ← end_ this; std_generate b e.

(** [SimpleVector(size_t size, const Type& value)] *)
Definition ctor_value (this : oid) (size : nat) (value : T) : M T unit :=
  put_vec this SV.init;;
  ArrayPtr.ctor_size (Items this) size;;
  set_size this size;;
  set_capacity this size;;
  b ← begin this; e ← end_ this; std_fill b e value.

(** [SimpleVector(std::initializer_list<Type> init)] *)
Definition ctor_init (this : oid) (init : list T) : M T unit :=
  put_vec this SV.init;;
  ArrayPtr.ctor_size (Items this) (length init);;
  set_size this (length init);;
  set_capacity this (length init);;
  b ← begin this; assign_list init b.

(** [explicit SimpleVector(ReserveProxyObj capacity)] *)
Definition ctor_reserve (this : oid) (capacity : nat) : M T unit :=
  put_vec this SV.init;;
  ArrayPtr.ctor_size (Items this) capacity;;
  set_size this 0;;
  set_capacity this capacity.

(** [void swap(SimpleVector& other) noexcept] *)
Definition swap (this other : oid) : M T unit :=
  ArrayPtr.swap (Items this) (Items other);;
  a ← get_vec this;
  (let tmp := SV.size_ a in
   b ← get_vec other; set_size this (SV.size_ b);;
   set_size other tmp);;
  a ← get_vec this;
  (let tmp := SV.capacity_ a in
   b ← get_vec other; set_capacity this (SV.capacity_ b);;
   set_capacity other tmp).

Definition forget (o : oid) : M T unit := λ w,
  Ok tt (set_vecs w (delete o (vecs w))).

(** The implicit destructor destroys the member [items_]. *)
Definition dtor (this : oid) : M T unit := ArrayPtr.dtor (Items this).

(** A local variable of type [SimpleVector]; when its constructor throws, the
    members constructed so far are destroyed. *)
Definition local {A} (ctor : oid → M T unit) (body : oid → M T A) : M T A := λ w,
  let o := fresh (dom (vecs w)) in
  (put_vec o SV.init;;
   on_unwind (ctor o) (dtor o;; forget o);;
   at_exit (body o) (dtor o;; forget o)) w.

(** A vector that outlives the call: a named variable of the client. *)
Definition declare (ctor : oid → M T unit) : M T oid := λ w,
  let o := fresh (dom (vecs w)) in
  (put_vec o SV.init;;
   on_unwind (ctor o) (dtor o;; forget o);;
   mret o) w.

(** [SimpleVector(const SimpleVector& other)] *)
Definition ctor_copy (this other : oid) : M T unit :=
  put_vec this SV.init;;
  o ← get_vec other;
  local (λ tmp, ctor_size tmp (SV.size_ o)) (λ tmp,
    ob ← begin other; oe ← end_ other; tb ← begin tmp;
    std_copy ob oe tb;;
    swap this tmp).

(** [SimpleVector& operator=(const SimpleVector& rhs)] *)
Definition copy_assign (this rhs : oid) : M T unit :=
  if decide (rhs ≠ this) then
    e ← IsEmpty rhs;
    if e : bool then Clear this
    else local (λ rhs_copy, ctor_copy rhs_copy rhs) (λ rhs_copy, swap this rhs_copy)
  else mret tt.

(** [SimpleVector(SimpleVector&& other) noexcept]; the members are
    initialised in the order of their declaration. *)
Definition ctor_move (this other : oid) : M T unit :=
  put_vec this SV.init;;
  ArrayPtr.ctor_move (Items this) (Items other);;
  o ← get_vec other; set_size this (SV.size_ o);;
  o ← get_vec other; set_capacity this (SV.capacity_ o);;
  Clear other.

(** [void Resize(size_t new_size)]; the [try] block only rethrows. *)
Definition Resize (this : oid) (new_size : nat) : M T unit :=
  v ← get_vec this;
  if decide (SV.size_ v ≤ new_size) then
    let old_size := SV.size_ v in
    local (λ tmp, ctor_size tmp new_size) (λ tmp,
      empty ← IsEmpty this;
      (if empty : bool then mret tt
       else b ← begin this; e ← end_ this; d ← ArrayPtr.Get (Items tmp);
            std_move b e d);;
      set_size this new_size;;
      v ← get_vec this; set_capacity this (SV.size_ v * 2);;
      swap this tmp;;
      b ← begin this; e ← end_ this;
      std_generate (b +ₚ old_size) e)
  else set_size this new_size.

(** [SimpleVector& operator=(SimpleVector&& rhs) noexcept], the overload that
    [a = std::move(b)] selects for a non-const [b]. *)
Definition move_assign (this rhs : oid) : M T unit :=
  p ← ArrayPtr.Get (Items this); q ← ArrayPtr.Get (Items rhs);
  if decide (p ≠ q) then
    r ← get_vec rhs; Resize this (SV.size_ r);;
    rb ← begin rhs; re ← end_ rhs; b ← begin this;
    std_move rb re b
  else mret tt.

(** [void Reserve(size_t new_capacity)] *)
Definition Reserve (this : oid) (new_capacity : nat) : M T unit :=
  v ← get_vec this;
  if decide (SV.capacity_ v < new_capacity) then
    local (λ new_vector, ctor_size new_vector new_capacity) (λ new_vector,
      b ← begin this; e ← end_ this; d ← begin new_vector;
      std_move b e d;;
      ArrayPtr.swap (Items this) (Items new_vector);;
      set_capacity this new_capacity)
  else mret tt.

(** [void ResizeCapacity(size_t new_capacity)] (private) *)
Definition ResizeCapacity (this : oid) (new_capacity : nat) : M T unit :=
  ArrayPtr.local (λ tmp_data, ArrayPtr.ctor_size tmp_data new_capacity) (λ tmp_data,
    b ← begin this; e ← end_ this; d ← ArrayPtr.index tmp_data 0;
    std_move b e d;;
    ArrayPtr.move_assign (Items this) tmp_data;;
    set_capacity this new_capacity).

(** [ItemsPtr ReallocateCopy(size_t new_capacity) const] (private); [result]
    is the object the returned prvalue initialises. *)
Definition ReallocateCopy (this : oid) (new_capacity : nat) (result : place) : M T unit :=
  ArrayPtr.local (λ new_items, ArrayPtr.ctor_size new_items new_capacity) (λ new_items,
    v ← get_vec this;
    let copy_size := new_capacity `min` SV.size_ v in
    s ← ArrayPtr.Get (Items this); d ← ArrayPtr.Get new_items;
    std_copy s (s +ₚ copy_size) d;;
    raw ← ArrayPtr.Release new_items;
    ArrayPtr.ctor_raw result raw).

(** [PushBack] and [Insert] take the new element by reference, [const Type&]
    or [Type&&].  The parameter is the address of the object the reference is
    bound to: an element of some vector, of this one too, or an object of the
    caller's, which is a block of its own.  The object is read where the
    source reads it, so what the call has done to it by then shows; an rvalue
    reference is moved from there. *)

(** [void PushBack(const Type& item)] *)
Definition PushBack_copy (this : oid) (item : pointer) : M T unit :=
  v ← get_vec this;
  let new_size := SV.size_ v + 1 in
  (if decide (SV.capacity_ v < new_size) then
     let new_capacity := (SV.capacity_ v * 2) `max` new_size in
     ArrayPtr.local (λ new_items, ReallocateCopy this new_capacity new_items) (λ new_items,
       p ← ArrayPtr.Get new_items; v ← get_vec this;
       copy_elem (p +ₚ SV.size_ v) item;;
       set_capacity this new_capacity;;
       ArrayPtr.swap (Items this) new_items)
   else
     p ← ArrayPtr.Get (Items this); v ← get_vec this;
     copy_elem (p +ₚ SV.size_ v) item);;
  set_size this new_size.

(** [void PushBack(Type&& value)]; in [items_[size_++] = std::move(value)]
    the increment is complete before the assignment runs. *)
Definition PushBack_move (this : oid) (value : pointer) : M T unit :=
  v ← get_vec this;
  (if decide (SV.capacity_ v = SV.size_ v) then
     ResizeCapacity this (if decide (SV.size_ v = 0) then 1 else SV.size_ v * 2)
   else mret tt);;
  v ← get_vec this;
  set_size this (SV.size_ v + 1);;
  p ← ArrayPtr.index (Items this) (SV.size_ v);
  move_elem p value.

(** [Iterator Insert(ConstIterator pos, const Type& value)] *)
Definition Insert_copy (this : oid) (pos : pointer) (value : pointer) : M T pointer :=
  b ← begin this; e ← end_ this;
  assert_ (ple b pos);; assert_ (ple pos e);;
  v ← get_vec this;
  let new_size := SV.size_ v + 1 in
  cb ← cbegin this; new_item_offset ← range cb pos;
  (if decide (new_size ≤ SV.capacity_ v) then
     b ← begin this;
     let mutable_pos := b +ₚ new_item_offset in
     ce ← cend this; e ← end_ this;
     std_copy_backward pos ce (e +ₚ 1);;
     copy_elem mutable_pos value
   else
     let new_capacity := (SV.capacity_ v * 2) `max` new_size in
     ArrayPtr.local (λ new_items, ArrayPtr.ctor_size new_items new_capacity) (λ new_items,
       p ← ArrayPtr.Get new_items;
       let new_items_pos := p +ₚ new_item_offset in
       cb ← cbegin this; d ← ArrayPtr.Get new_items;
       std_copy cb pos d;;
       copy_elem new_items_pos value;;
       ce ← cend this;
       std_copy pos ce (new_items_pos +ₚ 1);;
       ArrayPtr.swap (Items this) new_items;;
       set_capacity this new_capacity));;
  set_size this new_size;;
  b ← begin this; mret (b +ₚ new_item_offset).

(** [Iterator Insert(ConstIterator pos, Type&& value)] *)
Definition Insert_move (this : oid) (pos : pointer) (value : pointer) : M T pointer :=
  b ← begin this; e ← end_ this;
  assert_ (ple b pos);; assert_ (ple pos e);;
  let it := pos in
  v ← get_vec this;
  if decide (SV.size_ v < SV.capacity_ v) then
    e ← end_ this; d ← ArrayPtr.index (Items this) (SV.size_ v + 1);
    std_move_backward it e d;;
    move_elem it value;;
    v ← get_vec this; set_size this (SV.size_ v + 1);;
    mret it
  else if decide (SV.capacity_ v = 0) then
    ArrayPtr.local (λ tmp_data, ArrayPtr.ctor_size tmp_data 1) (λ tmp_data,
      p ← ArrayPtr.index tmp_data 0; move_elem p value;;
      ArrayPtr.move_assign (Items this) tmp_data;;
      set_capacity this 1;;
      set_size this 1;;
      ArrayPtr.index (Items this) 0)
  else
    let new_capacity := SV.size_ v * 2 in
    b ← begin this; insert_index ← range b it;
    ArrayPtr.local (λ tmp_data, ArrayPtr.ctor_size tmp_data new_capacity) (λ tmp_data,
      b ← begin this; d ← ArrayPtr.index tmp_data 0;
      std_move b it d;;
      p ← ArrayPtr.index tmp_data insert_index; move_elem p value;;
      e ← end_ this; d ← ArrayPtr.index tmp_data (insert_index + 1);
      std_move it e d;;
      ArrayPtr.move_assign (Items this) tmp_data;;
      set_capacity this new_capacity;;
      v ← get_vec this; set_size this (SV.size_ v + 1);;
      ArrayPtr.index (Items this) insert_index).

(** [explicit SimpleVector(ReserveProxyObj capacity)], from the proxy object
    that [Reserve] returns: [SimpleVector<Type> v(Reserve(n));]. *)
Definition ctor_proxy (this : oid) (capacity : ReserveProxyObj.t) : M T unit :=
  ctor_reserve this (ReserveProxyObj.capacity_ capacity).

(** [Type& operator[](size_t index) noexcept]: the address of the element. *)
Definition subscript (this : oid) (index : nat) : M T pointer :=
  n ← GetSize this;
  assert_ (Some (bool_decide (index ≤ n)));;
  ArrayPtr.index (Items this) index.

(** [const Type& operator[](size_t index) const noexcept] *)
Definition subscript_const (this : oid) (index : nat) : M T pointer :=
  ArrayPtr.index (Items this) index.

(** [Type& At(size_t index)] and [const Type& At(size_t index) const], which
    have the same body. *)
Definition At (this : oid) (index : nat) : M T pointer :=
  v ← get_vec this;
  if decide (SV.size_ v ≤ index) then throw
  else ArrayPtr.index (Items this) index.

(** [void PopBack() noexcept] *)
Definition PopBack (this : oid) : M T unit :=
  v ← get_vec this;
  if decide (0 < SV.size_ v) then
    v ← get_vec this; set_size this (decrement (SV.size_ v))
  else mret tt.

(** [Iterator Erase(ConstIterator pos)] *)
Definition Erase (this : oid) (pos : pointer) : M T pointer :=
  cb ← cbegin this; distance ← range cb pos;
  p ← ArrayPtr.Get (Items this);
  let pos_ := p +ₚ distance in
  first ← next pos_; e ← end_ this;
  std_move first e pos_;;
  v ← get_vec this; set_size this (decrement (SV.size_ v));;
  mret pos_.
End methods.
End SimpleVector.

(** ** [simple_vector.h]: the comparison operators *)

Section comparison.
Context {T : Type} `{!Elem T} `{!Comparable T}.

(** [*p == *q] and [*p < *q]; comparing two elements may throw. *)
Definition equal_elems (p q : pointer) : M T bool :=
  x ← load p; y ← load q; fallible;; mret (eq_elem x y).
Definition less_elems (p q : pointer) : M T bool :=
  x ← load p; y ← load q; fallible;; mret (lt_elem x y).

(** The loop of [std::equal(first1, last1, first2)], over the
    [n = last1 - first1] elements from [first1]. *)
Fixpoint equal_loop (n : nat) (first1 first2 : pointer) : M T bool :=
  match n with
  | 0 => mret true
  | S n' =>
      e ← equal_elems first1 first2;
      if e : bool then equal_loop n' (first1 +ₚ 1) (first2 +ₚ 1) else mret false
  end.
Definition std_equal (first1 last1 first2 : pointer) : M T bool :=
  n ← range first1 last1; equal_loop n first1 first2.

(** The loop of [std::lexicographical_compare(first1, last1, first2, last2)],
    with [n1 = last1 - first1] and [n2 = last2 - first2]:
    [for (; first1 != last1 && first2 != last2; ++first1, ++first2) {
       if ( *first1 < *first2 ) return true;
       if ( *first2 < *first1 ) return false; }
     return first1 == last1 && first2 != last2;]. *)
Fixpoint lexicographical_loop (n1 n2 : nat) (first1 first2 : pointer) : M T bool :=
  match n1, n2 with
  | S n1', S n2' =>
      lt ← less_elems first1 first2;
      if lt : bool then mret true
      else
        gt ← less_elems first2 first1;
        if gt : bool then mret false
        else lexicographical_loop n1' n2' (first1 +ₚ 1) (first2 +ₚ 1)
  | 0, S _ => mret true
  | _, 0 => mret false
  end.
Definition std_lexicographical_compare (first1 last1 first2 last2 : pointer) : M T bool :=
  n1 ← range first1 last1; n2 ← range first2 last2;
  lexicographical_loop n1 n2 first1 first2.

(** [bool operator==(const SimpleVector& lhs, const SimpleVector& rhs)] *)
Definition operator_eq (lhs rhs : oid) : M T bool :=
  n ← SimpleVector.GetSize lhs; m ← SimpleVector.GetSize rhs;
  if decide (n = m) then
    b ← SimpleVector.begin lhs; e ← SimpleVector.end_ lhs; rb ← SimpleVector.begin rhs;
    std_equal b e rb
  else mret false.

(** [bool operator!=(const SimpleVector& lhs, const SimpleVector& rhs)] *)
Definition operator_ne (lhs rhs : oid) : M T bool :=
  r ← operator_eq lhs rhs; mret (negb r).

(** [bool operator<(const SimpleVector& lhs, const SimpleVector& rhs)] *)
Definition operator_lt (lhs rhs : oid) : M T bool :=
  b ← SimpleVector.begin lhs; e ← SimpleVector.end_ lhs;
  rb ← SimpleVector.begin rhs; re ← SimpleVector.end_ rhs;
  std_lexicographical_compare b e rb re.

(** [bool operator<=(const SimpleVector& lhs, const SimpleVector& rhs)] *)
Definition operator_le (lhs rhs : oid) : M T bool :=
  r ← operator_lt rhs lhs; mret (negb r).

(** [bool operator>(const SimpleVector& lhs, const SimpleVector& rhs)] *)
Definition operator_gt (lhs rhs : oid) : M T bool :=
  operator_lt rhs lhs.

(** [bool operator>=(const SimpleVector& lhs, const SimpleVector& rhs)] *)
Definition operator_ge (lhs rhs : oid) : M T bool :=
  operator_le rhs lhs.
End comparison.

(** ** Observations and the representation invariant *)

Section observations.
Context {T : Type}.

(** The elements at the logical indices [[0, size)], when the buffer holds
    them. *)
Definition elements (w : World T) (this : oid) : option (list T) :=
  v ← vecs w !! this;
  match AP.raw_ptr_ (SV.items_ v) with
  | Null => if decide (SV.size_ v = 0) then Some [] else None
  | Ptr b off =>
      blk ← heap w !! b;
      if decide (off + SV.size_ v ≤ length blk)
      then Some (take (SV.size_ v) (drop off blk))
      else None
  end.

(** What a client can observe of a vector: [GetSize()], [GetCapacity()] and
    the elements. *)
Definition observe (w : World T) (this : oid) : option (nat * nat * list T) :=
  v ← vecs w !! this;
  xs ← elements w this;
  Some (SV.size_ v, SV.capacity_ v, xs).

(** The buffer of a vector: [items_.Get()]. *)
Definition buffer (w : World T) (this : oid) : option pointer :=
  v ← vecs w !! this; Some (AP.raw_ptr_ (SV.items_ v)).

(** A vector whose members describe its buffer: [size_ <= capacity_], and the
    buffer is null with no capacity or is a live block of at least
    [capacity_] slots. *)
Definition valid (w : World T) (this : oid) : Prop :=
  ∃ v, vecs w !! this = Some v ∧ SV.size_ v ≤ SV.capacity_ v ∧
    match AP.raw_ptr_ (SV.items_ v) with
    | Null => SV.capacity_ v = 0
    | Ptr b off => off = 0 ∧ ∃ blk, heap w !! b = Some blk ∧ SV.capacity_ v ≤ length blk
    end.

(** The invariant the data model gives for [ArrayPtr]. *)
Definition empty_iff_no_capacity (a : AP.t) : Prop :=
  AP.raw_ptr_ a = Null ↔ AP.capacity_ a = 0.

Definition start : World T := mkWorld ∅ ∅ ∅ None.

(** [wp r Q E]: the computation has defined behaviour; it returned a value
    in a state that satisfy [Q], or left by an exception in a state that
    satisfies [E]. *)
Definition wp {A} (r : Res (World T) A) (Q : A → World T → Prop)
    (E : World T → Prop) : Prop :=
  match r with
  | Ok a w => Q a w
  | Throw w => E w
  | Undef => False
  end.
End observations.

(** [post r Q]: the computation returned normally, and [Q] holds. *)
Abbreviation post r Q := (wp r Q (λ _, False)).

(** ** Statements of the properties *)

Section statements.
Context {T : Type}.

(** The block an [ArrayPtr] owns can be handed to [delete[]]. *)
Definition deletable (w : World T) (a : AP.t) : Prop :=
  match AP.raw_ptr_ a with
  | Null => True
  | Ptr b off => off = 0 ∧ is_Some (heap w !! b)
  end.

(** [xs'] is [xs] with [value] put at offset [k]: what was at [[k, size)] sits
    one slot further, in the same order, and what was before [k] has not
    moved. *)
Definition inserted_at (xs : list T) (k : nat) (value : T) (xs' : list T) : Prop :=
  length xs' = length xs + 1 ∧
  xs' !! k = Some value ∧
  (∀ j, j < k → xs' !! j = xs !! j) ∧
  (∀ j, k ≤ j → xs' !! (j + 1) = xs !! j).

(** What [Insert] at offset [k] of a vector of [s] elements [xs] establishes;
    [it] is the iterator it returns. *)
Definition Insert_post (this : oid) (s k : nat) (xs : list T) (value : T) :
    pointer → World T → Prop := λ it w',
  ∃ c' p', observe w' this = Some (s + 1, c', take k xs ++ value :: drop k xs) ∧
           buffer w' this = Some p' ∧ it = p' +ₚ k ∧ valid w' this.
End statements.

Section statements_of_the_interface.
Context {T : Type} `{!Elem T}.

(** What a constructor establishes: [this] is a new object, it shows size
    [s], capacity [c] and the elements [xs], its members describe its buffer,
    nothing is armed to throw, and every vector there was shows what it
    showed. *)
Definition constructed (w : World T) (this : oid) (w' : World T)
    (s c : nat) (xs : list T) : Prop :=
  vecs w !! this = None ∧
  observe w' this = Some (s, c, xs) ∧ valid w' this ∧ fault w' = None ∧
  (∀ o r, observe w o = Some r → observe w' o = Some r).

(** The heap and the two stores of objects are what they were: no block has
    been allocated and kept, or freed, and no object is left behind. *)
Definition same_memory (w w' : World T) : Prop :=
  heap w' = heap w ∧ arrs w' = arrs w ∧ vecs w' = vecs w.

(** A computation that does not arm [fault]: from a state where nothing
    throws it returns to a state where nothing throws. *)
Definition quiet {A} (m : M T A) : Prop :=
  ∀ w a w', fault w = None → m w = Ok a w' → fault w' = None.

(** The object at [r] is no slot of the buffer of [this]: the argument of a
    call is not an element of the vector itself. *)
Definition outside (w : World T) (this : oid) (r : pointer) : Prop :=
  ∀ b off off', r = Ptr b off → buffer w this ≠ Some (Ptr b off').




(** Client code: [for (; n > 0; --n, ++first) v.PushBack( *first );], or
    [v.PushBack(std::move( *first ))] by move: the [n] objects from [first]
    are appended one by one. *)
Fixpoint PushBack_each (by_move : bool) (this : oid) (n : nat) (first : pointer) : M T unit :=
  match n with
  | 0 => mret tt
  | S n' =>
      (if by_move then SimpleVector.PushBack_move else SimpleVector.PushBack_copy) this first;;
      PushBack_each by_move this n' (first +ₚ 1)
  end.
End statements_of_the_interface.

Section statements_of_the_comparisons.
Context {T : Type} `{!Comparable T}.

(** What the loops of [std::equal] and [std::lexicographical_compare]
    compute, on the lists of elements. *)
Fixpoint equal_lists (xs ys : list T) : bool :=
  match xs, ys with
  | x :: xs', y :: ys' => if eq_elem x y then equal_lists xs' ys' else false
  | _, _ => true
  end.

Fixpoint less_lists (xs ys : list T) : bool :=
  match xs, ys with
  | x :: xs', y :: ys' =>
      if lt_elem x y then true
      else if lt_elem y x then false
      else less_lists xs' ys'
  | [], _ :: _ => true
  | _, [] => false
  end.

(** [xs] comes before [ys] in the lexicographic order that [lt_elem]
    induces: there is a position [k] up to which neither list has an element
    less than the other's, and at [k] either [xs] has ended and [ys] has not,
    or the element of [xs] is the lesser. *)
Definition lexicographically_less (xs ys : list T) : Prop :=
  ∃ k,
    (∀ j x y, j < k → xs !! j = Some x → ys !! j = Some y →
       lt_elem x y = false ∧ lt_elem y x = false) ∧
    k ≤ length xs ∧ k ≤ length ys ∧
    ((k = length xs ∧ k < length ys) ∨
     (∃ x y, xs !! k = Some x ∧ ys !! k = Some y ∧ lt_elem x y = true)).
End statements_of_the_comparisons.

(** ** Concrete states *)

(** The element type [int]: value-initialised to 0, unchanged by a move. *)
#[global] Instance nat_elem : Elem nat := {| dflt := 0; moved := id |}.

(** [SimpleVector<int> v{1, 2};] *)
Definition w12 : World nat :=
  mkWorld {[1%positive := [1; 2]]} ∅
          {[1%positive := SV.Build (AP.Build (Ptr 1 0) 2) 2 2]} None.

(** [SimpleVector<int> v{1, 2, 3};] *)
Definition w123 : World nat :=
  mkWorld {[1%positive := [1; 2; 3]]} ∅
          {[1%positive := SV.Build (AP.Build (Ptr 1 0) 3) 3 3]} None.

(** [SimpleVector<int> v{1, 2, 3}, e;] *)
Definition w123_e : World nat :=
  mkWorld {[1%positive := [1; 2; 3]]} ∅
          (<[2%positive := SV.init]> {[1%positive := SV.Build (AP.Build (Ptr 1 0) 3) 3 3]})
          None.

(** [SimpleVector<int> a{1, 2, 3}, b{7};] *)
Definition w123_7 : World nat :=
  mkWorld (<[2%positive := [7]]> {[1%positive := [1; 2; 3]]}) ∅
          (<[2%positive := SV.Build (AP.Build (Ptr 2 0) 1) 1 1]>
             {[1%positive := SV.Build (AP.Build (Ptr 1 0) 3) 3 3]})
          None.

(** [SimpleVector<int> v{1, 2}; v.Reserve(4);] *)
Definition w12_reserved : World nat :=
  mkWorld {[2%positive := [1; 2; 0; 0]]} ∅
          {[1%positive := SV.Build (AP.Build (Ptr 2 0) 4) 2 4]} None.

(** [SimpleVector<int> v{1, 2, 3}, u{9};] *)
Definition w123_9 : World nat :=
  mkWorld (<[2%positive := [9]]> {[1%positive := [1; 2; 3]]}) ∅
          (<[2%positive := SV.Build (AP.Build (Ptr 2 0) 1) 1 1]>
             {[1%positive := SV.Build (AP.Build (Ptr 1 0) 3) 3 3]})
          None.

(** [SimpleVector<int> v{1, 2}; v.Reserve(4); SimpleVector<int> u{8, 9};] *)
Definition w12_reserved_89 : World nat :=
  mkWorld (<[3%positive := [8; 9]]> {[2%positive := [1; 2; 0; 0]]}) ∅
          (<[2%positive := SV.Build (AP.Build (Ptr 3 0) 2) 2 2]>
             {[1%positive := SV.Build (AP.Build (Ptr 2 0) 4) 2 4]})
          None.

(** [ArrayPtr<int> p(2), q(3);] *)
Definition w_two_buffers : World nat :=
  mkWorld (<[2%positive := [0; 0; 0]]> {[1%positive := [0; 0]]})
          (<[2%positive := AP.Build (Ptr 2 0) 3]> {[1%positive := AP.Build (Ptr 1 0) 2]})
          ∅ None.

(** [ArrayPtr<int> p(2), q;] *)
Definition w_buffer_and_empty : World nat :=
  mkWorld {[1%positive := [0; 0]]}
          (<[2%positive := AP.init]> {[1%positive := AP.Build (Ptr 1 0) 2]})
          ∅ None.

(** [int] compared by [==] and [<]. *)
#[global] Instance nat_comparable : Comparable nat :=
  {| eq_elem := Nat.eqb; lt_elem := Nat.ltb |}.

(** An element type [Row] that owns a sequence of numbers: value-initialised
    empty, and left empty when moved from. *)
#[global] Instance row_elem : Elem (list nat) := {| dflt := []; moved := λ _, [] |}.

(** [SimpleVector<Row> v{{1, 2}, {3, 4}}, u{{7}};] *)
Definition w_rows_7 : World (list nat) :=
  mkWorld (<[2%positive := [[7]]]> {[1%positive := [[1; 2]; [3; 4]]]}) ∅
          (<[2%positive := SV.Build (AP.Build (Ptr 2 0) 1) 1 1]>
             {[1%positive := SV.Build (AP.Build (Ptr 1 0) 2) 2 2]})
          None.

(** ** Facts about the machine *)

Section machine_facts.
Context {T : Type} `{!Elem T}.
Implicit Types (w : World T) (blk src dst : list T) (b : positive).

Lemma bind_Ok {A B} (m : M T A) (f : A → M T B) w a w' :
  m w = Ok a w' → (m ≫= f) w = f a w'.
Proof. intros E. unfold mbind, M_bind, bind. by rewrite E. Qed.

Lemma bind_Throw {A B} (m : M T A) (f : A → M T B) w w' :
  m w = Throw w' → (m ≫= f) w = Throw w'.
Proof. intros E. unfold mbind, M_bind, bind. by rewrite E. Qed.

Lemma run_ret {A} (a : A) w : (mret a : M T A) w = Ok a w.
Proof. done. Qed.

Lemma run_fallible w : fault w = None → fallible w = Ok tt w.
Proof. intros E. unfold fallible. by rewrite E. Qed.

Lemma run_times n w : fault w = None → times n fallible w = Ok tt w.
Proof.
  intros E. induction n as [|n IH]; [done|].
  cbn [times]. by rewrite (bind_Ok _ _ _ _ _ (run_fallible _ E)).
Qed.

Lemma run_load w b off blk x :
  heap w !! b = Some blk → blk !! off = Some x → load (Ptr b off) w = Ok x w.
Proof. intros Hb Hx. unfold load. by rewrite Hb, Hx. Qed.

Lemma run_store w b off blk x :
  heap w !! b = Some blk → off < length blk →
  store (Ptr b off) x w = Ok tt (set_heap w (<[b := <[off := x]> blk]> (heap w))).
Proof. intros Hb Hx. unfold store. rewrite Hb. by rewrite decide_True. Qed.

Lemma run_assign w b off blk x :
  fault w = None → heap w !! b = Some blk → off < length blk →
  assign (Ptr b off) x w = Ok tt (set_heap w (<[b := <[off := x]> blk]> (heap w))).
Proof.
  intros Hf Hb Hx. unfold assign.
  rewrite (bind_Ok _ _ _ _ _ (run_fallible _ Hf)). by apply run_store.
Qed.
End machine_facts.

Section loops.
Context {T : Type} `{!Elem T}.
Implicit Types (w : World T) (blk src dst : list T) (b : positive).

Lemma set_heap_id w : set_heap w (heap w) = w.
Proof. by destruct w. Qed.

Lemma copy_elem_xfer d s w : copy_elem d s w = xfer id d s w.
Proof.
  unfold copy_elem, xfer, assign.
  destruct s as [|b off]; [done|].
  destruct (heap w !! b) as [blk|] eqn:Hb; [|unfold mbind, M_bind, bind, load; by rewrite Hb].
  destruct (blk !! off) as [x|] eqn:Hx; [|unfold mbind, M_bind, bind, load; by rewrite Hb, Hx].
  rewrite !(bind_Ok _ _ _ _ _ (run_load _ _ _ _ _ Hb Hx)).
  unfold mbind, M_bind, bind. destruct (fallible w) as [[] w1|w1|] eqn:Hf; [|done..].
  assert (heap w1 = heap w) as Hh.
  { unfold fallible in Hf. destruct (fault w) as [[|k]|]; by simplify_eq. }
  destruct (store d x w1) as [[] w2|w2|] eqn:Hs; [|done..].
  unfold store in Hs. destruct d as [|bd od]; [done|]. rewrite Hh in Hs.
  destruct (heap w !! bd) as [blkd|] eqn:Hbd; [|done]. case_decide; [|done]. simplify_eq.
  unfold id, store. cbn [heap set_heap].
  destruct (decide (bd = b)) as [->|Hne].
  - rewrite lookup_insert_eq. simplify_eq. rewrite length_insert, decide_True by (by eapply lookup_lt_Some).
    rewrite insert_insert_eq. f_equal. unfold set_heap. cbn. f_equal. f_equal.
    symmetry. apply list_insert_id. destruct (decide (od = off)) as [->|].
    + by rewrite list_lookup_insert_eq.
    + by rewrite list_lookup_insert_ne.
  - rewrite lookup_insert_ne, Hb by done.
    rewrite decide_True by (by eapply lookup_lt_Some). f_equal.
    unfold set_heap. cbn. f_equal. rewrite (list_insert_id blk off x) by done.
    rewrite (insert_id _ b blk); [done|]. by rewrite lookup_insert_ne.
Qed.

Lemma forward_ext (step1 step2 : pointer → pointer → M T unit) n p q w :
  (∀ d s w', step1 d s w' = step2 d s w') →
  forward step1 n p q w = forward step2 n p q w.
Proof.
  intros Hstep. revert p q w. induction n as [|n IH]; intros p q w; [done|].
  cbn [forward]. unfold mbind, M_bind, bind. rewrite Hstep.
  destruct (step2 q p w); auto.
Qed.

Lemma backward_ext (step1 step2 : pointer → pointer → M T unit) n p q w :
  (∀ d s w', step1 d s w' = step2 d s w') →
  backward step1 n p q w = backward step2 n p q w.
Proof.
  intros Hstep. revert p q w. induction n as [|n IH]; intros p q w; [done|].
  cbn [backward]. unfold mbind, M_bind, bind. rewrite Hstep.
  destruct (step2 _ _ w); auto.
Qed.

Lemma run_xfer mv w bs bd src dst i j x :
  fault w = None → bs ≠ bd →
  heap w !! bs = Some src → src !! i = Some x →
  heap w !! bd = Some dst → j < length dst →
  xfer mv (Ptr bd j) (Ptr bs i) w =
    Ok tt (set_heap w (<[bs := <[i := mv x]> src]> (<[bd := <[j := x]> dst]> (heap w)))).
Proof.
  intros Hf Hne Hs Hx Hd Hj. unfold xfer.
  rewrite (bind_Ok _ _ _ _ _ (run_load _ _ _ _ _ Hs Hx)).
  rewrite (bind_Ok _ _ _ _ _ (run_fallible _ Hf)).
  rewrite (bind_Ok _ _ _ _ _ (run_store _ _ _ _ _ Hd Hj)).
  erewrite run_store; [done| |by eapply lookup_lt_Some].
  cbn [heap set_heap]. by rewrite lookup_insert_ne.
Qed.

Lemma run_xfer_same mv w b blk i j x :
  fault w = None →
  heap w !! b = Some blk → blk !! i = Some x → j < length blk → i ≠ j →
  xfer mv (Ptr b j) (Ptr b i) w =
    Ok tt (set_heap w (<[b := <[i := mv x]> (<[j := x]> blk)]> (heap w))).
Proof.
  intros Hf Hb Hx Hj Hij. unfold xfer.
  rewrite (bind_Ok _ _ _ _ _ (run_load _ _ _ _ _ Hb Hx)).
  rewrite (bind_Ok _ _ _ _ _ (run_fallible _ Hf)).
  rewrite (bind_Ok _ _ _ _ _ (run_store _ _ _ _ _ Hb Hj)).
  erewrite run_store.
  - cbn [heap set_heap]. by rewrite insert_insert_eq.
  - cbn [heap set_heap]. by rewrite lookup_insert_eq.
  - rewrite length_insert. by eapply lookup_lt_Some.
Qed.

Lemma run_forward mv n : ∀ w bs bd src dst i j,
  fault w = None → bs ≠ bd →
  heap w !! bs = Some src → heap w !! bd = Some dst →
  i + n ≤ length src → j + n ≤ length dst →
  forward (xfer mv) n (Ptr bs i) (Ptr bd j) w =
    Ok tt (set_heap w
      (<[bs := take i src ++ (mv <$> take n (drop i src)) ++ drop (i + n) src]>
        (<[bd := take j dst ++ take n (drop i src) ++ drop (j + n) dst]> (heap w)))).
Proof.
  induction n as [|n IH]; intros w bs bd src dst i j Hf Hne Hs Hd Hi Hj.
  - cbn [forward]. rewrite !take_0, !Nat.add_0_r. cbn [fmap list_fmap app].
    rewrite !take_drop. rewrite (insert_id _ bd dst) by done.
    rewrite insert_id by done. by rewrite set_heap_id.
  - cbn [forward padd].
    destruct (lookup_lt_is_Some_2 src i) as [x Hx]; [lia|].
    assert (i < length src ∧ j < length dst) as [Hi' Hj'] by lia.
    rewrite (bind_Ok _ _ _ _ _ (run_xfer mv _ _ _ _ _ _ _ _ Hf Hne Hs Hx Hd Hj')).
    rewrite (IH _ bs bd (<[i := mv x]> src) (<[j := x]> dst)); cbn [heap set_heap fault].
    + f_equal. unfold set_heap; cbn. f_equal.
      rewrite (insert_insert_ne _ bd bs) by done. rewrite !insert_insert_eq.
      rewrite !Nat.add_1_r.
      rewrite !drop_insert_lt by lia.
      rewrite (take_S_r _ _ _ (list_lookup_insert_eq src i (mv x) Hi')).
      rewrite (take_S_r _ _ _ (list_lookup_insert_eq dst j x Hj')).
      rewrite !take_insert_ge by lia.
      rewrite (drop_S src x i Hx). cbn [take fmap list_fmap].
      rewrite <- !(assoc_L (++)). cbn [app].
      by replace (S i + n) with (i + S n) by lia; replace (S j + n) with (j + S n) by lia.
    + done.
    + done.
    + by rewrite lookup_insert_eq.
    + by rewrite lookup_insert_ne, lookup_insert_eq.
    + rewrite length_insert. lia.
    + rewrite length_insert. lia.
Qed.

Lemma psub_1 b k : Ptr b (S k) -ₚ 1 = Ptr b k.
Proof. unfold psub. rewrite decide_True by lia. f_equal. lia. Qed.

Lemma run_backward mv n : ∀ w b blk i,
  fault w = None → heap w !! b = Some blk → i + n + 1 ≤ length blk →
  ∃ blk',
    backward (xfer mv) n (Ptr b (i + n)) (Ptr b (i + n + 1)) w =
      Ok tt (set_heap w (<[b := blk']> (heap w))) ∧
    length blk' = length blk ∧
    ∀ y, <[i := y]> blk' = take i blk ++ y :: take n (drop i blk) ++ drop (i + n + 1) blk.
Proof.
  induction n as [|n IH]; intros w b blk i Hf Hb Hlen.
  - exists blk. cbn [backward]. rewrite insert_id, set_heap_id by done.
    split_and!; [done..|]. intros y. rewrite Nat.add_0_r, Nat.add_1_r.
    apply insert_take_drop. lia.
  - replace (i + S n + 1) with (S (i + S n)) by lia.
    replace (i + S n) with (S (i + n)) by lia.
    cbn [backward]. rewrite !psub_1.
    destruct (lookup_lt_is_Some_2 blk (i + n)) as [x Hx]; [lia|].
    assert (S (i + n) < length blk) as Hd by lia.
    assert (i + n ≠ S (i + n)) as Hne by lia.
    rewrite (bind_Ok _ _ _ _ _ (run_xfer_same mv _ _ _ _ _ _ Hf Hb Hx Hd Hne)).
    set (blk2 := <[i + n := mv x]> (<[S (i + n) := x]> blk)).
    destruct (IH (set_heap w (<[b := blk2]> (heap w))) b blk2 i) as (blk' & Hrun & Hl & Hins).
    { done. }
    { cbn [heap set_heap]. by rewrite lookup_insert_eq. }
    { unfold blk2. rewrite !length_insert. lia. }
    exists blk'. split_and!.
    + replace (S (i + n)) with (i + n + 1) by lia. rewrite Hrun.
      cbn [heap set_heap]. by rewrite insert_insert_eq.
    + rewrite Hl. unfold blk2. by rewrite !length_insert.
    + intros y. rewrite Hins. unfold blk2.
      rewrite !take_insert_ge by lia.
      rewrite !(take_drop_commute _ n i), !take_insert_ge by lia.
      rewrite drop_insert_lt by lia.
      rewrite drop_insert_ge by lia.
      replace (S (i + n) - (i + n + 1)) with 0 by lia.
      destruct (lookup_lt_is_Some_2 blk (i + n + 1)) as [z Hz]; [lia|].
      rewrite (drop_S blk z (i + n + 1) Hz). cbn [insert list_insert].
      rewrite (take_S_r (drop i blk) n x) by (by rewrite lookup_drop).
      rewrite <- take_drop_commute, <- (assoc_L (++)). cbn [app].
      by replace (S (S (i + n))) with (S (i + n + 1)) by lia.
Qed.

Lemma run_construct w : fault w = None → construct w = Ok dflt w.
Proof. intros Hf. unfold construct. by rewrite (bind_Ok _ _ _ _ _ (run_fallible _ Hf)). Qed.

Lemma run_generate_loop n : ∀ w b blk i,
  fault w = None → heap w !! b = Some blk → i + n ≤ length blk →
  generate_loop n (Ptr b i) w =
    Ok tt (set_heap w (<[b := take i blk ++ replicate n dflt ++ drop (i + n) blk]> (heap w))).
Proof.
  induction n as [|n IH]; intros w b blk i Hf Hb Hlen.
  - cbn [generate_loop replicate app]. rewrite Nat.add_0_r, take_drop.
    by rewrite insert_id, set_heap_id.
  - cbn [generate_loop padd].
    rewrite (bind_Ok _ _ _ _ _ (run_construct _ Hf)).
    assert (i < length blk) as Hi by lia.
    rewrite (bind_Ok _ _ _ _ _ (run_assign _ _ _ _ dflt Hf Hb Hi)).
    rewrite (IH _ b (<[i := dflt]> blk)); cbn [heap set_heap fault].
    + f_equal. unfold set_heap; cbn. f_equal. rewrite insert_insert_eq. f_equal.
      rewrite Nat.add_1_r, drop_insert_lt by lia.
      rewrite (take_S_r _ _ _ (list_lookup_insert_eq blk i dflt Hi)).
      rewrite take_insert_ge by lia. rewrite <- (assoc_L (++)). cbn [app replicate].
      by replace (S i + n) with (i + S n) by lia.
    + done.
    + by rewrite lookup_insert_eq.
    + rewrite length_insert. lia.
Qed.
End loops.


(** *** Symbolic execution *)

Section primitives.
Context {T : Type} `{!Elem T}.
Implicit Types (h : gmap positive (list T)) (a : gmap positive AP.t)
  (v : gmap positive SV.t) (f : option nat).

Lemma wp_bind {A B} (m : M T A) (k : A → M T B) w Q E :
  wp (m w) (λ x w', wp (k x w') Q E) E → wp ((m ≫= k) w) Q E.
Proof. unfold mbind, M_bind, bind, wp. by destruct (m w). Qed.

Lemma wp_on_unwind {A} (m : M T A) c w Q E :
  wp (m w) Q (λ w', wp (c w') (λ _ w'', E w'') (λ _, False)) →
  wp (on_unwind m c w) Q E.
Proof. unfold on_unwind, wp. destruct (m w) as [x w'|w'|]; [done| |done]. by destruct (c w'). Qed.

Lemma post_Ok {A} (r : Res (World T) A) Q :
  post r Q → ∃ x w', r = Ok x w' ∧ Q x w'.
Proof. destruct r; [eauto|done..]. Qed.

Lemma post_eq {A} (r r' : Res (World T) A) :
  post r (λ x w', Ok x w' = r') → r = r'.
Proof. by destruct r. Qed.

Lemma run_get_vec h a v f o x :
  v !! o = Some x → get_vec o (mkWorld h a v f) = Ok x (mkWorld h a v f).
Proof. intros E. unfold get_vec. cbn. by rewrite E. Qed.

Lemma run_put_vec h a v f o x :
  put_vec o x (mkWorld h a v f) = Ok tt (mkWorld h a (<[o := x]> v) f).
Proof. done. Qed.

Lemma run_get_arr_Items h a v f o x :
  v !! o = Some x → get_arr (Items o) (mkWorld h a v f) = Ok (SV.items_ x) (mkWorld h a v f).
Proof. intros E. unfold get_arr. cbn. by rewrite E. Qed.

Lemma run_get_arr_Local h a v f l x :
  a !! l = Some x → get_arr (Local l) (mkWorld h a v f) = Ok x (mkWorld h a v f).
Proof. intros E. unfold get_arr. cbn. by rewrite E. Qed.

Lemma run_put_arr_Items h a v f o x y :
  v !! o = Some x →
  put_arr (Items o) y (mkWorld h a v f) = Ok tt (mkWorld h a (<[o := SV.with_items x y]> v) f).
Proof. intros E. unfold put_arr. cbn. by rewrite E. Qed.

Lemma run_put_arr_Local h a v f l y :
  put_arr (Local l) y (mkWorld h a v f) = Ok tt (mkWorld h (<[l := y]> a) v f).
Proof. done. Qed.

Lemma run_arr_forget h a v f l :
  ArrayPtr.forget l (mkWorld h a v f) = Ok tt (mkWorld h (delete l a) v f).
Proof. done. Qed.

Lemma run_vec_forget h a v f o :
  SimpleVector.forget o (mkWorld h a v f) = Ok tt (mkWorld h a (delete o v) f).
Proof. done. Qed.

Lemma run_range p q n (w : World T) : pdiff q p = Some n → range p q w = Ok n w.
Proof. intros E. unfold range. by rewrite E. Qed.

Lemma run_assert (w : World T) : assert_ (Some true) w = Ok tt w.
Proof. done. Qed.

Lemma run_delete_null (w : World T) : delete_array Null w = Ok tt w.
Proof. done. Qed.

Lemma run_delete_block h a v f b blk :
  h !! b = Some blk →
  delete_array (Ptr b 0) (mkWorld h a v f) = Ok tt (mkWorld (delete b h) a v f).
Proof. intros E. unfold delete_array. cbn. by rewrite E. Qed.

Lemma run_assign_at h a v b off blk x :
  h !! b = Some blk → off < length blk →
  assign (Ptr b off) x (mkWorld h a v None) =
    Ok tt (mkWorld (<[b := <[off := x]> blk]> h) a v None).
Proof. intros Hb Hoff. by rewrite (run_assign _ b off blk). Qed.

Lemma fresh_ne {V} (m : gmap positive V) k : is_Some (m !! k) → fresh (dom m) ≠ k.
Proof. intros Hk <-. apply elem_of_dom in Hk. by apply is_fresh in Hk. Qed.

Lemma fresh_lookup {V} (m : gmap positive V) : m !! fresh (dom m) = None.
Proof. apply not_elem_of_dom, is_fresh. Qed.

Lemma Items_ne (o o' : positive) : o ≠ o' → Items o ≠ Items o'.
Proof. congruence. Qed.

Lemma Local_ne (l l' : positive) : l ≠ l' → Local l ≠ Local l'.
Proof. congruence. Qed.

Lemma pdiff_padd b i n : pdiff (Ptr b (i + n)) (Ptr b i) = Some n.
Proof. unfold pdiff. rewrite decide_True by (split; [done|lia]). f_equal. lia. Qed.

Lemma pdiff_same p : pdiff p p = Some 0.
Proof.
  destruct p as [|b i]; [done|]. unfold pdiff.
  rewrite decide_True by done. f_equal. lia.
Qed.

Lemma pdiff_0 b j : pdiff (Ptr b j) (Ptr b 0) = Some j.
Proof. unfold pdiff. rewrite decide_True by (split; [done|lia]). f_equal. lia. Qed.

Lemma pdiff_le b i j : i ≤ j → pdiff (Ptr b j) (Ptr b i) = Some (j - i).
Proof. intros Hij. unfold pdiff. by rewrite decide_True. Qed.

Lemma ple_le b i j : i ≤ j → ple (Ptr b i) (Ptr b j) = Some true.
Proof.
  intros Hij. unfold ple. rewrite decide_True by done.
  by rewrite bool_decide_eq_true_2.
Qed.

Lemma ple_same p : ple p p = Some true.
Proof.
  destruct p as [|b i]; [done|]. unfold ple.
  rewrite decide_True by done. by rewrite bool_decide_eq_true_2.
Qed.
End primitives.

(** Side conditions: lookups in stores built from inserts and deletes, and
    disequalities between a fresh name and a name in use. *)
Ltac lookup :=
  cbn [heap arrs vecs fault];
  repeat first
    [ rewrite lookup_insert_eq
    | rewrite lookup_insert_ne by neq
    | rewrite lookup_delete_ne by neq ];
  first [ reflexivity | eassumption | apply fresh_lookup ]
with neq :=
  first
    [ assumption
    | apply not_eq_sym; assumption
    | discriminate
    | apply fresh_ne; eexists; lookup
    | apply not_eq_sym, fresh_ne; eexists; lookup
    | apply Items_ne; neq
    | apply Local_ne; neq ].

Ltac fields :=
  cbv [AP.init AP.with_raw_ptr AP.with_capacity
       SV.init SV.with_items SV.with_size SV.with_capacity];
  cbn [AP.raw_ptr_ AP.capacity_ SV.items_ SV.size_ SV.capacity_ padd Nat.add
       heap arrs vecs fault wp forward backward generate_loop].

Ltac side := fields; first [ done | lia | neq | congruence ].

(** One step of symbolic execution on a goal [wp (m w) Q E], for code that
    only touches the stores; what remains is a call the tactic does not know,
    or the postcondition. *)
Ltac step :=
  lazy beta; fields;
  lazymatch goal with
  | |- wp ((_ ≫= _) _) _ _ => apply wp_bind
  | |- wp (mret _ _) _ _ => rewrite run_ret
  | |- wp (get_vec _ _) _ _ => erewrite run_get_vec by lookup
  | |- wp (put_vec _ _ _) _ _ => rewrite run_put_vec
  | |- wp (get_arr (Items _) _) _ _ => erewrite run_get_arr_Items by lookup
  | |- wp (get_arr (Local _) _) _ _ => erewrite run_get_arr_Local by lookup
  | |- wp (put_arr (Items _) _ _) _ _ => erewrite run_put_arr_Items by lookup
  | |- wp (put_arr (Local _) _ _) _ _ => rewrite run_put_arr_Local
  | |- wp (ArrayPtr.forget _ _) _ _ => rewrite run_arr_forget
  | |- wp (SimpleVector.forget _ _) _ _ => rewrite run_vec_forget
  | |- wp (fallible _) _ _ => rewrite run_fallible by reflexivity
  | |- wp (assert_ (Some true) _) _ _ => rewrite run_assert
  | |- wp (assert_ (ple ?p ?p) _) _ _ => rewrite (ple_same p)
  | |- wp (assert_ (ple (Ptr ?b _) (Ptr ?b _)) _) _ _ => rewrite ple_le by side
  | |- wp (delete_array Null _) _ _ => rewrite run_delete_null
  | |- wp (delete_array (Ptr _ 0) _) _ _ => erewrite run_delete_block by lookup
  | |- wp (range ?p ?p _) _ _ => rewrite (run_range p p 0) by apply pdiff_same
  | |- wp (range (Ptr ?b 0) (Ptr ?b ?j) _) _ _ =>
      rewrite (run_range (Ptr b 0) (Ptr b j) j) by apply pdiff_0
  | |- wp (range (Ptr ?b ?i) (Ptr ?b ?j) _) _ _ =>
      rewrite (run_range (Ptr b i) (Ptr b j) (j - i)) by (apply pdiff_le; side)
  | |- wp (std_copy _ _ _ _) _ _ => unfold std_copy at 1
  | |- wp (std_move _ _ _ _) _ _ => unfold std_move at 1
  | |- wp (std_copy_backward _ _ _ _) _ _ => unfold std_copy_backward at 1
  | |- wp (std_move_backward _ _ _ _) _ _ => unfold std_move_backward at 1
  | |- wp (std_generate _ _ _) _ _ => unfold std_generate at 1
  | |- wp (on_unwind _ _ _) _ _ => apply wp_on_unwind
  | |- wp (at_exit _ _ _) _ _ => unfold at_exit at 1
  | |- wp ((if decide ?P then _ else _) _) _ _ =>
      first [ rewrite (decide_True (P:=P)) by side
            | rewrite (decide_False (P:=P)) by side ]
  | |- wp ((if bool_decide ?P then _ else _) _) _ _ =>
      first [ rewrite (bool_decide_eq_true_2 P) by side
            | rewrite (bool_decide_eq_false_2 P) by side ]
  | |- wp (ArrayPtr.set_raw_ptr _ _ _) _ _ => unfold ArrayPtr.set_raw_ptr at 1
  | |- wp (ArrayPtr.set_capacity _ _ _) _ _ => unfold ArrayPtr.set_capacity at 1
  | |- wp (ArrayPtr.Get _ _) _ _ => unfold ArrayPtr.Get at 1
  | |- wp (ArrayPtr.index _ _ _) _ _ => unfold ArrayPtr.index at 1
  | |- wp (ArrayPtr.ctor_default _ _) _ _ => unfold ArrayPtr.ctor_default at 1
  | |- wp (ArrayPtr.ctor_raw _ _ _) _ _ => unfold ArrayPtr.ctor_raw at 1
  | |- wp (ArrayPtr.swap _ _ _) _ _ => unfold ArrayPtr.swap at 1
  | |- wp (ArrayPtr.move_assign _ _ _) _ _ => unfold ArrayPtr.move_assign at 1
  | |- wp (ArrayPtr.ctor_move _ _ _) _ _ => unfold ArrayPtr.ctor_move at 1
  | |- wp (ArrayPtr.dtor _ _) _ _ => unfold ArrayPtr.dtor at 1
  | |- wp (ArrayPtr.Delete _ _) _ _ => unfold ArrayPtr.Delete at 1
  | |- wp (ArrayPtr.Release _ _) _ _ => unfold ArrayPtr.Release at 1
  | |- wp (SimpleVector.set_size _ _ _) _ _ => unfold SimpleVector.set_size at 1
  | |- wp (SimpleVector.set_capacity _ _ _) _ _ => unfold SimpleVector.set_capacity at 1
  | |- wp (SimpleVector.GetSize _ _) _ _ => unfold SimpleVector.GetSize at 1
  | |- wp (SimpleVector.GetCapacity _ _) _ _ => unfold SimpleVector.GetCapacity at 1
  | |- wp (SimpleVector.IsEmpty _ _) _ _ => unfold SimpleVector.IsEmpty at 1
  | |- wp (SimpleVector.begin _ _) _ _ => unfold SimpleVector.begin at 1
  | |- wp (SimpleVector.cbegin _ _) _ _ => unfold SimpleVector.cbegin at 1
  | |- wp (SimpleVector.end_ _ _) _ _ => unfold SimpleVector.end_ at 1
  | |- wp (SimpleVector.cend _ _) _ _ => unfold SimpleVector.cend at 1
  | |- wp (SimpleVector.Clear _ _) _ _ => unfold SimpleVector.Clear at 1
  | |- wp (SimpleVector.swap _ _ _) _ _ => unfold SimpleVector.swap at 1
  | |- wp (SimpleVector.dtor _ _) _ _ => unfold SimpleVector.dtor at 1
  | |- wp (SimpleVector.ctor_default _ _) _ _ => unfold SimpleVector.ctor_default at 1
  | |- wp (SimpleVector.ctor_copy _ _ _) _ _ => unfold SimpleVector.ctor_copy at 1
  | |- wp (SimpleVector.ctor_move _ _ _) _ _ => unfold SimpleVector.ctor_move at 1
  | |- wp (ArrayPtr.local _ _ _) _ _ => unfold ArrayPtr.local at 1; lazy zeta
  | |- wp (SimpleVector.local _ _ _) _ _ => unfold SimpleVector.local at 1; lazy zeta
  | |- wp (SimpleVector.declare _ _) _ _ => unfold SimpleVector.declare at 1; lazy zeta
  end.

Ltac run := repeat step; lazy beta; fields.

Section objects.
Context {T : Type} `{!Elem T}.
Implicit Types (w : World T) (blk src dst : list T) (b : positive).

Lemma run_new_array h a v n :
  new_array n (mkWorld h a v None) =
    Ok (Ptr (fresh (dom h)) 0) (mkWorld (<[fresh (dom h) := replicate n dflt]> h) a v None).
Proof.
  apply post_eq. unfold new_array. run.
  rewrite run_times by done. by run.
Qed.

Lemma run_generate_at h a v b blk i n :
  h !! b = Some blk → i + n ≤ length blk →
  generate_loop n (Ptr b i) (mkWorld h a v None) =
    Ok tt (mkWorld (<[b := take i blk ++ replicate n dflt ++ drop (i + n) blk]> h) a v None).
Proof. intros Hb Hn. by rewrite (run_generate_loop n _ b blk i). Qed.

(** [SimpleVector(size)] on storage set aside at [o], for a positive size. *)
Lemma run_ctor_size h a v (o : positive) n :
  0 < n →
  SimpleVector.ctor_size o n (mkWorld h a v None) =
    Ok tt (mkWorld (<[fresh (dom h) := replicate n dflt]> h) a
             (<[o := SV.Build (AP.Build (Ptr (fresh (dom h)) 0) n) n n]> v) None).
Proof.
  intros Hn. apply post_eq. unfold SimpleVector.ctor_size, ArrayPtr.ctor_size. run.
  rewrite run_new_array. run.
  rewrite (run_generate_at _ _ _ (fresh (dom h)) (replicate n dflt) 0 n);
    [|lookup|by rewrite length_replicate].
  run. f_equal. f_equal.
  - rewrite insert_insert_eq, take_0, drop_replicate, Nat.sub_diag. cbn.
    by rewrite (right_id_L [] (++)).
  - by rewrite !insert_insert_eq.
Qed.

Lemma run_ctor_size_0 h a v (o : positive) :
  SimpleVector.ctor_size o 0 (mkWorld h a v None) =
    Ok tt (mkWorld h a (<[o := SV.init]> v) None).
Proof.
  apply post_eq. unfold SimpleVector.ctor_size, ArrayPtr.ctor_size. run.
  f_equal. f_equal. by rewrite !insert_insert_eq.
Qed.
End objects.

(** *** Ranges and blocks, on known states *)

Section ranges.
Context {T : Type} `{!Elem T}.
Implicit Types (w : World T) (h : gmap positive (list T)).

Lemma run_copy_between h a vs bs bd src dst i j n :
  bs ≠ bd → h !! bs = Some src → h !! bd = Some dst →
  i + n ≤ length src → j + n ≤ length dst →
  forward copy_elem n (Ptr bs i) (Ptr bd j) (mkWorld h a vs None) =
    Ok tt (mkWorld (<[bd := take j dst ++ take n (drop i src) ++ drop (j + n) dst]> h)
             a vs None).
Proof.
  intros Hne Hs Hd Hi Hj.
  rewrite (forward_ext _ (xfer id)) by apply copy_elem_xfer.
  rewrite (run_forward id n _ bs bd src dst i j) by done.
  f_equal. unfold set_heap. cbn. f_equal.
  rewrite list_fmap_id, (assoc_L (++)), take_take_drop, take_drop.
  apply insert_id. by rewrite lookup_insert_ne.
Qed.

Lemma run_move_between h a vs bs bd src dst i j n :
  bs ≠ bd → h !! bs = Some src → h !! bd = Some dst →
  i + n ≤ length src → j + n ≤ length dst →
  forward move_elem n (Ptr bs i) (Ptr bd j) (mkWorld h a vs None) =
    Ok tt (mkWorld
             (<[bs := take i src ++ (moved <$> take n (drop i src)) ++ drop (i + n) src]>
               (<[bd := take j dst ++ take n (drop i src) ++ drop (j + n) dst]> h))
             a vs None).
Proof.
  intros Hne Hs Hd Hi Hj. change move_elem with (xfer moved).
  by rewrite (run_forward moved n _ bs bd src dst i j).
Qed.

(** [*d = *s] and [*d = std::move( *s )] on known blocks. *)
Lemma run_copy_elem_at h a vs bd j dst bs i src x :
  h !! bs = Some src → src !! i = Some x → h !! bd = Some dst → j < length dst →
  copy_elem (Ptr bd j) (Ptr bs i) (mkWorld h a vs None) =
    Ok tt (mkWorld (<[bd := <[j := x]> dst]> h) a vs None).
Proof.
  intros Hs Hx Hd Hj. unfold copy_elem.
  rewrite (bind_Ok _ _ _ _ _ (run_load (mkWorld h a vs None) bs i src x Hs Hx)).
  by apply run_assign_at.
Qed.

Lemma run_move_elem_at h a vs bd j dst bs i src x :
  bs ≠ bd → h !! bs = Some src → src !! i = Some x → h !! bd = Some dst → j < length dst →
  move_elem (Ptr bd j) (Ptr bs i) (mkWorld h a vs None) =
    Ok tt (mkWorld (<[bs := <[i := moved x]> src]> (<[bd := <[j := x]> dst]> h)) a vs None).
Proof.
  intros Hne Hs Hx Hd Hj. change move_elem with (xfer moved).
  by rewrite (run_xfer moved _ bs bd src dst i j x).
Qed.

(** An object that can be read lies in a live block. *)
Lemma load_inv h a vs f r x w' :
  load r (mkWorld h a vs f) = Ok x w' →
  ∃ rb ro rblk, r = Ptr rb ro ∧ h !! rb = Some rblk ∧ rblk !! ro = Some x.
Proof.
  unfold load. destruct r as [|rb ro]; [done|]. cbn [heap].
  destruct (h !! rb) as [rblk|] eqn:Hr; [|done].
  destruct (rblk !! ro) as [y|] eqn:Hy; [|done]. intros [= <- _]. eauto 10.
Qed.

(** Shifting [[i, e)] one slot to the right inside a block, by copies or by
    moves; slot [i] is overwritten next, whatever it holds. *)
Lemma run_shift_right (copy : bool) h a vs b blk i e :
  h !! b = Some blk → i ≤ e → e + 1 ≤ length blk →
  ∃ blk',
    backward (if copy then copy_elem else move_elem) (e - i)
      (Ptr b e) (Ptr b (e + 1)) (mkWorld h a vs None) =
      Ok tt (mkWorld (<[b := blk']> h) a vs None) ∧
    length blk' = length blk ∧
    ∀ y, <[i := y]> blk' = take i blk ++ y :: take (e - i) (drop i blk) ++ drop (e + 1) blk.
Proof.
  intros Hb Hie Hn.
  destruct (run_backward (if copy then id else moved) (e - i) (mkWorld h a vs None) b blk i)
    as (blk' & Hrun & Hlen & Hins); [done|done|lia|].
  replace (i + (e - i)) with e in * by lia.
  exists blk'. split_and!; [|done..].
  destruct copy.
  - rewrite (backward_ext _ (xfer id)) by apply copy_elem_xfer. by rewrite Hrun.
  - change move_elem with (xfer moved). by rewrite Hrun.
Qed.

Lemma valid_inv h a vs f (o : positive) :
  valid (mkWorld h a vs f) o →
  ∃ p c s k, vs !! o = Some (SV.Build (AP.Build p c) s k) ∧ s ≤ k ∧
    (p = Null ∧ k = 0 ∨ ∃ b blk, p = Ptr b 0 ∧ h !! b = Some blk ∧ k ≤ length blk).
Proof.
  intros ([[p c] s k] & Hv & Hs & Hp). cbn in *. exists p, c, s, k.
  split_and!; [done..|]. destruct p as [|b off]; [by left|right].
  destruct Hp as (-> & blk & ? & ?). eauto.
Qed.
End ranges.

(** [exec] extends [run] with allocation and the sized constructors. *)
Ltac exec_step :=
  first
    [ step
    | lazymatch goal with
      | |- wp (new_array _ _) _ _ => rewrite run_new_array
      | |- wp (ArrayPtr.ctor_size _ _ _) _ _ => unfold ArrayPtr.ctor_size at 1
      | |- wp (SimpleVector.ctor_size _ 0 _) _ _ => rewrite run_ctor_size_0
      | |- wp (SimpleVector.ctor_size _ _ _) _ _ => rewrite run_ctor_size by side
      end ].

Ltac exec := repeat exec_step; lazy beta; fields.

(** *** Observing vectors, and the lists insertion and growth produce *)

Section vector_facts.
Context {T : Type} `{!Elem T}.
Implicit Types (w : World T) (h : gmap positive (list T)) (blk xs : list T).

Lemma observe_Null h a vs f (o : positive) c k :
  vs !! o = Some (SV.Build (AP.Build Null c) 0 k) →
  observe (mkWorld h a vs f) o = Some (0, k, []).
Proof. intros Hv. unfold observe, elements. cbn [vecs heap]. rewrite Hv. done. Qed.

Lemma observe_Ptr h a vs f (o : positive) b c s k blk :
  vs !! o = Some (SV.Build (AP.Build (Ptr b 0) c) s k) →
  h !! b = Some blk → s ≤ length blk →
  observe (mkWorld h a vs f) o = Some (s, k, take s blk).
Proof.
  intros Hv Hb Hs. unfold observe, elements. cbn [vecs heap]. rewrite Hv. cbn.
  rewrite Hb. cbn. by rewrite decide_True by done.
Qed.

(** A valid vector and what [observe] shows of it. *)
Lemma valid_observe h a vs f (o : positive) s c xs :
  valid (mkWorld h a vs f) o → observe (mkWorld h a vs f) o = Some (s, c, xs) →
  s ≤ c ∧
  ((∃ c', vs !! o = Some (SV.Build (AP.Build Null c') 0 0) ∧ s = 0 ∧ c = 0 ∧ xs = []) ∨
   (∃ c' b blk, vs !! o = Some (SV.Build (AP.Build (Ptr b 0) c') s c) ∧
      h !! b = Some blk ∧ c ≤ length blk ∧ xs = take s blk)).
Proof.
  intros (p & c' & s' & k & Hv & Hsk & Hp)%valid_inv Hobs.
  destruct Hp as [[-> ->]|(b & blk & -> & Hb & Hk)].
  - assert (s' = 0) as -> by lia. rewrite (observe_Null _ _ _ _ _ _ _ Hv) in Hobs.
    simplify_eq. split; [done|left]. eauto.
  - rewrite (observe_Ptr _ _ _ _ _ _ _ _ _ _ Hv Hb) in Hobs by lia.
    simplify_eq. split; [done|right]. eauto 10.
Qed.

Lemma observe_inv w (o : positive) s c xs :
  observe w o = Some (s, c, xs) →
  ∃ q c', vecs w !! o = Some (SV.Build (AP.Build q c') s c) ∧ elements w o = Some xs.
Proof.
  unfold observe. destruct (vecs w !! o) as [[[q c'] s' k]|] eqn:Hv; [|done]. cbn.
  destruct (elements w o) as [ys|]; [|done]. cbn. intros [= <- <- <-]. eauto.
Qed.

Lemma valid_Ptr h a vs f (o : positive) b c s k blk :
  vs !! o = Some (SV.Build (AP.Build (Ptr b 0) c) s k) →
  h !! b = Some blk → s ≤ k → k ≤ length blk →
  valid (mkWorld h a vs f) o.
Proof.
  intros Hv Hb Hs Hk. eexists. split; [exact Hv|]. cbn. split; [done|].
  split; [done|]. eauto.
Qed.

Lemma valid_Null h a vs f (o : positive) c :
  vs !! o = Some (SV.Build (AP.Build Null c) 0 0) → valid (mkWorld h a vs f) o.
Proof. intros Hv. eexists. split; [exact Hv|]. cbn. done. Qed.

Lemma buffer_eq h a vs f (o : positive) p c s k :
  vs !! o = Some (SV.Build (AP.Build p c) s k) →
  buffer (mkWorld h a vs f) o = Some p.
Proof. intros Hv. unfold buffer. cbn. by rewrite Hv. Qed.

Lemma take_inserted blk k s (value : T) rest :
  k ≤ s → s ≤ length blk →
  take (s + 1) (take k blk ++ value :: take (s - k) (drop k blk) ++ rest) =
    take k (take s blk) ++ value :: drop k (take s blk).
Proof.
  intros Hk Hs.
  rewrite take_take, Nat.min_l by done.
  rewrite (take_drop_commute blk (s - k) k).
  replace (k + (s - k)) with s by lia.
  trans (take (s + 1) ((take k blk ++ value :: drop k (take s blk)) ++ rest)).
  { by rewrite <- (assoc_L (++)). }
  apply take_app_length'.
  rewrite length_app, length_take. cbn [length].
  rewrite length_drop, length_take. lia.
Qed.

Lemma length_inserted blk k s (value : T) rest :
  k ≤ s → s ≤ length blk →
  length (take k blk ++ value :: take (s - k) (drop k blk) ++ rest) = s + 1 + length rest.
Proof.
  intros Hk Hs. rewrite length_app, length_take. cbn [length].
  rewrite length_app, length_take, length_drop. lia.
Qed.

Lemma inserted_at_intro xs k value :
  k ≤ length xs → inserted_at xs k value (take k xs ++ value :: drop k xs).
Proof.
  intros Hk. unfold inserted_at. split_and!.
  - rewrite length_app, length_take. cbn [length]. rewrite length_drop. lia.
  - rewrite lookup_app_r by (rewrite length_take; lia).
    rewrite length_take, Nat.min_l, Nat.sub_diag by done. done.
  - intros j Hj. rewrite lookup_app_l by (rewrite length_take; lia).
    by rewrite lookup_take_lt.
  - intros j Hj. rewrite lookup_app_r by (rewrite length_take; lia).
    rewrite length_take, Nat.min_l by done.
    replace (j + 1 - k) with (S (j - k)) by lia.
    change ((value :: drop k xs) !! S (j - k)) with (drop k xs !! (j - k)).
    rewrite lookup_drop. f_equal. lia.
Qed.

(** The new block of a reallocating insertion: the prefix, the value, the
    suffix [mid], and default elements up to the new capacity. *)
Lemma realloc_block blk k s nc (value : T) mid :
  k ≤ s → s ≤ length blk → s < nc →
  take (k + 1)
      (<[k := value]> (take 0 (replicate nc dflt) ++ take k (drop 0 blk) ++
                       drop k (replicate nc dflt))) ++
    mid ++
    drop (k + 1 + (s - k))
      (<[k := value]> (take 0 (replicate nc dflt) ++ take k (drop 0 blk) ++
                       drop k (replicate nc dflt))) =
  take k blk ++ value :: mid ++ replicate (nc - (s + 1)) dflt.
Proof.
  intros Hk Hs Hnc. rewrite take_0, drop_0. cbn [app].
  assert (length (take k blk) = k) as Hl by (rewrite length_take; lia).
  rewrite insert_app_r_alt by lia. rewrite Hl, Nat.sub_diag.
  rewrite drop_replicate. destruct (nc - k) as [|m] eqn:Hm; [lia|].
  cbn [replicate insert list_insert].
  rewrite (take_app_add' _ _ k 1) by done.
  replace (k + 1 + (s - k)) with (k + S (s - k)) by lia.
  rewrite (drop_app_add' _ _ k) by done.
  cbn [take drop]. rewrite take_0, drop_replicate.
  rewrite <- (assoc_L (++)). cbn [app].
  by replace (m - (s - k)) with (nc - (s + 1)) by lia.
Qed.

Lemma drop_moved_prefix (mv : T → T) blk k :
  k ≤ length blk →
  drop k (take 0 blk ++ (mv <$> take k (drop 0 blk)) ++ drop k blk) = drop k blk.
Proof.
  intros Hk. rewrite take_0, drop_0. cbn [app].
  apply drop_app_length'. rewrite length_fmap, length_take. lia.
Qed.

Lemma length_moved_prefix (mv : T → T) blk k :
  k ≤ length blk →
  length (take 0 blk ++ (mv <$> take k (drop 0 blk)) ++ drop k blk) = length blk.
Proof.
  intros Hk. rewrite take_0, drop_0. cbn [app].
  rewrite length_app, length_fmap, length_take, length_drop. lia.
Qed.

Lemma grown_block blk s n :
  s ≤ n → s ≤ length blk →
  take s (take 0 (replicate n dflt) ++ take s (drop 0 blk) ++ drop s (replicate n dflt)) ++
    replicate (n - s) dflt ++
    drop n (take 0 (replicate n dflt) ++ take s (drop 0 blk) ++ drop s (replicate n dflt)) =
  take s blk ++ replicate (n - s) dflt.
Proof.
  intros Hn Hs. rewrite take_0, drop_0. cbn [app].
  assert (length (take s blk) = s) as Hl by (rewrite length_take; lia).
  rewrite (take_app_length' _ _ s) by done.
  rewrite drop_ge; [by rewrite (right_id_L [] (++))|].
  rewrite length_app, Hl, length_drop, length_replicate. lia.
Qed.

End vector_facts.

(** ** [ArrayPtr]: ownership and the recorded capacity *)

Section ArrayPtr_properties.
Context {T : Type} `{!Elem T}.
Implicit Types (w : World T) (h : gmap positive (list T)).

Ltac holds :=
  lazymatch goal with
  | |- get_arr (Items _) _ = _ => erewrite run_get_arr_Items by lookup; fields; done
  | |- get_arr (Local _) _ = _ => erewrite run_get_arr_Local by lookup; fields; done
  end.

Lemma get_arr_Items_inv h a vs f (o : positive) x :
  get_arr (Items o) (mkWorld h a vs f) = Ok x (mkWorld h a vs f) →
  ∃ v, vs !! o = Some v ∧ SV.items_ v = x.
Proof. unfold get_arr. cbn. destruct (vs !! o) as [v|]; [|done]. intros [= <-]. eauto. Qed.

Lemma get_arr_Local_inv h a vs f (l : positive) x :
  get_arr (Local l) (mkWorld h a vs f) = Ok x (mkWorld h a vs f) → a !! l = Some x.
Proof. unfold get_arr. cbn. destruct (a !! l); [|done]. by intros [= <-]. Qed.

(** Case analysis on the two places of a binary [ArrayPtr] operation. *)
Ltac place_of this Ha :=
  let v := fresh "v" in let Hv := fresh "Hv" in
  destruct this as [?o|?l];
  [ apply get_arr_Items_inv in Ha as (v & Ha & Hv); destruct v as [[? ?] ? ?];
    cbn in Hv; simplify_eq
  | apply get_arr_Local_inv in Ha ].

(** C5, as the code has it.  Move construction hands the block and the
    capacity of [other] to the new buffer and leaves [other] empty.  Move
    assignment into another buffer is a [swap]: the destination gets the block
    and capacity of the source, and the source gets what the destination held,
    so it ends empty only when the destination was empty.  No block is
    allocated or freed by either. *)
Theorem ArrayPtr_move_exchanges w this other a b :
  this ≠ other → get_arr this w = Ok a w → get_arr other w = Ok b w →
  (∃ w', ArrayPtr.ctor_move this other w = Ok tt w' ∧
         get_arr this w' = Ok b w' ∧ get_arr other w' = Ok AP.init w' ∧
         heap w' = heap w) ∧
  (∃ w', ArrayPtr.move_assign this other w = Ok tt w' ∧
         get_arr this w' = Ok b w' ∧ get_arr other w' = Ok a w' ∧
         heap w' = heap w).
Proof.
  destruct w as [h ar vs f]. intros Hne Ha Hb.
  destruct a as [pa ca], b as [pb cb].
  assert (∀ x y : positive, Items x ≠ Items y → x ≠ y) as HI by congruence.
  assert (∀ x y : positive, Local x ≠ Local y → x ≠ y) as HL by congruence.
  split.
  - cut (post (ArrayPtr.ctor_move this other (mkWorld h ar vs f)) (λ _ w',
           get_arr this w' = Ok (AP.Build pb cb) w' ∧
           get_arr other w' = Ok AP.init w' ∧ heap w' = h)).
    { intros ([] & w' & ? & ?)%post_Ok. eauto. }
    place_of this Ha; place_of other Hb;
      try (apply HI in Hne); try (apply HL in Hne);
      (run; split_and!; first [done | holds]).
  - cut (post (ArrayPtr.move_assign this other (mkWorld h ar vs f)) (λ _ w',
           get_arr this w' = Ok (AP.Build pb cb) w' ∧
           get_arr other w' = Ok (AP.Build pa ca) w' ∧ heap w' = h)).
    { intros ([] & w' & ? & ?)%post_Ok. eauto. }
    place_of this Ha; place_of other Hb;
      try (apply HI in Hne); try (apply HL in Hne);
      (run; split_and!; first [done | holds]).
Qed.

(** What the two moves leave in the two buffers. *)
Lemma run_ArrayPtr_moves w this other a b :
  this ≠ other → get_arr this w = Ok a w → get_arr other w = Ok b w →
  (∃ w', ArrayPtr.ctor_move this other w = Ok tt w' ∧
         get_arr this w' = Ok b w' ∧ get_arr other w' = Ok AP.init w') ∧
  (∃ w', ArrayPtr.move_assign this other w = Ok tt w' ∧
         get_arr this w' = Ok b w' ∧ get_arr other w' = Ok a w').
Proof.
  destruct w as [h ar vs f]. intros Hne Ha Hb.
  destruct a as [pa ca], b as [pb cb].
  assert (∀ x y : positive, Items x ≠ Items y → x ≠ y) as HI by congruence.
  assert (∀ x y : positive, Local x ≠ Local y → x ≠ y) as HL by congruence.
  split.
  - cut (post (ArrayPtr.ctor_move this other (mkWorld h ar vs f)) (λ _ w',
           get_arr this w' = Ok (AP.Build pb cb) w' ∧
           get_arr other w' = Ok AP.init w')).
    { intros ([] & w' & ? & ?)%post_Ok. eauto. }
    place_of this Ha; place_of other Hb;
      try (apply HI in Hne); try (apply HL in Hne);
      (run; split_and!; first [done | holds]).
  - cut (post (ArrayPtr.move_assign this other (mkWorld h ar vs f)) (λ _ w',
           get_arr this w' = Ok (AP.Build pb cb) w' ∧
           get_arr other w' = Ok (AP.Build pa ca) w')).
    { intros ([] & w' & ? & ?)%post_Ok. eauto. }
    place_of this Ha; place_of other Hb;
      try (apply HI in Hne); try (apply HL in Hne);
      (run; split_and!; first [done | holds]).
Qed.

(** C6, as the code has it.  From a state where [this] and [other] hold
    buffers for which pointer-empty and capacity-zero coincide: default
    construction and construction from a size establish the equivalence (and
    the capacity is the size asked for); construction from a raw block records
    capacity 0 whatever the block is; move construction, move assignment and
    [swap] keep the equivalence for both buffers; [Release] returns the block
    and leaves the pointer empty, and so does [Delete]. *)
Theorem ArrayPtr_capacity_record w this other a b n p :
  this ≠ other → fault w = None →
  get_arr this w = Ok a w → get_arr other w = Ok b w →
  empty_iff_no_capacity a → empty_iff_no_capacity b → deletable w a →
  (∃ w' a', ArrayPtr.ctor_default this w = Ok tt w' ∧
      get_arr this w' = Ok a' w' ∧ empty_iff_no_capacity a') ∧
  (∃ w' a', ArrayPtr.ctor_size this n w = Ok tt w' ∧
      get_arr this w' = Ok a' w' ∧ empty_iff_no_capacity a' ∧ AP.capacity_ a' = n) ∧
  (∃ w', ArrayPtr.ctor_raw this p w = Ok tt w' ∧
      get_arr this w' = Ok (AP.Build p 0) w') ∧
  (∃ w' a' b', ArrayPtr.ctor_move this other w = Ok tt w' ∧
      get_arr this w' = Ok a' w' ∧ get_arr other w' = Ok b' w' ∧
      empty_iff_no_capacity a' ∧ empty_iff_no_capacity b') ∧
  (∃ w' a' b', ArrayPtr.move_assign this other w = Ok tt w' ∧
      get_arr this w' = Ok a' w' ∧ get_arr other w' = Ok b' w' ∧
      empty_iff_no_capacity a' ∧ empty_iff_no_capacity b') ∧
  (∃ w' a' b', ArrayPtr.swap this other w = Ok tt w' ∧
      get_arr this w' = Ok a' w' ∧ get_arr other w' = Ok b' w' ∧
      empty_iff_no_capacity a' ∧ empty_iff_no_capacity b') ∧
  (∃ w' a', ArrayPtr.Release this w = Ok (AP.raw_ptr_ a) w' ∧
      get_arr this w' = Ok a' w' ∧ AP.raw_ptr_ a' = Null) ∧
  (∃ w' a', ArrayPtr.Delete this w = Ok tt w' ∧
      get_arr this w' = Ok a' w' ∧ AP.raw_ptr_ a' = Null).
Proof.
  intros Hne Hf Ha Hb Ia Ib Hd.
  destruct (run_ArrayPtr_moves w this other a b Hne Ha Hb)
    as [(w1 & Hm1 & Ht1 & Ho1) (w2 & Hm2 & Ht2 & Ho2)].
  assert (empty_iff_no_capacity AP.init) as Ii by done.
  destruct w as [h ar vs f]. cbn [fault] in Hf. subst f.
  assert (ArrayPtr.swap this other (mkWorld h ar vs None) = Ok tt w2) as Hs2.
  { revert Hm2. unfold ArrayPtr.move_assign. by rewrite decide_True. }
  destruct a as [pa ca].
  assert (pa = Null ∨ ∃ bk blk, pa = Ptr bk 0 ∧ h !! bk = Some blk) as Hpa.
  { unfold deletable in Hd. cbn in Hd. destruct pa as [|bk off]; [by left|right].
    destruct Hd as [-> [blk Hblk]]. eauto. }
  clear Hd. cbn [AP.raw_ptr_].
  assert (∀ (m : M T unit) (Q : AP.t → Prop),
    post (m (mkWorld h ar vs None)) (λ _ w', ∃ a', get_arr this w' = Ok a' w' ∧ Q a') →
    ∃ w' a', m (mkWorld h ar vs None) = Ok tt w' ∧ get_arr this w' = Ok a' w' ∧ Q a')
    as Hpost.
  { intros m Q ([] & w' & ? & a' & ? & ?)%post_Ok. eauto. }
  split_and!.
  - apply Hpost. place_of this Ha; run; exists AP.init; (split; [holds|done]).
  - apply (Hpost _ (λ a', empty_iff_no_capacity a' ∧ AP.capacity_ a' = n)).
    unfold ArrayPtr.ctor_size.
    place_of this Ha;
      (destruct (decide (0 < n)) as [Hn|Hn];
       [ run; rewrite run_new_array; run;
         exists (AP.Build (Ptr (fresh (dom h)) 0) n);
         split_and!; [holds| |done]; split; [done|cbn; intros ?; exfalso; lia]
       | assert (n = 0) as -> by lia; run; exists AP.init; split_and!; [holds|done..] ]).
  - cut (post (ArrayPtr.ctor_raw this p (mkWorld h ar vs None))
           (λ _ w', get_arr this w' = Ok (AP.Build p 0) w')).
    { intros ([] & w' & ? & ?)%post_Ok. eauto. }
    place_of this Ha; run; holds.
  - by exists w1, b, AP.init.
  - by exists w2, b, (AP.Build pa ca).
  - by exists w2, b, (AP.Build pa ca).
  - cut (post (ArrayPtr.Release this (mkWorld h ar vs None))
           (λ r w', r = pa ∧ ∃ a', get_arr this w' = Ok a' w' ∧ AP.raw_ptr_ a' = Null)).
    { intros (r & w' & ? & -> & a' & ? & ?)%post_Ok. eauto. }
    place_of this Ha;
      run; (split; [done|]); exists (AP.Build Null ca); (split; [holds|done]).
  - apply Hpost.
    place_of this Ha;
      (destruct Hpa as [->|(bk & blk & -> & Hblk)];
       run; exists (AP.Build Null ca); (split; [holds|done])).
Qed.

End ArrayPtr_properties.

(** ** [SimpleVector]: assignment and construction *)

Section SimpleVector_properties.
Context {T : Type} `{!Elem T}.
Implicit Types (w : World T) (h : gmap positive (list T)) (blk xs : list T).

(** C9.  Move assignment between vectors whose buffers are the same pointer,
    as in [a = std::move(a)], does nothing: the machine state is unchanged,
    so size, capacity and all elements are. *)
Theorem move_assign_same_buffer_noop w (this rhs : positive) v r :
  vecs w !! this = Some v → vecs w !! rhs = Some r →
  AP.raw_ptr_ (SV.items_ v) = AP.raw_ptr_ (SV.items_ r) →
  SimpleVector.move_assign this rhs w = Ok tt w.
Proof.
  destruct w as [h a vs f]. cbn [vecs]. intros Hv Hr Heq.
  apply post_eq. unfold SimpleVector.move_assign. by run.
Qed.

(** C8.  Copy assignment from another, empty vector is [Clear()]: the size
    becomes 0, and the buffer and the capacity stay what they were. *)
Theorem copy_assign_from_empty_is_Clear w (this rhs : positive) v r :
  rhs ≠ this → vecs w !! this = Some v → vecs w !! rhs = Some r → SV.size_ r = 0 →
  ∃ w', SimpleVector.copy_assign this rhs w = Ok tt w' ∧
        SimpleVector.Clear this w = Ok tt w' ∧
        vecs w' !! this = Some (SV.Build (SV.items_ v) 0 (SV.capacity_ v)) ∧
        heap w' = heap w.
Proof.
  destruct w as [h a vs f]. cbn [vecs]. intros Hne Hv Hr Hs.
  exists (mkWorld h a (<[this := SV.with_size v 0]> vs) f).
  split_and!.
  - apply post_eq. unfold SimpleVector.copy_assign. by run.
  - apply post_eq. by run.
  - cbn. by rewrite lookup_insert_eq.
  - done.
Qed.

(** C10.  The copy constructor builds a vector with the size and the
    elements of the source and with capacity equal to the source's size,
    whatever the source's capacity; the source is unchanged. *)
Theorem copy_ctor_capacity_is_size w (other : positive) s c xs :
  fault w = None → valid w other → observe w other = Some (s, c, xs) →
  ∃ this w',
    SimpleVector.declare (λ o, SimpleVector.ctor_copy o other) w = Ok this w' ∧
    this ≠ other ∧
    observe w' this = Some (s, s, xs) ∧
    observe w' other = Some (s, c, xs).
Proof.
  destruct w as [h a vs f]. cbn [fault]. intros -> Hvalid Hobs.
  apply post_Ok.
  destruct (valid_observe _ _ _ _ _ _ _ _ Hvalid Hobs)
    as [Hsc [(c' & Hv & -> & -> & ->)|(c' & b & blk & Hv & Hb & Hlen & ->)]].
  - exec. split; [neq|split]; eapply observe_Null; lookup.
  - destruct (decide (s = 0)) as [->|Hs].
    + exec. split; [neq|split].
      * rewrite take_0. eapply observe_Null. lookup.
      * eapply observe_Ptr; [lookup|lookup|lia].
    + exec.
      rewrite (run_copy_between _ _ _ b (fresh (dom h)) blk (replicate s dflt) 0 0 s);
        [|neq|lookup|lookup|lia|rewrite length_replicate; lia].
      exec. split; [neq|split].
      * erewrite observe_Ptr; [|lookup|lookup|].
        -- rewrite take_0, drop_0, drop_replicate, Nat.sub_diag. cbn.
           rewrite (right_id_L [] (++)). by rewrite take_take, Nat.min_id.
        -- rewrite take_0, drop_0, drop_replicate, Nat.sub_diag. cbn.
           rewrite (right_id_L [] (++)). rewrite length_take. lia.
      * eapply observe_Ptr; [lookup|lookup|lia].
Qed.

(** The move constructor takes over the buffer, the size and the capacity
    of the source and leaves the source with no buffer and size 0. *)
Lemma move_ctor_takes_buffer w (other : positive) s c xs p :
  observe w other = Some (s, c, xs) → buffer w other = Some p →
  ∃ this w',
    SimpleVector.declare (λ o, SimpleVector.ctor_move o other) w = Ok this w' ∧
    this ≠ other ∧
    observe w' this = Some (s, c, xs) ∧ buffer w' this = Some p ∧
    observe w' other = Some (0, c, []) ∧ buffer w' other = Some Null.
Proof.
  destruct w as [h a vs f]. intros (q & c' & Hv & Hel)%observe_inv Hbuf.
  cbn [vecs] in Hv. rewrite (buffer_eq _ _ _ _ _ _ _ _ _ Hv) in Hbuf. simplify_eq.
  apply post_Ok. exec.
  assert (fresh (dom vs) ≠ other) as Hne by neq.
  split; [done|].
  split_and!; [|eapply buffer_eq; lookup|eapply observe_Null; lookup
              |eapply buffer_eq; lookup].
  unfold observe, elements in *. cbn [vecs heap] in *.
  rewrite lookup_insert_ne by done. rewrite lookup_insert_eq.
  rewrite Hv in Hel. cbn in *. by rewrite Hel.
Qed.

(** *** [Insert] *)

(** The argument refers to an object of another block. *)
Lemma Insert_in_place (by_move : bool) h a vs (this : positive) b c' s c blk k
    rb ro rblk value :
  vs !! this = Some (SV.Build (AP.Build (Ptr b 0) c') s c) →
  h !! b = Some blk → c ≤ length blk → s < c → k ≤ s →
  rb ≠ b → h !! rb = Some rblk → rblk !! ro = Some value →
  post ((if by_move then SimpleVector.Insert_move else SimpleVector.Insert_copy)
          this (Ptr b k) (Ptr rb ro) (mkWorld h a vs None))
       (Insert_post this s k (take s blk) value).
Proof.
  intros Hv Hb Hlen Hsc Hk Hrb Hr Hx.
  destruct (run_shift_right (negb by_move) h a vs b blk k s) as (blk' & Hrun & Hl & Hins);
    [done|done|lia|].
  destruct by_move; cbn [negb] in Hrun;
    unfold SimpleVector.Insert_move, SimpleVector.Insert_copy; run.
  - rewrite Hrun. run.
    rewrite (run_move_elem_at _ _ _ b k blk' rb ro rblk value);
      [|done|lookup|done|lookup|lia].
    run.
    exists c, (Ptr b 0). rewrite Hins. split_and!.
    + erewrite observe_Ptr; [|lookup|lookup|rewrite length_inserted by lia; lia].
      by rewrite take_inserted by lia.
    + eapply buffer_eq. lookup.
    + done.
    + eapply valid_Ptr; [lookup|lookup|lia|rewrite length_inserted, length_drop by lia; lia].
  - rewrite Hrun. run.
    rewrite (run_copy_elem_at _ _ _ b k blk' rb ro rblk value);
      [|lookup|done|lookup|lia].
    run.
    exists c, (Ptr b 0). rewrite Hins. split_and!.
    + erewrite observe_Ptr; [|lookup|lookup|rewrite length_inserted by lia; lia].
      by rewrite take_inserted by lia.
    + eapply buffer_eq. lookup.
    + done.
    + eapply valid_Ptr; [lookup|lookup|lia|rewrite length_inserted, length_drop by lia; lia].
Qed.

(** The argument refers to a slot of the buffer itself: [Insert(pos, const
    Type&)] within the capacity reads it once the tail has been shifted, and
    inserts what the slot holds by then. *)
Lemma Insert_copy_in_place_own h a vs (this : positive) b c' s c blk k ro value :
  vs !! this = Some (SV.Build (AP.Build (Ptr b 0) c') s c) →
  h !! b = Some blk → c ≤ length blk → s < c → k ≤ s →
  blk !! ro = Some value →
  ∃ value',
    post (SimpleVector.Insert_copy this (Ptr b k) (Ptr b ro) (mkWorld h a vs None))
         (Insert_post this s k (take s blk) value').
Proof.
  intros Hv Hb Hlen Hsc Hk Hx.
  destruct (run_shift_right true h a vs b blk k s) as (blk' & Hrun & Hl & Hins);
    [done|done|lia|].
  destruct (lookup_lt_is_Some_2 blk' ro) as [value' Hx'].
  { rewrite Hl. by eapply lookup_lt_Some. }
  exists value'. unfold SimpleVector.Insert_copy. run.
  rewrite Hrun. run.
  rewrite (run_copy_elem_at _ _ _ b k blk' b ro blk' value');
    [|lookup|done|lookup|lia].
  run.
  exists c, (Ptr b 0). rewrite Hins. split_and!.
  - erewrite observe_Ptr; [|lookup|lookup|rewrite length_inserted by lia; lia].
    by rewrite take_inserted by lia.
  - eapply buffer_eq. lookup.
  - done.
  - eapply valid_Ptr; [lookup|lookup|lia|rewrite length_inserted, length_drop by lia; lia].
Qed.

(** On a full vector [Insert(pos, const Type&)] reads its argument while
    the old block is as it was, so the argument may be any object. *)
Lemma Insert_copy_realloc h a vs (this : positive) b c' s blk k rb ro rblk value :
  vs !! this = Some (SV.Build (AP.Build (Ptr b 0) c') s s) →
  h !! b = Some blk → s ≤ length blk → k ≤ s →
  h !! rb = Some rblk → rblk !! ro = Some value →
  post (SimpleVector.Insert_copy this (Ptr b k) (Ptr rb ro) (mkWorld h a vs None))
       (Insert_post this s k (take s blk) value).
Proof.
  intros Hv Hb Hlen Hk Hr Hx.
  unfold SimpleVector.Insert_copy. exec.
  set (nc := (s * 2) `max` (s + 1)). set (nb := fresh (dom h)).
  assert (nb ≠ b) as Hnb by (unfold nb; neq).
  assert (nb ≠ rb) as Hnr by (unfold nb; neq).
  assert (s < nc) as Hnc by lia.
  rewrite (run_copy_between _ _ _ b nb blk (replicate nc dflt) 0 0 k);
    [|neq|lookup|lookup|lia|rewrite length_replicate; lia].
  exec.
  erewrite (run_copy_elem_at _ _ _ nb k _ rb ro rblk value); [|lookup|done|lookup|].
  2:{ rewrite take_0, drop_0. cbn [app]. rewrite length_app, length_take, length_drop,
        length_replicate. lia. }
  exec.
  erewrite (run_copy_between _ _ _ b nb blk _ k (k + 1) (s - k)); [|neq|lookup|lookup|lia|].
  2:{ rewrite length_insert, take_0, drop_0. cbn [app].
      rewrite length_app, length_take, length_drop, length_replicate. lia. }
  exec.
  exists nc, (Ptr nb 0). rewrite realloc_block by done. split_and!.
  - erewrite observe_Ptr; [|lookup|lookup|rewrite length_inserted by lia; lia].
    by rewrite take_inserted by lia.
  - eapply buffer_eq. lookup.
  - done.
  - eapply valid_Ptr; [lookup|lookup|lia|].
    rewrite length_inserted, length_replicate by lia. lia.
Qed.

Lemma Insert_copy_null h a vs (this : positive) c' rb ro rblk value :
  vs !! this = Some (SV.Build (AP.Build Null c') 0 0) →
  h !! rb = Some rblk → rblk !! ro = Some value →
  post (SimpleVector.Insert_copy this Null (Ptr rb ro) (mkWorld h a vs None))
       (Insert_post this 0 0 [] value).
Proof.
  intros Hv Hr Hx. unfold SimpleVector.Insert_copy. exec.
  assert (fresh (dom h) ≠ rb) as Hnr by neq.
  erewrite (run_copy_elem_at _ _ _ (fresh (dom h)) 0 _ rb ro rblk value);
    [|lookup|done|lookup|rewrite length_replicate; lia].
  exec.
  exists ((0 * 2) `max` (0 + 1)), (Ptr (fresh (dom h)) 0). split_and!.
  - erewrite observe_Ptr; [|lookup|lookup|]; [reflexivity|].
    rewrite length_insert, length_replicate. lia.
  - eapply buffer_eq. lookup.
  - done.
  - eapply valid_Ptr; [lookup|lookup|lia|].
    rewrite length_insert, length_replicate. lia.
Qed.

Lemma Insert_move_empty h a vs (this : positive) p c' rb ro rblk value :
  vs !! this = Some (SV.Build (AP.Build p c') 0 0) →
  p = Null ∨ (∃ b blk, p = Ptr b 0 ∧ h !! b = Some blk ∧ rb ≠ b) →
  h !! rb = Some rblk → rblk !! ro = Some value →
  post (SimpleVector.Insert_move this p (Ptr rb ro) (mkWorld h a vs None))
       (Insert_post this 0 0 [] value).
Proof.
  intros Hv Hp Hr Hx. unfold SimpleVector.Insert_move.
  assert (fresh (dom h) ≠ rb) as Hnr by neq.
  assert (rb ≠ fresh (dom h)) as Hrn by done.
  destruct Hp as [->|(b & blk & -> & Hb & Hrb)]; exec.
  - erewrite (run_move_elem_at _ _ _ (fresh (dom h)) 0 _ rb ro rblk value);
      [|done|lookup|done|lookup|rewrite length_replicate; lia].
    exec.
    exists 1, (Ptr (fresh (dom h)) 0). split_and!.
    + erewrite observe_Ptr; [|lookup|lookup|]; [reflexivity|].
      rewrite length_insert, length_replicate. lia.
    + eapply buffer_eq. lookup.
    + done.
    + eapply valid_Ptr; [lookup|lookup|lia|].
      rewrite length_insert, length_replicate. lia.
  - erewrite (run_move_elem_at _ _ _ (fresh (dom h)) 0 _ rb ro rblk value);
      [|done|lookup|done|lookup|rewrite length_replicate; lia].
    exec.
    exists 1, (Ptr (fresh (dom h)) 0). split_and!.
    + erewrite observe_Ptr; [|lookup|lookup|]; [reflexivity|].
      rewrite length_insert, length_replicate. lia.
    + eapply buffer_eq. lookup.
    + done.
    + eapply valid_Ptr; [lookup|lookup|lia|].
      rewrite length_insert, length_replicate. lia.
Qed.

Lemma Insert_move_realloc h a vs (this : positive) b c' s blk k rb ro rblk value :
  vs !! this = Some (SV.Build (AP.Build (Ptr b 0) c') s s) →
  h !! b = Some blk → s ≤ length blk → s ≠ 0 → k ≤ s →
  rb ≠ b → h !! rb = Some rblk → rblk !! ro = Some value →
  post (SimpleVector.Insert_move this (Ptr b k) (Ptr rb ro) (mkWorld h a vs None))
       (Insert_post this s k (take s blk) value).
Proof.
  intros Hv Hb Hlen Hs Hk Hrb Hr Hx.
  unfold SimpleVector.Insert_move. exec.
  set (nc := s * 2). set (nb := fresh (dom h)).
  assert (nb ≠ b) as Hnb by (unfold nb; neq).
  assert (b ≠ nb) as Hbn by done.
  assert (nb ≠ rb) as Hnr by (unfold nb; neq).
  assert (rb ≠ nb) as Hrn by done.
  assert (s < nc) as Hnc by lia.
  rewrite (run_move_between _ _ _ b nb blk (replicate nc dflt) 0 0 k);
    [|neq|lookup|lookup|lia|rewrite length_replicate; lia].
  exec.
  erewrite (run_move_elem_at _ _ _ nb k _ rb ro rblk value); [|done|lookup|done|lookup|].
  2:{ rewrite take_0, drop_0. cbn [app]. rewrite length_app, length_take, length_drop,
        length_replicate. lia. }
  exec.
  erewrite (run_move_between _ _ _ b nb _ _ k (k + 1) (s - k)); [|neq|lookup|lookup| |].
  2:{ rewrite length_moved_prefix by lia. lia. }
  2:{ rewrite length_insert, take_0, drop_0. cbn [app].
      rewrite length_app, length_take, length_drop, length_replicate. lia. }
  exec.
  exists nc, (Ptr nb 0). rewrite realloc_block by done.
  rewrite drop_moved_prefix by lia. split_and!.
  - erewrite observe_Ptr; [|lookup|lookup|rewrite length_inserted by lia; lia].
    by rewrite take_inserted by lia.
  - eapply buffer_eq. lookup.
  - done.
  - eapply valid_Ptr; [lookup|lookup|lia|].
    rewrite length_inserted, length_replicate by lia. lia.
Qed.

(** The argument of a call, seen from the buffer of the vector. *)
Lemma outside_Ptr h a vs f (this : positive) b c' s c rb ro :
  vs !! this = Some (SV.Build (AP.Build (Ptr b 0) c') s c) →
  outside (mkWorld h a vs f) this (Ptr rb ro) → rb ≠ b.
Proof.
  intros Hv Hout ->. eapply (Hout b ro 0); [done|]. eapply buffer_eq. exact Hv.
Qed.

(** [Insert] on a valid vector, whichever branch it takes, of an object
    outside the buffer. *)
Lemma Insert_establishes (by_move : bool) h a vs (this : positive) s c xs p k r value :
  valid (mkWorld h a vs None) this →
  observe (mkWorld h a vs None) this = Some (s, c, xs) →
  buffer (mkWorld h a vs None) this = Some p → k ≤ s →
  load r (mkWorld h a vs None) = Ok value (mkWorld h a vs None) →
  outside (mkWorld h a vs None) this r →
  post ((if by_move then SimpleVector.Insert_move else SimpleVector.Insert_copy)
          this (p +ₚ k) r (mkWorld h a vs None))
       (Insert_post this s k xs value).
Proof.
  intros Hvalid Hobs Hbuf Hk (rb & ro & rblk & -> & Hr & Hx)%load_inv Hout.
  destruct (valid_observe _ _ _ _ _ _ _ _ Hvalid Hobs)
    as [Hsc [(c' & Hv & -> & -> & ->)|(c' & b & blk & Hv & Hb & Hlen & ->)]].
  - rewrite (buffer_eq _ _ _ _ _ _ _ _ _ Hv) in Hbuf. simplify_eq.
    assert (k = 0) as -> by lia. cbn [padd].
    destruct by_move.
    + eapply Insert_move_empty; [done|by left|done..].
    + by eapply Insert_copy_null.
  - rewrite (buffer_eq _ _ _ _ _ _ _ _ _ Hv) in Hbuf. simplify_eq. cbn [padd Nat.add].
    assert (rb ≠ b) as Hrb by (by eapply outside_Ptr).
    destruct (decide (s < c)) as [Hlt|Hge].
    + by eapply Insert_in_place.
    + assert (c = s) as -> by lia. destruct by_move.
      * destruct (decide (s = 0)) as [->|Hs].
        -- assert (k = 0) as -> by lia. rewrite take_0.
           eapply Insert_move_empty; [done|right; eauto|done..].
        -- by eapply Insert_move_realloc.
      * by eapply Insert_copy_realloc.
Qed.

(** [Insert(pos, const Type&)] of any object that can be read: an element
    is inserted at [pos], which is the argument's value unless the argument
    is a slot of the buffer and the vector has room. *)
Lemma Insert_copy_establishes h a vs (this : positive) s c xs p k r value :
  valid (mkWorld h a vs None) this →
  observe (mkWorld h a vs None) this = Some (s, c, xs) →
  buffer (mkWorld h a vs None) this = Some p → k ≤ s →
  load r (mkWorld h a vs None) = Ok value (mkWorld h a vs None) →
  ∃ value',
    post (SimpleVector.Insert_copy this (p +ₚ k) r (mkWorld h a vs None))
         (Insert_post this s k xs value').
Proof.
  intros Hvalid Hobs Hbuf Hk (rb & ro & rblk & -> & Hr & Hx)%load_inv.
  destruct (valid_observe _ _ _ _ _ _ _ _ Hvalid Hobs)
    as [Hsc [(c' & Hv & -> & -> & ->)|(c' & b & blk & Hv & Hb & Hlen & ->)]].
  - rewrite (buffer_eq _ _ _ _ _ _ _ _ _ Hv) in Hbuf. simplify_eq.
    assert (k = 0) as -> by lia. cbn [padd].
    exists value. by eapply Insert_copy_null.
  - rewrite (buffer_eq _ _ _ _ _ _ _ _ _ Hv) in Hbuf. simplify_eq. cbn [padd Nat.add].
    destruct (decide (s < c)) as [Hlt|Hge].
    + destruct (decide (rb = b)) as [->|Hrb].
      * simplify_eq. by eapply Insert_copy_in_place_own.
      * exists value. by eapply (Insert_in_place false).
    + assert (c = s) as -> by lia. exists value. by eapply Insert_copy_realloc.
Qed.

(** *** [Resize] *)

(** Below the current size, [Resize] only lowers [size_]: same buffer, same
    capacity, the first [n] elements. *)
Lemma Resize_shrinks_in_place w (this : positive) s c xs p n :
  observe w this = Some (s, c, xs) → buffer w this = Some p → n < s →
  ∃ w', SimpleVector.Resize this n w = Ok tt w' ∧
        observe w' this = Some (n, c, take n xs) ∧
        buffer w' this = Some p ∧ heap w' = heap w.
Proof.
  destruct w as [h a vs f]. intros (q & c' & Hv & Hel)%observe_inv Hbuf Hn.
  cbn [vecs] in Hv. rewrite (buffer_eq _ _ _ _ _ _ _ _ _ Hv) in Hbuf. simplify_eq.
  exists (mkWorld h a (<[this := SV.Build (AP.Build p c') n c]> vs) f).
  split_and!.
  - apply post_eq. unfold SimpleVector.Resize. by run.
  - unfold observe, elements in *. cbn [vecs heap] in *.
    rewrite lookup_insert_eq. rewrite Hv in Hel. cbn in *.
    destruct p as [|b off]; cbn in *.
    + case_decide; simplify_eq. lia.
    + destruct (h !! b) as [blk|]; [|done]. cbn in *.
      case_decide; [|done]. simplify_eq. rewrite decide_True by lia. cbn.
      by rewrite take_take, Nat.min_l by lia.
  - eapply buffer_eq. lookup.
  - done.
Qed.

(** The growth branch, which [new_size == size_] takes as well. *)
Lemma Resize_reallocates w (this : positive) s c xs n :
  fault w = None → valid w this → observe w this = Some (s, c, xs) → s ≤ n →
  ∃ w', SimpleVector.Resize this n w = Ok tt w' ∧
        observe w' this = Some (n, n, xs ++ replicate (n - s) dflt) ∧
        valid w' this ∧
        (0 < n → buffer w' this = Some (Ptr (fresh (dom (heap w))) 0)) ∧
        (n = 0 → buffer w' this = Some Null).
Proof.
  destruct w as [h a vs f]. cbn [fault heap]. intros -> Hvalid Hobs Hn.
  cut (post (SimpleVector.Resize this n (mkWorld h a vs None)) (λ _ w',
         observe w' this = Some (n, n, xs ++ replicate (n - s) dflt) ∧
         valid w' this ∧
         (0 < n → buffer w' this = Some (Ptr (fresh (dom h)) 0)) ∧
         (n = 0 → buffer w' this = Some Null))).
  { intros ([] & w' & ? & ?)%post_Ok. eauto. }
  assert (∀ m (R : list T), m = n →
    length (take 0 (replicate n dflt) ++ replicate m dflt ++ R) = n + length R) as Hfill.
  { intros m R ->. rewrite take_0. cbn [app]. rewrite length_app, length_replicate. lia. }
  destruct (valid_observe _ _ _ _ _ _ _ _ Hvalid Hobs)
    as [Hsc [(c' & Hv & -> & -> & ->)|(c' & b & blk & Hv & Hb & Hlen & ->)]];
    unfold SimpleVector.Resize.
  - destruct (decide (n = 0)) as [->|Hn0].
    + exec. split_and!; [eapply observe_Null; lookup|eapply valid_Null; lookup|lia|].
      intros _. eapply buffer_eq. lookup.
    + exec.
      rewrite (run_generate_at _ _ _ (fresh (dom h)) (replicate n dflt) 0 n);
        [|lookup|rewrite length_replicate; lia].
      exec. split_and!.
      * erewrite observe_Ptr; [|lookup|lookup|rewrite Hfill by done; lia].
        rewrite take_0, Nat.sub_0_r, drop_replicate, Nat.sub_diag. cbn [app replicate].
        by rewrite (right_id_L [] (++)), take_replicate, Nat.min_id.
      * eapply valid_Ptr; [lookup|lookup|lia|rewrite Hfill by done; lia].
      * intros _. eapply buffer_eq. lookup.
      * lia.
  - destruct (decide (n = 0)) as [->|Hn0]; [|destruct (decide (s = 0)) as [->|Hs0]].
    + assert (s = 0) as -> by lia. exec.
      split_and!; [rewrite take_0; eapply observe_Null; lookup|eapply valid_Null; lookup|lia|].
      intros _. eapply buffer_eq. lookup.
    + exec.
      rewrite (run_generate_at _ _ _ (fresh (dom h)) (replicate n dflt) 0 n);
        [|lookup|rewrite length_replicate; lia].
      exec. split_and!.
      * erewrite observe_Ptr; [|lookup|lookup|rewrite Hfill by done; lia].
        rewrite !take_0, Nat.sub_0_r, drop_replicate, Nat.sub_diag. cbn [app replicate].
        by rewrite (right_id_L [] (++)), take_replicate, Nat.min_id.
      * eapply valid_Ptr; [lookup|lookup|lia|rewrite Hfill by done; lia].
      * intros _. eapply buffer_eq. lookup.
      * lia.
    + assert (fresh (dom h) ≠ b) as Hnb by neq.
      assert (b ≠ fresh (dom h)) as Hbn by done.
      exec.
      rewrite (run_move_between _ _ _ b (fresh (dom h)) blk (replicate n dflt) 0 0 s);
        [|neq|lookup|lookup|lia|rewrite length_replicate; lia].
      exec.
      erewrite (run_generate_at _ _ _ (fresh (dom h)) _ s (n - s)); [|lookup|].
      2:{ rewrite take_0, drop_0. cbn [app].
          rewrite length_app, length_take, length_drop, length_replicate. lia. }
      exec. replace (s + (n - s)) with n by lia. rewrite grown_block by lia.
      split_and!.
      * erewrite observe_Ptr; [|lookup|lookup|].
        -- rewrite take_ge; [done|]. rewrite length_app, length_take, length_replicate. lia.
        -- rewrite length_app, length_take, length_replicate. lia.
      * eapply valid_Ptr; [lookup|lookup|lia|].
        rewrite length_app, length_take, length_replicate. lia.
      * intros _. eapply buffer_eq. lookup.
      * lia.
Qed.

End SimpleVector_properties.

(** ** Exceptions: what a failed operation leaves behind *)

(** The fallible steps, whatever the number of them that still succeed. *)
Section faults.
Context {T : Type} `{!Elem T}.
Implicit Types (w : World T) (h : gmap positive (list T)) (a : gmap positive AP.t)
  (v : gmap positive SV.t) (f : option nat) (blk src dst : list T).

Lemma wp_fallible h a v f (Q : unit → World T → Prop) E :
  E (mkWorld h a v f) → (∀ f', Q tt (mkWorld h a v f')) →
  wp (fallible (mkWorld h a v f)) Q E.
Proof.
  intros HE HQ. unfold fallible. cbn [fault].
  destruct f as [[|k]|]; cbn [wp]; [done|apply HQ..].
Qed.

Lemma wp_times n h a v f (Q : unit → World T → Prop) E :
  (∀ f', E (mkWorld h a v f')) → (∀ f', Q tt (mkWorld h a v f')) →
  wp (times n fallible (mkWorld h a v f)) Q E.
Proof.
  intros HE HQ. revert f. induction n as [|n IH]; intros f; [apply HQ|].
  cbn [times]. apply wp_bind, wp_fallible; [apply HE|]. intros f'. apply IH.
Qed.

Lemma wp_new_array n h a v f (Q : pointer → World T → Prop) E :
  (∀ f', E (mkWorld h a v f')) →
  (∀ f', Q (Ptr (fresh (dom h)) 0)
           (mkWorld (<[fresh (dom h) := replicate n dflt]> h) a v f')) →
  wp (new_array n (mkWorld h a v f)) Q E.
Proof.
  intros HE HQ. unfold new_array.
  apply wp_bind, wp_fallible; [apply HE|]. intros f1.
  apply wp_bind, wp_times; [apply HE|]. intros f2. apply HQ.
Qed.

Lemma wp_assign h a v f b off blk x (Q : unit → World T → Prop) E :
  h !! b = Some blk → off < length blk →
  E (mkWorld h a v f) →
  (∀ f', Q tt (mkWorld (<[b := <[off := x]> blk]> h) a v f')) →
  wp (assign (Ptr b off) x (mkWorld h a v f)) Q E.
Proof.
  intros Hb Hoff HE HQ. unfold assign.
  apply wp_bind, wp_fallible; [done|]. intros f'.
  rewrite (run_store _ b off blk) by done. apply HQ.
Qed.

(** A range copied into another block throws or completes; either way only
    the destination block has changed, and it has kept its length. *)
Lemma wp_forward_copy n : ∀ h a v f bs bd src dst i j (Q : unit → World T → Prop) E,
  bs ≠ bd → h !! bs = Some src → h !! bd = Some dst →
  i + n ≤ length src → j + n ≤ length dst →
  (∀ f' dst', length dst' = length dst → E (mkWorld (<[bd := dst']> h) a v f')) →
  (∀ f' dst', length dst' = length dst → Q tt (mkWorld (<[bd := dst']> h) a v f')) →
  wp (forward copy_elem n (Ptr bs i) (Ptr bd j) (mkWorld h a v f)) Q E.
Proof.
  induction n as [|n IH]; intros h a v f bs bd src dst i j Q E Hne Hs Hd Hi Hj HE HQ.
  - cbn [forward]. rewrite <- (insert_id h bd dst) by done. by apply HQ.
  - cbn [forward padd]. apply wp_bind. unfold copy_elem.
    destruct (lookup_lt_is_Some_2 src i) as [x Hx]; [lia|].
    apply wp_bind. rewrite (run_load _ bs i src x) by done. cbn [wp].
    apply (wp_assign _ _ _ _ bd j dst); [done|lia| |].
    + rewrite <- (insert_id h bd dst) by done. by apply HE.
    + intros f'. apply (IH _ _ _ _ bs bd src (<[j := x]> dst)).
      * done.
      * by rewrite lookup_insert_ne.
      * by rewrite lookup_insert_eq.
      * lia.
      * rewrite length_insert. lia.
      * intros f'' dst' Hl. rewrite insert_insert_eq. apply HE.
        by rewrite Hl, length_insert.
      * intros f'' dst' Hl. rewrite insert_insert_eq. apply HQ.
        by rewrite Hl, length_insert.
Qed.

Lemma wp_generate_loop n : ∀ h a v f b blk i (Q : unit → World T → Prop) E,
  h !! b = Some blk → i + n ≤ length blk →
  (∀ f' blk', length blk' = length blk → E (mkWorld (<[b := blk']> h) a v f')) →
  (∀ f' blk', length blk' = length blk → Q tt (mkWorld (<[b := blk']> h) a v f')) →
  wp (generate_loop n (Ptr b i) (mkWorld h a v f)) Q E.
Proof.
  induction n as [|n IH]; intros h a v f b blk i Q E Hb Hi HE HQ.
  - cbn [generate_loop]. rewrite <- (insert_id h b blk) by done. by apply HQ.
  - cbn [generate_loop padd]. apply wp_bind. unfold construct.
    apply wp_bind, wp_fallible.
    { rewrite <- (insert_id h b blk) by done. by apply HE. }
    intros f1. rewrite run_ret. cbn [wp]. apply wp_bind.
    apply (wp_assign _ _ _ _ b i blk); [done|lia| |].
    + rewrite <- (insert_id h b blk) by done. by apply HE.
    + intros f2. apply (IH _ _ _ _ b (<[i := dflt]> blk)).
      * by rewrite lookup_insert_eq.
      * rewrite length_insert. lia.
      * intros f'' blk' Hl. rewrite insert_insert_eq. apply HE.
        by rewrite Hl, length_insert.
      * intros f'' blk' Hl. rewrite insert_insert_eq. apply HQ.
        by rewrite Hl, length_insert.
Qed.

(** [*d = std::move( *s )] into another block: it throws and leaves the
    blocks as they were, or it completes and the source is moved-from. *)
Lemma wp_move_elem h a v f bd j dst bs i src x (Q : unit → World T → Prop) E :
  bs ≠ bd →
  h !! bs = Some src → src !! i = Some x → h !! bd = Some dst → j < length dst →
  E (mkWorld h a v f) →
  (∀ f', Q tt (mkWorld (<[bs := <[i := moved x]> src]> (<[bd := <[j := x]> dst]> h)) a v f')) →
  wp (move_elem (Ptr bd j) (Ptr bs i) (mkWorld h a v f)) Q E.
Proof.
  intros Hne Hs Hx Hd Hj HE HQ. unfold move_elem.
  apply wp_bind. rewrite (run_load _ bs i src x) by done. cbn [wp].
  apply wp_bind, wp_fallible; [done|]. intros f'.
  apply wp_bind. rewrite (run_store _ bd j dst) by done. cbn [wp heap set_heap].
  erewrite run_store; [apply HQ| |by eapply lookup_lt_Some].
  cbn [heap set_heap]. by rewrite lookup_insert_ne.
Qed.

(** The block [src] once the [m] elements from slot [i] have been moved. *)
Lemma moved_step src i m x :
  src !! i = Some x →
  take (i + 1) (<[i := moved x]> src) ++
    (moved <$> take m (drop (i + 1) (<[i := moved x]> src))) ++
    drop (i + 1 + m) (<[i := moved x]> src) =
  take i src ++ (moved <$> take (S m) (drop i src)) ++ drop (i + S m) src.
Proof.
  intros Hx. assert (i < length src) as Hi by (by eapply lookup_lt_Some).
  rewrite !Nat.add_1_r. rewrite !drop_insert_lt by lia.
  rewrite (take_S_r _ _ _ (list_lookup_insert_eq src i (moved x) Hi)).
  rewrite take_insert_ge by lia.
  rewrite (drop_S src x i Hx). cbn [take fmap list_fmap].
  rewrite <- !(assoc_L (++)). cbn [app].
  by replace (S i + m) with (i + S m) by lia.
Qed.

(** A range moved into another block throws or completes.  The destination
    has kept its length; of the source, the elements moved so far are
    moved-from and the others are as they were. *)
Lemma wp_forward_move n : ∀ h a v f bs bd src dst i j (Q : unit → World T → Prop) E,
  bs ≠ bd → h !! bs = Some src → h !! bd = Some dst →
  i + n ≤ length src → j + n ≤ length dst →
  (∀ f' m dst', m ≤ n → length dst' = length dst →
     E (mkWorld
          (<[bs := take i src ++ (moved <$> take m (drop i src)) ++ drop (i + m) src]>
             (<[bd := dst']> h)) a v f')) →
  (∀ f' dst', length dst' = length dst →
     Q tt (mkWorld
             (<[bs := take i src ++ (moved <$> take n (drop i src)) ++ drop (i + n) src]>
                (<[bd := dst']> h)) a v f')) →
  wp (forward move_elem n (Ptr bs i) (Ptr bd j) (mkWorld h a v f)) Q E.
Proof.
  assert (∀ h bs bd src dst i, h !! bs = Some src → h !! bd = Some dst →
    <[bs := take i src ++ (moved <$> take 0 (drop i src)) ++ drop (i + 0) src]>
      (<[bd := dst]> h) = h) as Hnone.
  { intros h bs bd src dst i Hs Hd.
    rewrite take_0, Nat.add_0_r. cbn [fmap list_fmap app]. rewrite take_drop.
    rewrite (insert_id h bd dst) by done. by apply insert_id. }
  induction n as [|n IH]; intros h a v f bs bd src dst i j Q E Hne Hs Hd Hi Hj HE HQ.
  - cbn [forward]. rewrite run_ret. cbn [wp].
    rewrite <- (Hnone h bs bd src dst i) at 1 by done. by apply HQ.
  - cbn [forward padd]. apply wp_bind.
    destruct (lookup_lt_is_Some_2 src i) as [x Hx]; [lia|].
    apply (wp_move_elem _ _ _ _ bd j dst bs i src x); [done|done|done|done|lia| |].
    + rewrite <- (Hnone h bs bd src dst i) by done. apply HE; [lia|done].
    + intros f'.
      apply (IH _ _ _ _ bs bd (<[i := moved x]> src) (<[j := x]> dst)).
      * done.
      * by rewrite lookup_insert_eq.
      * by rewrite lookup_insert_ne, lookup_insert_eq.
      * rewrite length_insert. lia.
      * rewrite length_insert. lia.
      * intros f'' m dst' Hm Hl. rewrite moved_step by done.
        rewrite (insert_insert_ne _ bd bs) by done. rewrite !insert_insert_eq.
        apply HE; [lia|]. by rewrite Hl, length_insert.
      * intros f'' dst' Hl. rewrite moved_step by done.
        rewrite (insert_insert_ne _ bd bs) by done. rewrite !insert_insert_eq.
        apply HQ. by rewrite Hl, length_insert.
Qed.








End faults.

(** Symbolic execution through the steps that may throw. *)
Ltac xstep :=
  first
    [ exec_step
    | lazymatch goal with
      | |- wp (new_array _ _) _ _ => apply wp_new_array; intros ?f
      | |- wp (fallible _) _ _ => apply wp_fallible; [|intros ?f]
      | |- wp (SimpleVector.ReallocateCopy _ _ _ _) _ _ =>
          unfold SimpleVector.ReallocateCopy at 1
      | |- wp (SimpleVector.ctor_size _ _ _) _ _ => unfold SimpleVector.ctor_size at 1
      end ].

Ltac xrun := repeat xstep; lazy beta; fields.




Section guarantee.
Context {T : Type} `{!Elem T}.
Implicit Types (w : World T) (h : gmap positive (list T)) (blk xs : list T).
















End guarantee.

(** ** The rest of the interface *)

(** *** The loops of [std::fill], of the initializer list and of [Erase] *)

Section more_loops.
Context {T : Type} `{!Elem T}.
Implicit Types (w : World T) (h : gmap positive (list T)) (blk xs : list T).

Lemma run_fill_loop value n : ∀ h a vs b blk i,
  h !! b = Some blk → i + n ≤ length blk →
  fill_loop n (Ptr b i) value (mkWorld h a vs None) =
    Ok tt (mkWorld (<[b := take i blk ++ replicate n value ++ drop (i + n) blk]> h) a vs None).
Proof.
  induction n as [|n IH]; intros h a vs b blk i Hb Hlen.
  - cbn [fill_loop replicate app]. rewrite Nat.add_0_r, take_drop.
    by rewrite insert_id.
  - cbn [fill_loop padd].
    assert (i < length blk) as Hi by lia.
    rewrite (bind_Ok _ _ _ _ _ (run_assign_at _ _ _ _ _ _ value Hb Hi)).
    rewrite (IH _ _ _ b (<[i := value]> blk)).
    + f_equal. f_equal. rewrite insert_insert_eq. f_equal.
      rewrite Nat.add_1_r, drop_insert_lt by lia.
      rewrite (take_S_r _ _ _ (list_lookup_insert_eq blk i value Hi)).
      rewrite take_insert_ge by lia. rewrite <- (assoc_L (++)). cbn [app replicate].
      by replace (S i + n) with (i + S n) by lia.
    + by rewrite lookup_insert_eq.
    + rewrite length_insert. lia.
Qed.

Lemma run_assign_list init : ∀ h a vs b blk i,
  h !! b = Some blk → i + length init ≤ length blk →
  assign_list init (Ptr b i) (mkWorld h a vs None) =
    Ok tt (mkWorld (<[b := take i blk ++ init ++ drop (i + length init) blk]> h) a vs None).
Proof.
  induction init as [|x init IH]; intros h a vs b blk i Hb Hlen.
  - cbn [assign_list length app]. rewrite Nat.add_0_r, take_drop.
    by rewrite insert_id.
  - cbn [assign_list padd length] in *.
    assert (i < length blk) as Hi by lia.
    rewrite (bind_Ok _ _ _ _ _ (run_assign_at _ _ _ _ _ _ x Hb Hi)).
    rewrite (IH _ _ _ b (<[i := x]> blk)).
    + f_equal. f_equal. rewrite insert_insert_eq. f_equal.
      rewrite Nat.add_1_r, drop_insert_lt by lia.
      rewrite (take_S_r _ _ _ (list_lookup_insert_eq blk i x Hi)).
      rewrite take_insert_ge by lia. rewrite <- (assoc_L (++)). cbn [app].
      by replace (S i + length init) with (i + S (length init)) by lia.
    + by rewrite lookup_insert_eq.
    + rewrite length_insert. lia.
Qed.

(** Shifting [[i + 1, i + 1 + n)] one slot to the left inside a block. *)
Lemma run_shift_left mv n : ∀ w b blk i,
  fault w = None → heap w !! b = Some blk → i + n + 1 ≤ length blk →
  ∃ blk',
    forward (xfer mv) n (Ptr b (i + 1)) (Ptr b i) w =
      Ok tt (set_heap w (<[b := blk']> (heap w))) ∧
    length blk' = length blk ∧
    take (i + n) blk' = take i blk ++ take n (drop (i + 1) blk).
Proof.
  induction n as [|n IH]; intros w b blk i Hf Hb Hlen.
  - exists blk. cbn [forward]. rewrite insert_id, set_heap_id by done.
    split_and!; [done..|]. by rewrite Nat.add_0_r, take_0, (right_id_L [] (++)).
  - cbn [forward padd].
    destruct (lookup_lt_is_Some_2 blk (i + 1)) as [x Hx]; [lia|].
    assert (i < length blk) as Hi by lia.
    assert (i + 1 ≠ i) as Hne by lia.
    rewrite (bind_Ok _ _ _ _ _ (run_xfer_same mv _ _ _ _ _ _ Hf Hb Hx Hi Hne)).
    set (blk2 := <[i + 1 := mv x]> (<[i := x]> blk)).
    destruct (IH (set_heap w (<[b := blk2]> (heap w))) b blk2 (i + 1))
      as (blk' & Hrun & Hl & Htake).
    { done. }
    { cbn [heap set_heap]. by rewrite lookup_insert_eq. }
    { unfold blk2. rewrite !length_insert. lia. }
    exists blk'. split_and!.
    + rewrite Hrun. cbn [heap set_heap]. by rewrite insert_insert_eq.
    + rewrite Hl. unfold blk2. by rewrite !length_insert.
    + replace (i + S n) with (i + 1 + n) by lia. rewrite Htake. unfold blk2.
      rewrite take_insert_ge by lia.
      rewrite Nat.add_1_r.
      rewrite (take_S_r _ _ _ (list_lookup_insert_eq blk i x Hi)).
      rewrite take_insert_ge by lia.
      rewrite !drop_insert_lt by lia.
      rewrite Nat.add_1_r in Hx.
      rewrite (drop_S blk x (S i) Hx). cbn [take].
      rewrite <- (assoc_L (++)). cbn [app]. by rewrite Nat.add_1_r.
Qed.

Lemma run_erase_shift h a vs b blk k e :
  h !! b = Some blk → k < e → e ≤ length blk →
  ∃ blk',
    forward move_elem (e - (k + 1)) (Ptr b (k + 1)) (Ptr b k) (mkWorld h a vs None) =
      Ok tt (mkWorld (<[b := blk']> h) a vs None) ∧
    length blk' = length blk ∧
    take (e - 1) blk' = take k blk ++ drop (k + 1) (take e blk).
Proof.
  intros Hb Hk He.
  destruct (run_shift_left moved (e - (k + 1)) (mkWorld h a vs None) b blk k)
    as (blk' & Hrun & Hl & Htake); [done|done|lia|].
  exists blk'. split_and!; [by change move_elem with (xfer moved)|done|].
  replace (k + (e - (k + 1))) with (e - 1) in Htake by lia.
  rewrite Htake, take_drop_commute. do 3 f_equal. lia.
Qed.
End more_loops.

(** Lengths of the blocks the loops produce. *)
Ltac len :=
  rewrite ?take_0, ?drop_0; cbn [app];
  repeat first
    [ rewrite length_insert | rewrite length_app | rewrite length_take
    | rewrite length_drop | rewrite length_replicate | rewrite length_fmap
    | rewrite length_cons ];
  cbn [length]; lia.

(** [sv_run] extends [exec] to the rest of the interface, and to the loops
    between known blocks when nothing throws. *)
Ltac sv_step :=
  first
    [ exec_step
    | lazy beta; fields;
      lazymatch goal with
      | |- wp (throw _) _ _ => unfold throw at 1; cbn [wp]
      | |- wp (next (Ptr _ _) _) _ _ => unfold next at 1
      | |- wp (assert_ (Some (bool_decide ?P)) _) _ _ =>
          rewrite (bool_decide_eq_true_2 P) by side
      | |- wp (range (Ptr ?b ?i) (Ptr ?b (?i + ?n)) _) _ _ =>
          rewrite (run_range (Ptr b i) (Ptr b (i + n)) n) by apply pdiff_padd
      | |- wp (assign (Ptr _ _) _ (mkWorld _ _ _ None)) _ _ =>
          erewrite run_assign_at; [|lookup|len]
      | |- wp (copy_elem (Ptr ?bd ?j) (Ptr ?bs ?i) (mkWorld _ _ _ None)) _ _ =>
          erewrite (run_copy_elem_at _ _ _ bd j _ bs i); [|lookup|eassumption|lookup|len]
      | |- wp (move_elem (Ptr ?bd ?j) (Ptr ?bs ?i) (mkWorld _ _ _ None)) _ _ =>
          erewrite (run_move_elem_at _ _ _ bd j _ bs i);
            [|neq|lookup|eassumption|lookup|len]
      | |- wp (forward copy_elem ?n (Ptr ?bs ?i) (Ptr ?bd ?j) (mkWorld _ _ _ None)) _ _ =>
          erewrite (run_copy_between _ _ _ bs bd _ _ i j n); [|neq|lookup|lookup|len|len]
      | |- wp (forward move_elem ?n (Ptr ?bs ?i) (Ptr ?bd ?j) (mkWorld _ _ _ None)) _ _ =>
          erewrite (run_move_between _ _ _ bs bd _ _ i j n); [|neq|lookup|lookup|len|len]
      | |- wp (generate_loop ?n (Ptr ?b ?i) (mkWorld _ _ _ None)) _ _ =>
          erewrite (run_generate_at _ _ _ b _ i n); [|lookup|len]
      | |- wp (fill_loop ?n (Ptr ?b ?i) _ (mkWorld _ _ _ None)) _ _ =>
          erewrite (run_fill_loop _ n _ _ _ b _ i); [|lookup|len]
      | |- wp (assign_list ?l (Ptr ?b ?i) (mkWorld _ _ _ None)) _ _ =>
          erewrite (run_assign_list l _ _ _ b _ i); [|lookup|len]
      | |- wp (std_fill _ _ _ _) _ _ => unfold std_fill at 1
      | |- wp (std_equal _ _ _ _) _ _ => unfold std_equal at 1
      | |- wp (std_lexicographical_compare _ _ _ _ _) _ _ =>
          unfold std_lexicographical_compare at 1
      | |- wp (SimpleVector.ctor_value _ _ _ _) _ _ => unfold SimpleVector.ctor_value at 1
      | |- wp (SimpleVector.ctor_init _ _ _) _ _ => unfold SimpleVector.ctor_init at 1
      | |- wp (SimpleVector.ctor_reserve _ _ _) _ _ => unfold SimpleVector.ctor_reserve at 1
      | |- wp (SimpleVector.ctor_proxy _ _ _) _ _ => unfold SimpleVector.ctor_proxy at 1
      | |- wp (SimpleVector.copy_assign _ _ _) _ _ => unfold SimpleVector.copy_assign at 1
      | |- wp (SimpleVector.subscript _ _ _) _ _ => unfold SimpleVector.subscript at 1
      | |- wp (SimpleVector.subscript_const _ _ _) _ _ =>
          unfold SimpleVector.subscript_const at 1
      | |- wp (SimpleVector.At _ _ _) _ _ => unfold SimpleVector.At at 1
      | |- wp (SimpleVector.PopBack _ _) _ _ => unfold SimpleVector.PopBack at 1
      | |- wp (SimpleVector.Erase _ _ _) _ _ => unfold SimpleVector.Erase at 1
      | |- wp (SimpleVector.ReallocateCopy _ _ _ _) _ _ =>
          unfold SimpleVector.ReallocateCopy at 1
      | |- wp (SimpleVector.ResizeCapacity _ _ _) _ _ =>
          unfold SimpleVector.ResizeCapacity at 1
      | |- wp (SimpleVector.PushBack_copy _ _ _) _ _ =>
          unfold SimpleVector.PushBack_copy at 1
      | |- wp (SimpleVector.PushBack_move _ _ _) _ _ =>
          unfold SimpleVector.PushBack_move at 1
      | |- wp (SimpleVector.Reserve _ _ _) _ _ => unfold SimpleVector.Reserve at 1
      | |- wp (operator_eq _ _ _) _ _ => unfold operator_eq at 1
      | |- wp (operator_ne _ _ _) _ _ => unfold operator_ne at 1
      | |- wp (operator_lt _ _ _) _ _ => unfold operator_lt at 1
      | |- wp (operator_le _ _ _) _ _ => unfold operator_le at 1
      | |- wp (operator_gt _ _ _) _ _ => unfold operator_gt at 1
      | |- wp (operator_ge _ _ _) _ _ => unfold operator_ge at 1
      end ].

Ltac sv_run := repeat sv_step; lazy beta; fields.

(** A store from which the names added since have been removed again is
    the store there was. *)
Ltac lookups :=
  repeat first
    [ rewrite lookup_delete_eq | rewrite lookup_insert_eq
    | rewrite lookup_delete_ne by neq | rewrite lookup_insert_ne by neq ].

Ltac absent :=
  lazymatch goal with
  | |- None = ?m !! fresh (dom ?m') =>
      let E := fresh in
      destruct (m !! fresh (dom m')) eqn:E; [exfalso|reflexivity];
      apply (fresh_ne m' (fresh (dom m'))); [eexists; lookups; exact E|reflexivity]
  end.

Ltac same_map :=
  let i := fresh "i" in
  apply map_eq; intros i;
  repeat match goal with
  | |- context [delete ?k _] =>
      lazymatch goal with H : i ≠ k |- _ => fail | _ => idtac end;
      destruct (decide (i = k)); [subst i; lookups; first [reflexivity|absent]|]
  | |- context [<[?k := _]> _] =>
      lazymatch goal with H : i ≠ k |- _ => fail | _ => idtac end;
      destruct (decide (i = k)); [subst i; lookups; first [reflexivity|absent]|]
  end;
  lookups; reflexivity.

(** *** What [observe] shows *)

Section more_observations.
Context {T : Type} `{!Elem T}.
Implicit Types (w : World T) (h : gmap positive (list T)) (blk xs : list T).

Lemma wp_eq {A} (r r' : Res (World T) A) :
  wp r (λ x w', Ok x w' = r') (λ w', Throw w' = r') → r = r'.
Proof. by destruct r. Qed.

Lemma post_unit (r : Res (World T) unit) (Q : World T → Prop) :
  post r (λ _ w', Q w') → ∃ w', r = Ok tt w' ∧ Q w'.
Proof. destruct r as [[] w'| |]; [eauto|done..]. Qed.

(** What [observe] tells about the members and the block of a vector. *)
Lemma observe_shape h a vs f (o : positive) s c xs :
  observe (mkWorld h a vs f) o = Some (s, c, xs) →
  length xs = s ∧
  ((∃ c', vs !! o = Some (SV.Build (AP.Build Null c') s c) ∧ s = 0 ∧ xs = []) ∨
   (∃ c' b off blk, vs !! o = Some (SV.Build (AP.Build (Ptr b off) c') s c) ∧
      h !! b = Some blk ∧ off + s ≤ length blk ∧ xs = take s (drop off blk))).
Proof.
  intros (q & c' & Hv & Hel)%observe_inv. cbn [vecs] in Hv.
  unfold elements in Hel. cbn [vecs heap] in Hel. rewrite Hv in Hel. cbn in Hel.
  destruct q as [|b off].
  - case_decide; simplify_eq. split; [done|left]. eauto.
  - destruct (h !! b) as [blk|] eqn:Hb; [|done]. cbn in Hel.
    case_decide; simplify_eq. split.
    + rewrite length_take, length_drop. lia.
    + right. eauto 10.
Qed.

Lemma observe_shorter h a vs f (this : positive) p c' s k xs n :
  vs !! this = Some (SV.Build (AP.Build p c') s k) →
  observe (mkWorld h a vs f) this = Some (s, k, xs) → n ≤ s →
  observe (mkWorld h a (<[this := SV.Build (AP.Build p c') n k]> vs) f) this =
    Some (n, k, take n xs).
Proof.
  intros Hv Hobs Hn.
  destruct (observe_shape _ _ _ _ _ _ _ _ Hobs)
    as [Hlen [(c'' & Hv' & -> & ->)|(c'' & b & off & blk & Hv' & Hb & Hoff & ->)]];
    simplify_eq.
  - assert (n = 0) as -> by lia. eapply observe_Null. lookup.
  - unfold observe, elements. cbn [vecs heap]. rewrite lookup_insert_eq. cbn.
    rewrite Hb. cbn. rewrite decide_True by lia.
    by rewrite take_take, Nat.min_l by lia.
Qed.

(** A block allocated since leaves what the vectors showed as it was. *)
Lemma observe_kept h a vs f h' a' vs' f' :
  (∀ b blk, h !! b = Some blk → h' !! b = Some blk) →
  (∀ o v, vs !! o = Some v → vs' !! o = Some v) →
  ∀ o r, observe (mkWorld h a vs f) o = Some r → observe (mkWorld h' a' vs' f') o = Some r.
Proof.
  intros Hh Hvs o [[s c] xs] Hobs.
  destruct (observe_shape _ _ _ _ _ _ _ _ Hobs)
    as [Hlen [(c' & Hv & -> & ->)|(c' & b & off & blk & Hv & Hb & Hoff & ->)]].
  - eapply observe_Null. by apply Hvs.
  - unfold observe, elements. cbn [vecs heap]. rewrite (Hvs _ _ Hv). cbn.
    rewrite (Hh _ _ Hb). cbn. by rewrite decide_True.
Qed.
(** The vectors there were are as they were once a new block and a new
    object have been added. *)
Lemma observe_kept_fresh h a vs f blk v a' f' :
  ∀ o r, observe (mkWorld h a vs f) o = Some r →
         observe (mkWorld (<[fresh (dom h) := blk]> h) a'
                    (<[fresh (dom vs) := v]> vs) f') o = Some r.
Proof.
  apply observe_kept.
  - intros b blk' Hb. rewrite lookup_insert_ne; [done|]. apply fresh_ne. eauto.
  - intros o v' Hv. rewrite lookup_insert_ne; [done|]. apply fresh_ne. eauto.
Qed.

Lemma observe_kept_object h a vs f v a' f' :
  ∀ o r, observe (mkWorld h a vs f) o = Some r →
         observe (mkWorld h a' (<[fresh (dom vs) := v]> vs) f') o = Some r.
Proof.
  apply observe_kept; [done|].
  intros o v' Hv. rewrite lookup_insert_ne; [done|]. apply fresh_ne. eauto.
Qed.

Lemma observe_same_members h a vs f h' a' vs' f' (o o' : positive) :
  h' = h → vs' !! o' = vs !! o →
  observe (mkWorld h' a' vs' f') o' = observe (mkWorld h a vs f) o ∧
  buffer (mkWorld h' a' vs' f') o' = buffer (mkWorld h a vs f) o.
Proof.
  intros -> Hv. unfold observe, elements, buffer. cbn [vecs heap]. by rewrite Hv.
Qed.
End more_observations.

(** *** Element access and iterators *)

Section element_access.
Context {T : Type} `{!Elem T}.
Implicit Types (w : World T) (h : gmap positive (list T)) (blk xs : list T).

(** X1.  [At(index)] checks the index against the size: with
    [index >= size] it throws and leaves the state as it was; with
    [index < size] it returns the address of slot [index] of the buffer,
    where the element of that index is read. *)
Theorem At_checks_bounds w (this : positive) s c xs p i :
  observe w this = Some (s, c, xs) → buffer w this = Some p →
  (s ≤ i → SimpleVector.At this i w = Throw w) ∧
  (i < s → SimpleVector.At this i w = Ok (p +ₚ i) w) ∧
  (∀ x, xs !! i = Some x → load (p +ₚ i) w = Ok x w).
Proof.
  destruct w as [h a vs f]. intros Hobs Hbuf.
  destruct (observe_shape _ _ _ _ _ _ _ _ Hobs)
    as [Hlen [(c' & Hv & -> & ->)|(c' & b & off & blk & Hv & Hb & Hoff & ->)]];
    rewrite (buffer_eq _ _ _ _ _ _ _ _ _ Hv) in Hbuf; simplify_eq.
  - split_and!.
    + intros Hi. apply wp_eq. by sv_run.
    + lia.
    + done.
  - split_and!.
    + intros Hi. apply wp_eq. by sv_run.
    + intros Hi. apply wp_eq. by sv_run.
    + intros x Hx. apply (run_load _ b (off + i) blk); [done|].
      apply lookup_take_Some in Hx as [Hx _]. by rewrite lookup_drop in Hx.
Qed.

(** X2.  [operator[]]: the non-const overload asserts [index <= size], so
    it returns the address of slot [index] for every index up to and
    including [size] (one past the last element), and the assertion fails
    beyond; the const overload returns the address with no check.  Below the
    size the address holds the element of that index. *)
Theorem subscript_admits_index_up_to_size w (this : positive) s c xs p i :
  observe w this = Some (s, c, xs) → buffer w this = Some p →
  (i ≤ s → SimpleVector.subscript this i w = Ok (p +ₚ i) w) ∧
  (s < i → SimpleVector.subscript this i w = Undef) ∧
  SimpleVector.subscript_const this i w = Ok (p +ₚ i) w ∧
  (∀ x, xs !! i = Some x → load (p +ₚ i) w = Ok x w).
Proof.
  destruct w as [h a vs f]. intros Hobs Hbuf.
  destruct (observe_inv _ _ _ _ _ Hobs) as (q & c' & Hv & _). cbn [vecs] in Hv.
  rewrite (buffer_eq _ _ _ _ _ _ _ _ _ Hv) in Hbuf. simplify_eq.
  split_and!.
  - intros Hi. apply wp_eq. by sv_run.
  - intros Hi.
    unfold SimpleVector.subscript, SimpleVector.GetSize, get_vec, mbind, M_bind, bind.
    cbn [vecs]. rewrite Hv. cbn. by rewrite bool_decide_eq_false_2 by lia.
  - apply wp_eq. by sv_run.
  - intros x Hx.
    destruct (observe_shape _ _ _ _ _ _ _ _ Hobs)
      as [Hlen [(c'' & Hv' & -> & ->)|(c'' & b & off & blk & Hv' & Hb & Hoff & ->)]];
      [done|]. simplify_eq.
    apply (run_load _ b (off + i) blk); [done|].
    apply lookup_take_Some in Hx as [Hx _]. by rewrite lookup_drop in Hx.
Qed.

(** X3.  [begin()] and [cbegin()] return the buffer, [end()] and [cend()]
    the buffer advanced by the size: they are [size] elements apart, equal
    exactly when the vector is empty, and reading at [begin() + i] gives the
    element of index [i]; [GetSize], [GetCapacity] and [IsEmpty] return the
    size, the capacity and whether the size is 0.  Nothing changes the
    state. *)
Theorem iterators_delimit_elements w (this : positive) s c xs :
  observe w this = Some (s, c, xs) →
  ∃ b e,
    SimpleVector.begin this w = Ok b w ∧ SimpleVector.end_ this w = Ok e w ∧
    SimpleVector.cbegin this w = Ok b w ∧ SimpleVector.cend this w = Ok e w ∧
    range b e w = Ok s w ∧ (b = e ↔ s = 0) ∧
    (∀ i x, xs !! i = Some x → load (b +ₚ i) w = Ok x w) ∧
    SimpleVector.GetSize this w = Ok s w ∧
    SimpleVector.GetCapacity this w = Ok c w ∧
    SimpleVector.IsEmpty this w = Ok (bool_decide (s = 0)) w.
Proof.
  destruct w as [h a vs f]. intros Hobs.
  destruct (observe_shape _ _ _ _ _ _ _ _ Hobs)
    as [Hlen [(c' & Hv & -> & ->)|(c' & b & off & blk & Hv & Hb & Hoff & ->)]].
  - exists Null, Null.
    split_and!; try (apply post_eq; by run); [done|done].
  - exists (Ptr b off), (Ptr b (off + s)).
    split_and!; try (apply post_eq; by run).
    + apply run_range, pdiff_padd.
    + split; [intros [= ?]; lia|intros ->; f_equal; lia].
    + intros i x Hx. apply (run_load _ b (off + i) blk); [done|].
      apply lookup_take_Some in Hx as [Hx _]. by rewrite lookup_drop in Hx.
Qed.
End element_access.

(** *** Construction *)

Section construction.
Context {T : Type} `{!Elem T}.
Implicit Types (w : World T) (h : gmap positive (list T)) (blk xs : list T).

(** X4.  [SimpleVector(size)] constructs a new vector of [size]
    value-initialised elements with capacity [size]; for size 0 it allocates
    nothing; the vectors there were are untouched. *)
Theorem ctor_size_value_initialises w n :
  fault w = None →
  ∃ this w', SimpleVector.declare (λ o, SimpleVector.ctor_size o n) w = Ok this w' ∧
             constructed w this w' n n (replicate n dflt) ∧
             (n = 0 → heap w' = heap w).
Proof.
  destruct w as [h a vs f]. cbn [fault]. intros ->. apply post_Ok. unfold constructed.
  destruct (decide (n = 0)) as [->|Hn].
  - sv_run. rewrite !insert_insert_eq.
    split_and!; [lookup|eapply observe_Null; lookup|eapply valid_Null; lookup|done| |done].
    apply observe_kept_object.
  - sv_run. rewrite !insert_insert_eq.
    split_and!; [lookup| | |done| |intros ?; exfalso; lia].
    + erewrite observe_Ptr; [|lookup|lookup|len]. by rewrite take_ge by len.
    + eapply valid_Ptr; [lookup|lookup|lia|len].
    + apply observe_kept_fresh.
Qed.

(** X5.  [SimpleVector(size, value)] constructs a new vector of [size]
    copies of [value] with capacity [size]; for size 0 it allocates nothing;
    the vectors there were are untouched. *)
Theorem ctor_value_fills w n value :
  fault w = None →
  ∃ this w', SimpleVector.declare (λ o, SimpleVector.ctor_value o n value) w = Ok this w' ∧
             constructed w this w' n n (replicate n value) ∧
             (n = 0 → heap w' = heap w).
Proof.
  destruct w as [h a vs f]. cbn [fault]. intros ->. apply post_Ok. unfold constructed.
  destruct (decide (n = 0)) as [->|Hn].
  - sv_run. rewrite !insert_insert_eq.
    split_and!; [lookup|eapply observe_Null; lookup|eapply valid_Null; lookup|done| |done].
    apply observe_kept_object.
  - sv_run. rewrite !insert_insert_eq.
    split_and!; [lookup| | |done| |intros ?; exfalso; lia].
    + erewrite observe_Ptr; [|lookup|lookup|len].
      rewrite take_0. cbn [app].
      rewrite take_app_length' by len. done.
    + eapply valid_Ptr; [lookup|lookup|lia|len].
    + apply observe_kept_fresh.
Qed.

(** X6.  [SimpleVector(std::initializer_list)] constructs a new vector
    holding the elements of the list in order, with size and capacity the
    length of the list; for an empty list it allocates nothing. *)
Theorem ctor_init_holds_list w init :
  fault w = None →
  ∃ this w', SimpleVector.declare (λ o, SimpleVector.ctor_init o init) w = Ok this w' ∧
             constructed w this w' (length init) (length init) init ∧
             (init = [] → heap w' = heap w).
Proof.
  destruct w as [h a vs f]. cbn [fault]. intros ->. apply post_Ok. unfold constructed.
  destruct init as [|x init].
  - sv_run. cbn [length]. sv_run. rewrite !insert_insert_eq.
    split_and!; [lookup|eapply observe_Null; lookup|eapply valid_Null; lookup|done| |done].
    apply observe_kept_object.
  - set (l := x :: init). assert (0 < length l) as Hl by (cbn; lia).
    clearbody l. sv_run. rewrite !insert_insert_eq.
    split_and!; [lookup| | |done| |].
    + erewrite observe_Ptr; [|lookup|lookup|len].
      rewrite take_0. cbn [app].
      rewrite take_app_length' by len. done.
    + eapply valid_Ptr; [lookup|lookup|lia|len].
    + apply observe_kept_fresh.
    + intros ->. cbn in Hl. lia.
Qed.

(** X7.  [SimpleVector v(Reserve(n))] constructs an empty vector (size 0,
    no elements) with capacity [n], the [n] slots allocated; for [n = 0] it
    allocates nothing. *)
Theorem ctor_proxy_reserves w n :
  fault w = None →
  ∃ this w', SimpleVector.declare (λ o, SimpleVector.ctor_proxy o (Reserve n)) w = Ok this w' ∧
             constructed w this w' 0 n [] ∧
             (n = 0 → heap w' = heap w).
Proof.
  destruct w as [h a vs f]. cbn [fault]. intros ->. apply post_Ok. unfold constructed.
  unfold SimpleVector.ctor_proxy, Reserve. cbn [ReserveProxyObj.capacity_].
  destruct (decide (n = 0)) as [->|Hn].
  - sv_run. rewrite !insert_insert_eq.
    split_and!; [lookup|eapply observe_Null; lookup|eapply valid_Null; lookup|done| |done].
    apply observe_kept_object.
  - sv_run. rewrite !insert_insert_eq.
    split_and!; [lookup| | |done| |intros ?; exfalso; lia].
    + erewrite observe_Ptr; [|lookup|lookup|len]. by rewrite take_0.
    + eapply valid_Ptr; [lookup|lookup|lia|len].
    + apply observe_kept_fresh.
Qed.
End construction.

(** *** [PopBack] and [Erase] *)

Section removal.
Context {T : Type} `{!Elem T}.
Implicit Types (w : World T) (h : gmap positive (list T)) (blk xs : list T).

(** [PopBack] on known members. *)
Lemma run_PopBack h a vs f (this : positive) p c' s k :
  vs !! this = Some (SV.Build (AP.Build p c') s k) →
  SimpleVector.PopBack this (mkWorld h a vs f) =
    Ok tt (mkWorld h a (<[this := SV.Build (AP.Build p c') (s - 1) k]> vs) f).
Proof.
  intros Hv. apply post_eq. destruct s as [|s].
  - sv_run. by rewrite insert_id.
  - sv_run. cbn [decrement]. by replace (S s - 1) with s by lia.
Qed.

(** X8.  [PopBack()] on a non-empty vector lowers the size by one and so
    drops the last element; capacity, buffer and heap stay as they were.  On
    an empty vector it does nothing at all. *)
Theorem PopBack_drops_last w (this : positive) s c xs p :
  observe w this = Some (s, c, xs) → buffer w this = Some p →
  ∃ w', SimpleVector.PopBack this w = Ok tt w' ∧
        observe w' this = Some (s - 1, c, take (s - 1) xs) ∧
        buffer w' this = Some p ∧
        heap w' = heap w ∧ fault w' = fault w ∧
        (s = 0 → w' = w).
Proof.
  destruct w as [h a vs f]. intros Hobs Hbuf.
  destruct (observe_inv _ _ _ _ _ Hobs) as (q & c' & Hv & _). cbn [vecs] in Hv.
  rewrite (buffer_eq _ _ _ _ _ _ _ _ _ Hv) in Hbuf. simplify_eq.
  eexists. split; [by eapply run_PopBack|].
  split_and!; [|eapply buffer_eq; lookup|done..|].
  - eapply observe_shorter; [done..|lia].
  - intros ->. by rewrite insert_id.
Qed.
(** [Erase] on known members and a known block. *)
Lemma Erase_in_place h a vs (this : positive) b c' s c blk k :
  vs !! this = Some (SV.Build (AP.Build (Ptr b 0) c') s c) →
  h !! b = Some blk → c ≤ length blk → s ≤ c → k < s →
  post (SimpleVector.Erase this (Ptr b k) (mkWorld h a vs None)) (λ it w',
    it = Ptr b k ∧
    observe w' this = Some (s - 1, c, take k (take s blk) ++ drop (S k) (take s blk)) ∧
    buffer w' this = Some (Ptr b 0) ∧ valid w' this ∧ fault w' = None).
Proof.
  intros Hv Hb Hlen Hsc Hk.
  destruct (run_erase_shift h a vs b blk k s) as (blk' & Hrun & Hl & Htake);
    [done|done|lia|].
  destruct s as [|s]; [lia|].
  sv_run. rewrite Hrun. sv_run. cbn [decrement].
  replace (S s - 1) with s in * by lia.
  split_and!; [done| |eapply buffer_eq; lookup|eapply valid_Ptr; [lookup|lookup|lia|lia]|done].
  erewrite observe_Ptr; [|lookup|lookup|lia].
  rewrite Htake. rewrite take_take, Nat.min_l by lia.
  by rewrite Nat.add_1_r.
Qed.

(** X9.  [Erase(begin() + k)] with [k < size] removes the element of index
    [k]: the elements before it stay, those after it move one slot down in
    the same order, the size drops by one, capacity and buffer are unchanged
    and the iterator returned is [begin() + k]. *)
Theorem Erase_removes_element w (this : positive) s c xs p k :
  fault w = None → valid w this →
  observe w this = Some (s, c, xs) → buffer w this = Some p → k < s →
  ∃ w', SimpleVector.Erase this (p +ₚ k) w = Ok (p +ₚ k) w' ∧
        observe w' this = Some (s - 1, c, take k xs ++ drop (S k) xs) ∧
        buffer w' this = Some p ∧ valid w' this ∧ fault w' = None.
Proof.
  destruct w as [h a vs f]. cbn [fault]. intros -> Hvalid Hobs Hbuf Hk.
  destruct (valid_observe _ _ _ _ _ _ _ _ Hvalid Hobs)
    as [Hsc [(c' & Hv & -> & -> & ->)|(c' & b & blk & Hv & Hb & Hlen & ->)]]; [lia|].
  rewrite (buffer_eq _ _ _ _ _ _ _ _ _ Hv) in Hbuf. simplify_eq. cbn [padd Nat.add].
  destruct (post_Ok _ _ (Erase_in_place h a vs this b c' s c blk k Hv Hb Hlen Hsc Hk))
    as (it & w' & Hrun & -> & ?). eauto.
Qed.
End removal.

(** *** [PushBack] and [Reserve] *)

Section growth.
Context {T : Type} `{!Elem T}.
Implicit Types (w : World T) (h : gmap positive (list T)) (blk xs : list T).

(** The argument of a call lies in a block other than the buffer. *)
Lemma outside_intro h a vs f (this : positive) b off c' s c rb ro :
  vs !! this = Some (SV.Build (AP.Build (Ptr b off) c') s c) → rb ≠ b →
  outside (mkWorld h a vs f) this (Ptr rb ro).
Proof.
  intros Hv Hne b' off' off'' [= <- <-]. rewrite (buffer_eq _ _ _ _ _ _ _ _ _ Hv).
  by intros [= <-].
Qed.

Lemma outside_block w (this : positive) b off off' :
  outside w this (Ptr b off) → outside w this (Ptr b off').
Proof. intros Hout b' o o' [= <- <-]. by eapply Hout. Qed.

(** [PushBack(const Type&)] of an object that can be read, an element of the
    vector or not. *)
Lemma PushBack_copy_post h a vs (this : positive) s c xs rb ro rblk item :
  valid (mkWorld h a vs None) this → observe (mkWorld h a vs None) this = Some (s, c, xs) →
  h !! rb = Some rblk → rblk !! ro = Some item →
  post (SimpleVector.PushBack_copy this (Ptr rb ro) (mkWorld h a vs None)) (λ _ w',
    observe w' this =
      Some (s + 1, (if decide (s < c) then c else (c * 2) `max` (s + 1)), xs ++ [item]) ∧
    valid w' this ∧ fault w' = None ∧
    (s < c → buffer w' this = buffer (mkWorld h a vs None) this) ∧
    (outside (mkWorld h a vs None) this (Ptr rb ro) →
     heap w' !! rb = Some rblk ∧ outside w' this (Ptr rb ro))).
Proof.
  intros Hvalid Hobs Hr Hx.
  assert (fresh (dom h) ≠ rb) as Hnr by neq.
  assert (rb ≠ fresh (dom h)) as Hrn by done.
  destruct (valid_observe _ _ _ _ _ _ _ _ Hvalid Hobs)
    as [Hsc [(c' & Hv & -> & -> & ->)|(c' & b & blk & Hv & Hb & Hlen & ->)]].
  - sv_run. rewrite decide_False by lia. change ((0 * 2) `max` 1) with 1.
    split_and!; [| |done|intros ?; exfalso; lia|].
    + erewrite observe_Ptr; [|lookup|lookup|len]. done.
    + eapply valid_Ptr.
      1: lookup. 1: lookup. 1: lia. len.
    + intros _. split; [lookup|]. eapply outside_intro; [lookup|done].
  - destruct (decide (s < c)) as [Hlt|Hge].
    + sv_run. split; [|split; [|split; [done|split]]].
      * erewrite observe_Ptr; [|lookup|lookup|len].
        rewrite Nat.add_1_r.
        erewrite take_S_r by (apply list_lookup_insert_eq; lia).
        by rewrite take_insert_ge by lia.
      * eapply valid_Ptr; [lookup|lookup|lia|len].
      * intros _. unfold buffer. cbn [vecs]. rewrite Hv. lookup.
      * intros Hout. assert (rb ≠ b) as Hrb by (by eapply outside_Ptr).
        split; [lookup|]. eapply outside_intro; [lookup|done].
    + assert (c = s) as -> by lia.
      assert (fresh (dom h) ≠ b) as Hnb by neq.
      sv_run.
      assert (((s * 2) `max` (s + 1)) `min` s = s) as -> by lia.
      sv_run.
      split; [|split; [|split; [done|split; [intros ?; exfalso; lia|]]]].
      * erewrite observe_Ptr; [|lookup|lookup|len].
        rewrite take_0, drop_0. cbn [app].
        rewrite insert_app_r_alt by len.
        rewrite length_take, Nat.min_l, Nat.sub_diag by lia.
        rewrite (take_app_add' _ _ s 1) by len.
        f_equal. rewrite drop_replicate.
        destruct ((s * 2) `max` (s + 1) - s) as [|m] eqn:Hm; [lia|]. done.
      * eapply valid_Ptr; [lookup|lookup|lia|len].
      * intros Hout. assert (rb ≠ b) as Hrb by (by eapply outside_Ptr).
        split; [lookup|]. eapply outside_intro; [lookup|done].
Qed.

(** [PushBack(Type&&)] of an object that is no element of the vector. *)
Lemma PushBack_move_post h a vs (this : positive) s c xs rb ro rblk value :
  valid (mkWorld h a vs None) this → observe (mkWorld h a vs None) this = Some (s, c, xs) →
  h !! rb = Some rblk → rblk !! ro = Some value →
  outside (mkWorld h a vs None) this (Ptr rb ro) →
  post (SimpleVector.PushBack_move this (Ptr rb ro) (mkWorld h a vs None)) (λ _ w',
    observe w' this =
      Some (s + 1, (if decide (s < c) then c else (c * 2) `max` (s + 1)), xs ++ [value]) ∧
    valid w' this ∧ fault w' = None ∧
    (s < c → buffer w' this = buffer (mkWorld h a vs None) this) ∧
    heap w' !! rb = Some (<[ro := moved value]> rblk) ∧ outside w' this (Ptr rb ro)).
Proof.
  intros Hvalid Hobs Hr Hx Hout.
  assert (fresh (dom h) ≠ rb) as Hnr by neq.
  assert (rb ≠ fresh (dom h)) as Hrn by done.
  destruct (valid_observe _ _ _ _ _ _ _ _ Hvalid Hobs)
    as [Hsc [(c' & Hv & -> & -> & ->)|(c' & b & blk & Hv & Hb & Hlen & ->)]].
  - sv_run. rewrite (decide_True (P:=0 = 0)) by done. sv_run.
    rewrite decide_False by lia. change ((0 * 2) `max` 1) with 1.
    split_and!; [| |done|intros ?; exfalso; lia|lookup|].
    + erewrite observe_Ptr; [|lookup|lookup|len]. done.
    + eapply valid_Ptr; [lookup|lookup|lia|len].
    + eapply outside_intro; [lookup|done].
  - assert (rb ≠ b) as Hrb by (by eapply outside_Ptr).
    destruct (decide (s < c)) as [Hlt|Hge].
    + sv_run. split; [|split; [|split; [done|split; [|split; [lookup|]]]]].
      * erewrite observe_Ptr; [|lookup|lookup|len].
        rewrite Nat.add_1_r.
        erewrite take_S_r by (apply list_lookup_insert_eq; lia).
        by rewrite take_insert_ge by lia.
      * eapply valid_Ptr; [lookup|lookup|lia|len].
      * intros _. unfold buffer. cbn [vecs]. rewrite Hv. lookup.
      * eapply outside_intro; [lookup|done].
    + assert (c = s) as -> by lia.
      assert (fresh (dom h) ≠ b) as Hnb by neq.
      assert (b ≠ fresh (dom h)) as Hbn by done.
      destruct (decide (s = 0)) as [->|Hs].
      * sv_run. rewrite (decide_True (P:=0 = 0)) by done. sv_run.
        change ((0 * 2) `max` 1) with 1.
        split; [|split; [|split; [done|split; [intros ?; exfalso; lia|split; [lookup|]]]]].
        -- erewrite observe_Ptr; [|lookup|lookup|len]. by rewrite take_0.
        -- eapply valid_Ptr; [lookup|lookup|lia|len].
        -- eapply outside_intro; [lookup|done].
      * sv_run. rewrite (decide_False (P:=s = 0)) by done. sv_run.
        replace ((s * 2) `max` (s + 1)) with (s * 2) by lia.
        split; [|split; [|split; [done|split; [intros ?; exfalso; lia|split; [lookup|]]]]].
        -- erewrite observe_Ptr; [|lookup|lookup|len].
           rewrite take_0, drop_0. cbn [app].
           rewrite insert_app_r_alt by len.
           rewrite length_take, Nat.min_l, Nat.sub_diag by lia.
           rewrite (take_app_add' _ _ s 1) by len.
           f_equal. rewrite drop_replicate.
           destruct (s * 2 - s) as [|m] eqn:Hm; [lia|]. done.
        -- eapply valid_Ptr; [lookup|lookup|lia|len].
        -- eapply outside_intro; [lookup|done].
Qed.
Lemma post_mono {A} (r : Res (World T) A) (Q Q' : A → World T → Prop) :
  post r Q → (∀ x w', Q x w' → Q' x w') → post r Q'.
Proof. destruct r; cbn; auto. Qed.

Lemma load_moved h a vs f rb ro rblk (x y : T) :
  h !! rb = Some (<[ro := y]> rblk) → rblk !! ro = Some x →
  load (Ptr rb ro) (mkWorld h a vs f) = Ok y (mkWorld h a vs f).
Proof.
  intros Hr Hx. eapply run_load; [done|].
  apply list_lookup_insert_eq. by eapply lookup_lt_Some.
Qed.

(** X10.  [PushBack(item)], by copy or by move, of an object that can be
    read and, by move, is no element of the vector: the call returns
    normally with the item appended after the elements there were and the
    size one higher.  With spare capacity the capacity and the buffer are
    unchanged; on a full vector the capacity becomes
    [max(2 * capacity, size + 1)].  An argument outside the vector is as it
    was after a copy and moved-from after a move. *)
Theorem PushBack_appends (by_move : bool) w (this : positive) s c xs r item :
  fault w = None → valid w this → observe w this = Some (s, c, xs) →
  load r w = Ok item w → (by_move = true → outside w this r) →
  ∃ w', (if by_move then SimpleVector.PushBack_move else SimpleVector.PushBack_copy)
          this r w = Ok tt w' ∧
        observe w' this =
          Some (s + 1, (if decide (s < c) then c else (c * 2) `max` (s + 1)), xs ++ [item]) ∧
        valid w' this ∧ fault w' = None ∧
        (s < c → buffer w' this = buffer w this) ∧
        (outside w this r → load r w' = Ok (if by_move then moved item else item) w').
Proof.
  destruct w as [h a vs f]. cbn [fault].
  intros -> Hvalid Hobs (rb & ro & rblk & -> & Hr & Hx)%load_inv Hout.
  apply post_unit. destruct by_move.
  - specialize (Hout eq_refl).
    eapply post_mono; [by eapply PushBack_move_post|].
    intros _ [h' a' vs' f'] (? & ? & ? & ? & Hr' & ?). cbn [heap] in Hr'.
    split_and!; [done..|]. intros _. by eapply load_moved.
  - eapply post_mono; [by eapply PushBack_copy_post|].
    intros _ [h' a' vs' f'] (? & ? & ? & ? & Hr'). cbn [heap] in Hr'.
    split_and!; [done..|]. intros [Hr'' _]%Hr'. by eapply run_load.
Qed.

(** X11.  Pushing the [n] objects of a range outside the vector one by one
    appends them in order; by move it leaves them moved-from.  When they fit
    in the capacity, as after [Reserve], no [PushBack] reallocates: capacity
    and buffer are the ones before. *)
Theorem PushBack_each_appends (by_move : bool) n :
  ∀ w (this : positive) s c xs bs i src,
  fault w = None → valid w this → observe w this = Some (s, c, xs) →
  heap w !! bs = Some src → i + n ≤ length src → outside w this (Ptr bs i) →
  ∃ w' c', PushBack_each by_move this n (Ptr bs i) w = Ok tt w' ∧
           observe w' this = Some (s + n, c', xs ++ take n (drop i src)) ∧
           valid w' this ∧ c ≤ c' ∧
           (s + n ≤ c → c' = c ∧ buffer w' this = buffer w this) ∧
           heap w' !! bs =
             Some (if by_move
                   then take i src ++ (moved <$> take n (drop i src)) ++ drop (i + n) src
                   else src).
Proof.
  induction n as [|n IH]; intros w this s c xs bs i src Hf Hvalid Hobs Hsrc Hlen Hout.
  - exists w, c. cbn [PushBack_each]. rewrite Nat.add_0_r, take_0, (right_id_L [] (++)).
    split_and!; [done..|].
    rewrite Hsrc. cbn [fmap list_fmap app]. rewrite Nat.add_0_r, take_drop. by destruct by_move.
  - destruct w as [h a vs f]. cbn [fault heap] in Hf, Hsrc. subst f.
    destruct (lookup_lt_is_Some_2 src i) as [x Hx]; [lia|].
    set (c1 := if decide (s < c) then c else (c * 2) `max` (s + 1)).
    set (src1 := if by_move then <[i := moved x]> src else src).
    assert (∃ w1,
      (if by_move then SimpleVector.PushBack_move else SimpleVector.PushBack_copy)
        this (Ptr bs i) (mkWorld h a vs None) = Ok tt w1 ∧
      observe w1 this = Some (s + 1, c1, xs ++ [x]) ∧ valid w1 this ∧ fault w1 = None ∧
      (s < c → buffer w1 this = buffer (mkWorld h a vs None) this) ∧
      heap w1 !! bs = Some src1 ∧ outside w1 this (Ptr bs i))
      as (w1 & Hpush & Hobs1 & Hvalid1 & Hf1 & Hbuf1 & Hsrc1 & Hout1).
    { apply post_unit. unfold src1. destruct by_move.
      - by eapply PushBack_move_post.
      - eapply post_mono; [by eapply PushBack_copy_post|].
        intros _ w1 (? & ? & ? & ? & Hr'). destruct (Hr' Hout). done. }
    apply (outside_block _ _ _ _ (i + 1)) in Hout1.
    destruct (IH w1 this (s + 1) c1 (xs ++ [x]) bs (i + 1) src1 Hf1 Hvalid1 Hobs1 Hsrc1)
      as (w' & c' & Hrun & Hobs' & Hvalid' & Hc & Hkeep & Hsrc'); [|done|].
    { unfold src1. destruct by_move; rewrite ?length_insert; lia. }
    assert (drop (i + 1) src1 = drop (i + 1) src) as Hdrop.
    { unfold src1. destruct by_move; [|done]. by rewrite drop_insert_lt by lia. }
    exists w', c'. cbn [PushBack_each padd].
    rewrite (bind_Ok _ _ _ _ _ Hpush).
    split_and!; [done| |done| | |].
    + rewrite Hobs', Hdrop, <- (assoc_L (++)). cbn [app].
      rewrite (drop_S src x i Hx). cbn [take].
      replace (i + 1) with (S i) by lia. by replace (s + 1 + n) with (s + S n) by lia.
    + unfold c1 in Hc. case_decide; lia.
    + intros Hroom. unfold c1 in *. rewrite decide_True in * by lia.
      destruct Hkeep as [-> ->]; [lia|]. split; [done|]. apply Hbuf1. lia.
    + rewrite Hsrc'. f_equal. unfold src1. destruct by_move; [|done].
      by rewrite moved_step.
Qed.

(** X28.  A [PushBack] that reallocates, by copy or by move, of an object
    outside the vector is local to its vector: the buffer is a new block, the
    block the vector had is freed, the argument is as it was (moved-from
    after a move), every other block and every other vector is as it was,
    and no temporary object is left behind. *)
Theorem PushBack_reallocation_is_local (by_move : bool) w (this : positive) s xs b r item :
  fault w = None → valid w this →
  observe w this = Some (s, s, xs) → buffer w this = Some (Ptr b 0) →
  load r w = Ok item w → outside w this r →
  ∃ w', (if by_move then SimpleVector.PushBack_move else SimpleVector.PushBack_copy)
          this r w = Ok tt w' ∧
        buffer w' this = Some (Ptr (fresh (dom (heap w))) 0) ∧
        heap w' !! b = None ∧
        load r w' = Ok (if by_move then moved item else item) w' ∧
        (∀ b', b' ≠ b → b' ≠ fresh (dom (heap w)) → (∀ off, r ≠ Ptr b' off) →
               heap w' !! b' = heap w !! b') ∧
        (∀ o, o ≠ this → vecs w' !! o = vecs w !! o) ∧
        arrs w' = arrs w.
Proof.
  destruct w as [h a vs f]. cbn [fault heap vecs arrs].
  intros -> Hvalid Hobs Hbuf (rb & ro & rblk & -> & Hr & Hx)%load_inv Hout.
  apply post_unit.
  destruct (valid_observe _ _ _ _ _ _ _ _ Hvalid Hobs)
    as [_ [(c' & Hv & -> & _ & ->)|(c' & b0 & blk & Hv & Hb & Hlen & ->)]];
    rewrite (buffer_eq _ _ _ _ _ _ _ _ _ Hv) in Hbuf; simplify_eq.
  assert (rb ≠ b) as Hrb by (by eapply outside_Ptr).
  assert (fresh (dom h) ≠ b) as Hnb by neq.
  assert (b ≠ fresh (dom h)) as Hbn by done.
  assert (fresh (dom h) ≠ rb) as Hnr by neq.
  assert (rb ≠ fresh (dom h)) as Hrn by done.
  assert (∀ b', (∀ off, Ptr rb ro ≠ Ptr b' off) → b' ≠ rb) as Hother.
  { intros b' Hb' ->. by eapply Hb'. }
  destruct by_move.
  - destruct (decide (s = 0)) as [->|Hs].
    + sv_run. rewrite (decide_True (P:=0 = 0)) by done. sv_run.
      split_and!; [eapply buffer_eq; lookup|by lookups| | | |same_map].
      * eapply load_moved; [lookup|done].
      * intros b' ? ? ?%Hother. by lookups.
      * intros o ?. by lookups.
    + sv_run. rewrite (decide_False (P:=s = 0)) by done. sv_run.
      split_and!; [eapply buffer_eq; lookup|by lookups| | | |same_map].
      * eapply load_moved; [lookup|done].
      * intros b' ? ? ?%Hother. by lookups.
      * intros o ?. by lookups.
  - sv_run.
    assert (((s * 2) `max` (s + 1)) `min` s = s) as -> by lia.
    sv_run.
    split_and!; [eapply buffer_eq; lookup|by lookups| | | |same_map].
    + eapply run_load; [lookup|done].
    + intros b' ? ? _. by lookups.
    + intros o ?. by lookups.
Qed.
(** X12.  [Reserve(n)] keeps the size and the elements.  With
    [n <= capacity] it does nothing at all; with [n > capacity] the capacity
    becomes [n], the elements sit in a new block and the old block is
    freed. *)
Theorem Reserve_grows_capacity w (this : positive) s c xs n :
  fault w = None → valid w this → observe w this = Some (s, c, xs) →
  ∃ w', SimpleVector.Reserve this n w = Ok tt w' ∧
        observe w' this = Some (s, c `max` n, xs) ∧
        valid w' this ∧ fault w' = None ∧
        (n ≤ c → w' = w) ∧
        (c < n → buffer w' this = Some (Ptr (fresh (dom (heap w))) 0) ∧
                 ∀ b, buffer w this = Some (Ptr b 0) → heap w' !! b = None).
Proof.
  destruct w as [h a vs f]. cbn [fault heap]. intros -> Hvalid Hobs.
  apply post_unit.
  destruct (decide (n ≤ c)) as [Hn|Hn].
  { destruct (observe_inv _ _ _ _ _ Hobs) as (q & c' & Hv & _). cbn [vecs] in Hv.
    sv_run. rewrite Nat.max_l by done.
    split_and!; [done..|]. intros ?. exfalso. lia. }
  rewrite Nat.max_r by lia.
  destruct (valid_observe _ _ _ _ _ _ _ _ Hvalid Hobs)
    as [Hsc [(c' & Hv & -> & -> & ->)|(c' & b & blk & Hv & Hb & Hlen & ->)]].
  - sv_run. split_and!; [| |done|intros ?; exfalso; lia|].
    + erewrite observe_Ptr; [|lookup|lookup|len]. by rewrite take_0.
    + eapply valid_Ptr; [lookup|lookup|lia|len].
    + intros _. split; [eapply buffer_eq; lookup|].
      intros b Hbuf. rewrite (buffer_eq _ _ _ _ _ _ _ _ _ Hv) in Hbuf. done.
  - assert (fresh (dom h) ≠ b) as Hnb by neq.
    assert (b ≠ fresh (dom h)) as Hbn by done.
    sv_run. split_and!; [| |done|intros ?; exfalso; lia|].
    + erewrite observe_Ptr; [|lookup|lookup|len].
      rewrite take_0, drop_0. cbn [app].
      rewrite take_app_length' by len. done.
    + eapply valid_Ptr; [lookup|lookup|lia|len].
    + intros _. split; [eapply buffer_eq; lookup|].
      intros b' Hbuf. rewrite (buffer_eq _ _ _ _ _ _ _ _ _ Hv) in Hbuf. simplify_eq.
      cbn [heap]. by rewrite lookup_delete_eq.
Qed.
End growth.

(** *** [swap], copy assignment and [Insert] within the capacity *)

Section exchange.
Context {T : Type} `{!Elem T}.
Implicit Types (w : World T) (h : gmap positive (list T)) (blk xs : list T).

Lemma run_swap h ar vs f (a b : positive) va vb :
  a ≠ b → vs !! a = Some va → vs !! b = Some vb →
  SimpleVector.swap a b (mkWorld h ar vs f) =
    Ok tt (mkWorld h ar (<[b := va]> (<[a := vb]> vs)) f).
Proof.
  intros Hne Ha Hb. destruct va as [[pa ca] sa ka], vb as [[pb cb] sb kb].
  apply post_eq. run. f_equal. f_equal.
  apply map_eq. intros i.
  destruct (decide (i = b)) as [->|Hib]; [lookup|].
  destruct (decide (i = a)) as [->|Hia]; lookup.
Qed.

(** X13.  [a.swap(b)] exchanges what the two vectors show (size, capacity,
    elements) and their buffers, moves no element (the heap is unchanged),
    touches no other vector, cannot throw whatever is armed, and swapping
    again restores the state exactly. *)
Theorem swap_exchanges_vectors w (a b : positive) :
  a ≠ b → is_Some (vecs w !! a) → is_Some (vecs w !! b) →
  ∃ w', SimpleVector.swap a b w = Ok tt w' ∧
        observe w' a = observe w b ∧ buffer w' a = buffer w b ∧
        observe w' b = observe w a ∧ buffer w' b = buffer w a ∧
        (∀ o, o ≠ a → o ≠ b → vecs w' !! o = vecs w !! o) ∧
        heap w' = heap w ∧ arrs w' = arrs w ∧ fault w' = fault w ∧
        SimpleVector.swap a b w' = Ok tt w.
Proof.
  destruct w as [h ar vs f]. cbn [vecs]. intros Hne [va Ha] [vb Hb].
  eexists. split; [by apply run_swap|].
  destruct (observe_same_members h ar vs f h ar (<[b := va]> (<[a := vb]> vs)) f b a)
    as [Hoa Hba]; [done|by rewrite lookup_insert_ne, lookup_insert_eq, Hb|].
  destruct (observe_same_members h ar vs f h ar (<[b := va]> (<[a := vb]> vs)) f a b)
    as [Hob Hbb]; [done|by rewrite lookup_insert_eq, Ha|].
  split_and!; [done..| |done|done|done|].
  - intros o Hoa' Hob'. cbn [vecs]. by rewrite !lookup_insert_ne.
  - rewrite (run_swap _ _ _ _ a b vb va); [|done|by rewrite lookup_insert_ne, lookup_insert_eq
                                           |by rewrite lookup_insert_eq].
    f_equal. f_equal. apply map_eq. intros i.
    destruct (decide (i = b)) as [->|Hib]; [by rewrite lookup_insert_eq|].
    destruct (decide (i = a)) as [->|Hia]; [|lookup].
    by rewrite lookup_insert_ne, lookup_insert_eq.
Qed.
(** The copy constructor on a valid source. *)
Lemma ctor_copy_post h a vs (other : positive) s c xs :
  valid (mkWorld h a vs None) other →
  observe (mkWorld h a vs None) other = Some (s, c, xs) →
  post (SimpleVector.declare (λ o, SimpleVector.ctor_copy o other) (mkWorld h a vs None))
    (λ this w',
       this ≠ other ∧ vs !! this = None ∧
       observe w' this = Some (s, s, xs) ∧ valid w' this ∧
       observe w' other = Some (s, c, xs) ∧ valid w' other ∧ fault w' = None).
Proof.
  intros Hvalid Hobs.
  destruct (valid_observe _ _ _ _ _ _ _ _ Hvalid Hobs)
    as [Hsc [(c' & Hv & -> & -> & ->)|(c' & b & blk & Hv & Hb & Hlen & ->)]].
  - sv_run.
    split_and!; [neq|lookup|eapply observe_Null; lookup|eapply valid_Null; lookup
                |eapply observe_Null; lookup|eapply valid_Null; lookup|done].
  - destruct (decide (s = 0)) as [->|Hs].
    + sv_run.
      split_and!; [neq|lookup|rewrite take_0; eapply observe_Null; lookup
                  |eapply valid_Null; lookup
                  |eapply observe_Ptr; [lookup|lookup|lia]
                  |eapply valid_Ptr; [lookup|lookup|lia|lia]|done].
    + assert (fresh (dom h) ≠ b) as Hnb by neq.
      sv_run.
      split_and!; [neq|lookup| | |eapply observe_Ptr; [lookup|lookup|lia]
                  |eapply valid_Ptr; [lookup|lookup|lia|lia]|done].
      * erewrite observe_Ptr; [|lookup|lookup|len].
        rewrite take_0, drop_0. cbn [app].
        rewrite take_app_length' by len. done.
      * eapply valid_Ptr; [lookup|lookup|lia|len].
Qed.

(** X14.  Copy assignment from another, non-empty vector: [this] shows the
    elements and the size of [rhs] with capacity equal to that size, in a new
    block, [rhs] is as it was, and the block [this] had is freed. *)
Theorem copy_assign_copies w (this rhs : positive) s c xs n d ys :
  fault w = None → valid w this → valid w rhs → rhs ≠ this →
  observe w this = Some (s, c, xs) → observe w rhs = Some (n, d, ys) → 0 < n →
  buffer w this ≠ buffer w rhs →
  ∃ w', SimpleVector.copy_assign this rhs w = Ok tt w' ∧
        observe w' this = Some (n, n, ys) ∧ valid w' this ∧
        observe w' rhs = Some (n, d, ys) ∧ valid w' rhs ∧
        buffer w' this = Some (Ptr (fresh (dom (heap w))) 0) ∧
        buffer w' rhs = buffer w rhs ∧
        fault w' = None ∧
        (∀ b, buffer w this = Some (Ptr b 0) → heap w' !! b = None).
Proof.
  destruct w as [h a vs f]. cbn [fault heap].
  intros -> Hthis Hrhs Hne Hobs Hobsr Hn Halias.
  apply post_unit.
  destruct (valid_observe _ _ _ _ _ _ _ _ Hrhs Hobsr)
    as [Hnd [(d' & Hr & -> & _)|(d' & br & src & Hr & Hbr & Hlenr & ->)]]; [lia|].
  assert (fresh (dom h) ≠ br) as Hnb by neq.
  destruct (valid_observe _ _ _ _ _ _ _ _ Hthis Hobs)
    as [Hsc [(c' & Hv & -> & -> & ->)|(c' & b & blk & Hv & Hb & Hlen & ->)]].
  - sv_run.
    split_and!; [| |eapply observe_Ptr; [lookup|lookup|lia]
                |eapply valid_Ptr; [lookup|lookup|lia|lia]
                |eapply buffer_eq; lookup
                |rewrite (buffer_eq _ _ _ _ _ _ _ _ _ Hr); eapply buffer_eq; lookup
                |done|].
    + erewrite observe_Ptr; [|lookup|lookup|len].
      rewrite take_0, drop_0. cbn [app]. rewrite take_app_length' by len. done.
    + eapply valid_Ptr; [lookup|lookup|lia|len].
    + intros b Hbuf. rewrite (buffer_eq _ _ _ _ _ _ _ _ _ Hv) in Hbuf. done.
  - assert (b ≠ br) as Hbb.
    { intros ->. apply Halias.
      by rewrite (buffer_eq _ _ _ _ _ _ _ _ _ Hv), (buffer_eq _ _ _ _ _ _ _ _ _ Hr). }
    assert (fresh (dom h) ≠ b) as Hnb' by neq.
    sv_run.
    split_and!; [| |eapply observe_Ptr; [lookup|lookup|lia]
                |eapply valid_Ptr; [lookup|lookup|lia|lia]
                |eapply buffer_eq; lookup
                |rewrite (buffer_eq _ _ _ _ _ _ _ _ _ Hr); eapply buffer_eq; lookup
                |done|].
    + erewrite observe_Ptr; [|lookup|lookup|len].
      rewrite take_0, drop_0. cbn [app]. rewrite take_app_length' by len. done.
    + eapply valid_Ptr; [lookup|lookup|lia|len].
    + intros b' Hbuf. rewrite (buffer_eq _ _ _ _ _ _ _ _ _ Hv) in Hbuf. simplify_eq.
      cbn [heap]. by rewrite lookup_delete_eq.
Qed.
(** X15.  [Insert], by copy or by move, of an object that is no element of
    the vector, on a vector with spare capacity, does not reallocate: the
    capacity and the buffer are unchanged, no block is allocated or freed,
    the value lands at [pos] with the tail one slot further, and the iterator
    returned is [pos] itself.  The argument is as it was after a copy and
    moved-from after a move. *)
Theorem Insert_within_capacity_keeps_buffer (by_move : bool) w (this : positive)
    s c xs p k r value :
  fault w = None → valid w this →
  observe w this = Some (s, c, xs) → buffer w this = Some p → k ≤ s → s < c →
  load r w = Ok value w → outside w this r →
  ∃ w', (if by_move then SimpleVector.Insert_move else SimpleVector.Insert_copy)
          this (p +ₚ k) r w = Ok (p +ₚ k) w' ∧
        observe w' this = Some (s + 1, c, take k xs ++ value :: drop k xs) ∧
        buffer w' this = Some p ∧ valid w' this ∧
        dom (heap w') = dom (heap w) ∧
        load r w' = Ok (if by_move then moved value else value) w'.
Proof.
  destruct w as [h a vs f]. cbn [fault].
  intros -> Hvalid Hobs Hbuf Hk Hsc (rb & ro & rblk & -> & Hr & Hx)%load_inv Hout.
  destruct (valid_observe _ _ _ _ _ _ _ _ Hvalid Hobs)
    as [_ [(c' & Hv & -> & -> & ->)|(c' & b & blk & Hv & Hb & Hlen & ->)]]; [lia|].
  rewrite (buffer_eq _ _ _ _ _ _ _ _ _ Hv) in Hbuf. simplify_eq. cbn [padd Nat.add].
  assert (rb ≠ b) as Hrb by (by eapply outside_Ptr).
  cut (post ((if by_move then SimpleVector.Insert_move else SimpleVector.Insert_copy)
               this (Ptr b k) (Ptr rb ro) (mkWorld h a vs None)) (λ it w',
         it = Ptr b k ∧
         observe w' this =
           Some (s + 1, c, take k (take s blk) ++ value :: drop k (take s blk)) ∧
         buffer w' this = Some (Ptr b 0) ∧ valid w' this ∧ dom (heap w') = dom h ∧
         load (Ptr rb ro) w' = Ok (if by_move then moved value else value) w')).
  { intros (it & w' & ? & -> & ?)%post_Ok. eauto. }
  destruct (run_shift_right (negb by_move) h a vs b blk k s) as (blk' & Hrun & Hl & Hins);
    [done|done|lia|].
  assert (dom (<[b := <[k := value]> blk']> (<[b := blk']> h)) = dom h) as Hdom.
  { rewrite insert_insert_eq. apply dom_insert_lookup_L. eauto. }
  destruct by_move; cbn [negb] in Hrun;
    unfold SimpleVector.Insert_move, SimpleVector.Insert_copy; run;
    rewrite Hrun; run.
  - rewrite (run_move_elem_at _ _ _ b k blk' rb ro rblk value);
      [|done|lookup|done|lookup|lia].
    run. rewrite Hins.
    split_and!.
    + done.
    + erewrite observe_Ptr; [|lookup|lookup|rewrite length_inserted by lia; lia].
      by rewrite take_inserted by lia.
    + eapply buffer_eq; lookup.
    + eapply valid_Ptr;
        [lookup|lookup|lia|rewrite length_inserted, length_drop by lia; lia].
    + cbn [heap]. rewrite dom_insert_lookup_L; [by rewrite <- Hins|].
      rewrite lookup_insert_ne by done. rewrite lookup_insert_ne by done. eauto.
    + eapply load_moved; [lookup|done].
  - rewrite (run_copy_elem_at _ _ _ b k blk' rb ro rblk value);
      [|lookup|done|lookup|lia].
    run. rewrite Hins.
    split_and!.
    + done.
    + erewrite observe_Ptr; [|lookup|lookup|rewrite length_inserted by lia; lia].
      by rewrite take_inserted by lia.
    + eapply buffer_eq; lookup.
    + eapply valid_Ptr;
        [lookup|lookup|lia|rewrite length_inserted, length_drop by lia; lia].
    + by rewrite <- Hins.
    + eapply run_load; [lookup|done].
Qed.

(** X29.  For a valid vector of [s] elements [xs], an offset [k <= s] and
    an object that can be read and is no element of the vector,
    [Insert(begin() + k, object)], by copy or by move, returns normally; the
    vector then holds [s + 1] elements: the object's value at offset [k], the
    elements formerly at [[k, s)] at [[k + 1, s + 1)] in the same order, and
    the elements before [k] unchanged.  The iterator returned is
    [begin() + k] in the buffer the vector has afterwards. *)
Theorem Insert_of_outside_object_places_value (by_move : bool) w (this : positive)
    s c xs p k r value :
  fault w = None → valid w this →
  observe w this = Some (s, c, xs) → buffer w this = Some p → k ≤ s →
  load r w = Ok value w → outside w this r →
  ∃ it w' c' p' xs',
    (if by_move then SimpleVector.Insert_move else SimpleVector.Insert_copy)
      this (p +ₚ k) r w = Ok it w' ∧
    observe w' this = Some (s + 1, c', xs') ∧
    xs' = take k xs ++ value :: drop k xs ∧
    inserted_at xs k value xs' ∧
    buffer w' this = Some p' ∧ it = p' +ₚ k ∧ valid w' this.
Proof.
  destruct w as [h a vs f]. cbn [fault]. intros -> Hvalid Hobs Hbuf Hk Hload Hout.
  assert (length xs = s) as Hxs.
  { by destruct (observe_shape _ _ _ _ _ _ _ _ Hobs). }
  destruct (post_Ok _ _ (Insert_establishes by_move h a vs this s c xs p k r value
                           Hvalid Hobs Hbuf Hk Hload Hout))
    as (it & w' & Hrun & c' & p' & Ho & Hb & Hit & Hv).
  exists it, w', c', p', (take k xs ++ value :: drop k xs).
  split_and!; try done. apply inserted_at_intro. lia.
Qed.
End exchange.

(** *** Operations in sequence *)

Section sequences_quiet.
Context {T : Type} `{!Elem T}.
Implicit Types (w : World T) (h : gmap positive (list T)) (blk xs : list T).

Lemma quiet_ret {A} (x : A) : @quiet T _ (mret x).
Proof. intros w a w' Hf [= <- <-]. done. Qed.

Lemma quiet_bind {A B} (m : M T A) (k : A → M T B) :
  quiet m → (∀ x, @quiet T _ (k x)) → @quiet T _ (m ≫= k).
Proof.
  intros Hm Hk w b w'' Hf. unfold mbind, M_bind, bind.
  destruct (m w) as [x w'| |] eqn:Em; [|done..].
  intros Ek. eapply Hk; [|done]. by eapply Hm.
Qed.

Lemma quiet_state {A} (m : M T A) :
  (∀ w a w', m w = Ok a w' → fault w' = fault w) → quiet m.
Proof. intros Hm w a w' Hf Em. by rewrite (Hm _ _ _ Em). Qed.

Lemma quiet_undef {A} : @quiet T _ (undef : M T A).
Proof. by intros w a w' Hf. Qed.

Lemma quiet_fallible : @quiet T _ fallible.
Proof.
  intros w a w' Hf. unfold fallible. rewrite Hf. by intros [= <- <-].
Qed.

Lemma quiet_assert b : @quiet T _ (assert_ b).
Proof. destruct b as [[]|]; [apply quiet_ret|apply quiet_undef..]. Qed.

Lemma quiet_get_vec o : @quiet T _ (get_vec o).
Proof.
  apply quiet_state. intros w a w'. unfold get_vec.
  destruct (vecs w !! o); [|done]. by intros [= <- <-].
Qed.

Lemma quiet_put_vec o v : @quiet T _ (put_vec o v).
Proof. apply quiet_state. intros w a w'. unfold put_vec. by intros [= <- <-]. Qed.

Lemma quiet_get_arr p : @quiet T _ (get_arr p).
Proof.
  apply quiet_state. intros w a w'. unfold get_arr. destruct p as [o|l].
  - destruct (vecs w !! o); [|done]. by intros [= <- <-].
  - destruct (arrs w !! l); [|done]. by intros [= <- <-].
Qed.

Lemma quiet_put_arr p x : @quiet T _ (put_arr p x).
Proof.
  apply quiet_state. intros w a w'. unfold put_arr. destruct p as [o|l].
  - destruct (vecs w !! o); [|done]. by intros [= <- <-].
  - by intros [= <- <-].
Qed.

Lemma quiet_load p : @quiet T _ (load p).
Proof.
  apply quiet_state. intros w a w'. unfold load. destruct p as [|b off]; [done|].
  destruct (heap w !! b) as [blk|]; [|done].
  destruct (blk !! off); [|done]. by intros [= <- <-].
Qed.

Lemma quiet_store p x : @quiet T _ (store p x).
Proof.
  apply quiet_state. intros w a w'. unfold store. destruct p as [|b off]; [done|].
  destruct (heap w !! b) as [blk|]; [|done].
  case_decide; [|done]. by intros [= <- <-].
Qed.

Lemma quiet_range p q : @quiet T _ (range p q).
Proof.
  apply quiet_state. intros w a w'. unfold range.
  destruct (pdiff q p); [|done]. by intros [= <- <-].
Qed.

Lemma quiet_fresh_block n : @quiet T _ (fresh_block n).
Proof. apply quiet_state. intros w a w'. unfold fresh_block. by intros [= <- <-]. Qed.

Lemma quiet_delete_array p : @quiet T _ (delete_array p).
Proof.
  apply quiet_state. intros w a w'. unfold delete_array.
  destruct p as [|b [|off]]; [by intros [= <- <-]| |done].
  destruct (heap w !! b); [|done]. by intros [= <- <-].
Qed.

Lemma quiet_arr_forget l : @quiet T _ (ArrayPtr.forget l).
Proof. apply quiet_state. intros w a w'. unfold ArrayPtr.forget. by intros [= <- <-]. Qed.

Lemma quiet_vec_forget o : @quiet T _ (SimpleVector.forget o).
Proof. apply quiet_state. intros w a w'. unfold SimpleVector.forget. by intros [= <- <-]. Qed.

Lemma quiet_times n (m : M T unit) : quiet m → @quiet T _ (times n m).
Proof.
  intros Hm. induction n as [|n IH]; [apply quiet_ret|].
  cbn [times]. by apply quiet_bind.
Qed.

Lemma quiet_forward step n :
  (∀ d s, @quiet T _ (step d s)) → ∀ p q, @quiet T _ (forward step n p q).
Proof.
  intros Hs. induction n as [|n IH]; intros p q; [apply quiet_ret|].
  cbn [forward]. apply quiet_bind; [apply Hs|]. intros _. apply IH.
Qed.

Lemma quiet_backward step n :
  (∀ d s, @quiet T _ (step d s)) → ∀ p q, @quiet T _ (backward step n p q).
Proof.
  intros Hs. induction n as [|n IH]; intros p q; [apply quiet_ret|].
  cbn [backward]. apply quiet_bind; [apply Hs|]. intros _. apply IH.
Qed.

Lemma quiet_on_unwind {A} (m : M T A) c : quiet m → @quiet T _ (on_unwind m c).
Proof.
  intros Hm w a w' Hf. unfold on_unwind.
  destruct (m w) as [x w1|w1|] eqn:Em; [|by destruct (c w1)|done].
  intros [= <- <-]. by eapply Hm.
Qed.

(** A computation that reads the state to choose what to run. *)
Lemma quiet_reading {A B} (g : World T → B) (F : B → M T A) :
  (∀ x, @quiet T _ (F x)) → @quiet T _ (λ w, F (g w) w).
Proof. intros HF w a w' Hf E. by eapply HF. Qed.

End sequences_quiet.

Ltac quiet_step :=
  lazy beta zeta;
  first
    [ apply quiet_ret | apply quiet_undef | apply quiet_fallible | apply quiet_assert
    | apply quiet_get_vec | apply quiet_put_vec | apply quiet_get_arr | apply quiet_put_arr
    | apply quiet_load | apply quiet_store | apply quiet_range | apply quiet_fresh_block
    | apply quiet_delete_array | apply quiet_arr_forget | apply quiet_vec_forget
    | apply quiet_bind; [|intros ?]
    | apply quiet_times
    | apply quiet_forward; intros ? ?
    | apply quiet_backward; intros ? ?
    | apply quiet_on_unwind
    | lazymatch goal with
      | |- quiet (if decide ?P then _ else _) => destruct (decide P)
      | |- quiet (if ?b then _ else _) => destruct b
      | |- quiet (ArrayPtr.local ?c ?k) =>
          unfold ArrayPtr.local at 1;
          apply (quiet_reading (λ w, fresh (dom (arrs w)))
                   (λ l, put_arr (Local l) AP.init;;
                         on_unwind (c (Local l)) (ArrayPtr.forget l);;
                         at_exit (k (Local l)) (ArrayPtr.dtor (Local l);; ArrayPtr.forget l)));
          intros ?
      | |- quiet (at_exit _ _) => unfold at_exit at 1
      | |- quiet (new_array _) => unfold new_array at 1
      | |- quiet (assign _ _) => unfold assign at 1
      | |- quiet (copy_elem _ _) => unfold copy_elem at 1
      | |- quiet (move_elem _ _) => unfold move_elem at 1
      | |- quiet (std_copy _ _ _) => unfold std_copy at 1
      | |- quiet (std_move _ _ _) => unfold std_move at 1
      | |- quiet (std_copy_backward _ _ _) => unfold std_copy_backward at 1
      | |- quiet (std_move_backward _ _ _) => unfold std_move_backward at 1
      | |- quiet (ArrayPtr.set_raw_ptr _ _) => unfold ArrayPtr.set_raw_ptr at 1
      | |- quiet (ArrayPtr.set_capacity _ _) => unfold ArrayPtr.set_capacity at 1
      | |- quiet (ArrayPtr.Get _) => unfold ArrayPtr.Get at 1
      | |- quiet (ArrayPtr.index _ _) => unfold ArrayPtr.index at 1
      | |- quiet (ArrayPtr.ctor_size _ _) => unfold ArrayPtr.ctor_size at 1
      | |- quiet (ArrayPtr.swap _ _) => unfold ArrayPtr.swap at 1
      | |- quiet (ArrayPtr.move_assign _ _) => unfold ArrayPtr.move_assign at 1
      | |- quiet (ArrayPtr.dtor _) => unfold ArrayPtr.dtor at 1
      | |- quiet (SimpleVector.set_size _ _) => unfold SimpleVector.set_size at 1
      | |- quiet (SimpleVector.set_capacity _ _) => unfold SimpleVector.set_capacity at 1
      | |- quiet (SimpleVector.begin _) => unfold SimpleVector.begin at 1
      | |- quiet (SimpleVector.cbegin _) => unfold SimpleVector.cbegin at 1
      | |- quiet (SimpleVector.end_ _) => unfold SimpleVector.end_ at 1
      | |- quiet (SimpleVector.cend _) => unfold SimpleVector.cend at 1
      | |- quiet (SimpleVector.Insert_copy _ _ _) => unfold SimpleVector.Insert_copy at 1
      | |- quiet (SimpleVector.Insert_move _ _ _) => unfold SimpleVector.Insert_move at 1
      end ].

Section sequences.
Context {T : Type} `{!Elem T}.
Implicit Types (w : World T) (h : gmap positive (list T)) (blk xs : list T).

Lemma quiet_Insert (by_move : bool) (this : positive) pos value :
  @quiet T _ ((if by_move then SimpleVector.Insert_move else SimpleVector.Insert_copy)
           this pos value).
Proof. destruct by_move; repeat quiet_step. Qed.

Lemma erase_inserted xs k (value : T) :
  k ≤ length xs →
  take k (take k xs ++ value :: drop k xs) ++ drop (S k) (take k xs ++ value :: drop k xs) = xs.
Proof.
  intros Hk. assert (length (take k xs) = k) as Hl by (rewrite length_take; lia).
  rewrite take_app_length' by done.
  replace (S k) with (k + 1) by lia.
  rewrite (drop_app_add' _ _ k) by done. cbn [drop].
  by rewrite drop_0, take_drop.
Qed.

(** X16.  Erasing at the iterator that [Insert] returned undoes the
    insertion: the vector shows the size and the elements it had before.
    The argument of [Insert(pos, const Type&)] is any object that can be
    read, an element of the vector too; the argument of
    [Insert(pos, Type&&)], which is moved from, is no element of the
    vector. *)
Theorem Insert_then_Erase_restores (by_move : bool) w (this : positive) s c xs p k r value :
  fault w = None → valid w this →
  observe w this = Some (s, c, xs) → buffer w this = Some p → k ≤ s →
  load r w = Ok value w → (by_move = true → outside w this r) →
  ∃ it w1 w2 c',
    (if by_move then SimpleVector.Insert_move else SimpleVector.Insert_copy)
      this (p +ₚ k) r w = Ok it w1 ∧
    SimpleVector.Erase this it w1 = Ok it w2 ∧
    observe w2 this = Some (s, c', xs) ∧ valid w2 this.
Proof.
  destruct w as [h a vs f]. cbn [fault]. intros -> Hvalid Hobs Hbuf Hk Hload Hout.
  assert (length xs = s) as Hxs.
  { by destruct (observe_shape _ _ _ _ _ _ _ _ Hobs). }
  assert (∃ value',
    post ((if by_move then SimpleVector.Insert_move else SimpleVector.Insert_copy)
            this (p +ₚ k) r (mkWorld h a vs None))
         (Insert_post this s k xs value')) as [value' Hpost].
  { destruct by_move.
    - exists value. by eapply (Insert_establishes true); [..|apply Hout].
    - by eapply Insert_copy_establishes. }
  destruct (post_Ok _ _ Hpost)
    as (it & w1 & Hins & c1 & p1 & Hobs1 & Hbuf1 & -> & Hvalid1).
  assert (fault w1 = None) as Hf1.
  { exact (quiet_Insert by_move this (p +ₚ k) r (mkWorld h a vs None) _ _ eq_refl Hins). }
  destruct w1 as [h1 a1 vs1 f1]. cbn [fault] in Hf1. subst f1.
  destruct (valid_observe _ _ _ _ _ _ _ _ Hvalid1 Hobs1)
    as [Hsc [(c' & Hv & ? & _)|(c' & b & blk & Hv & Hb & Hlen & Hxs')]]; [lia|].
  rewrite (buffer_eq _ _ _ _ _ _ _ _ _ Hv) in Hbuf1.
  assert (p1 = Ptr b 0) as -> by congruence. cbn [padd Nat.add] in *.
  assert (k < s + 1) as Hk1 by lia.
  destruct (post_Ok _ _ (Erase_in_place h1 a1 vs1 this b c' (s + 1) c1 blk k
                           Hv Hb Hlen Hsc Hk1))
    as (it & w2 & Hrun & -> & Hobs2 & _ & Hvalid2 & _).
  exists (Ptr b k), (mkWorld h1 a1 vs1 None), w2, c1.
  split_and!; [done..| |done].
  rewrite Hobs2, <- Hxs', erase_inserted by lia.
  by replace (s + 1 - 1) with s by lia.
Qed.

(** X17.  [PopBack] after [PushBack] restores the size and the elements;
    the capacity does not shrink back.  The argument is an object that can
    be read and, by move, no element of the vector. *)
Theorem PushBack_then_PopBack_restores (by_move : bool) w (this : positive) s c xs r item :
  fault w = None → valid w this → observe w this = Some (s, c, xs) →
  load r w = Ok item w → (by_move = true → outside w this r) →
  ∃ w1 w2 c',
    (if by_move then SimpleVector.PushBack_move else SimpleVector.PushBack_copy)
      this r w = Ok tt w1 ∧
    SimpleVector.PopBack this w1 = Ok tt w2 ∧
    observe w2 this = Some (s, c', xs) ∧ c ≤ c'.
Proof.
  destruct w as [h a vs f]. cbn [fault].
  intros -> Hvalid Hobs (rb & ro & rblk & -> & Hr & Hx)%load_inv Hout.
  assert (length xs = s) as Hxs.
  { by destruct (observe_shape _ _ _ _ _ _ _ _ Hobs). }
  set (c1 := if decide (s < c) then c else (c * 2) `max` (s + 1)).
  assert (∃ w1,
    (if by_move then SimpleVector.PushBack_move else SimpleVector.PushBack_copy)
      this (Ptr rb ro) (mkWorld h a vs None) = Ok tt w1 ∧
    observe w1 this = Some (s + 1, c1, xs ++ [item])) as (w1 & Hpush & Hobs1).
  { destruct by_move.
    - destruct (post_unit _ _ (PushBack_move_post h a vs this s c xs rb ro rblk item
                                 Hvalid Hobs Hr Hx (Hout eq_refl)))
        as (w1 & ? & ? & _). eauto.
    - destruct (post_unit _ _ (PushBack_copy_post h a vs this s c xs rb ro rblk item
                                 Hvalid Hobs Hr Hx))
        as (w1 & ? & ? & _). eauto. }
  destruct w1 as [h1 a1 vs1 f1].
  destruct (observe_inv _ _ _ _ _ Hobs1) as (q & c' & Hv & _). cbn [vecs] in Hv.
  exists (mkWorld h1 a1 vs1 f1). eexists. exists c1.
  split_and!; [done|by eapply run_PopBack| |unfold c1; case_decide; lia].
  erewrite observe_shorter; [|done|done|lia].
  replace (s + 1 - 1) with s by lia.
  by rewrite take_app_length' by done.
Qed.
End sequences.

(** *** The comparison operators *)

Section comparisons.
Context {T : Type} `{!Elem T} `{!Comparable T}.
Implicit Types (w : World T) (h : gmap positive (list T)) (blk xs ys : list T).

Lemma equal_lists_Forall2 xs ys :
  length xs = length ys →
  equal_lists xs ys = true ↔ Forall2 (λ x y, eq_elem x y = true) xs ys.
Proof.
  revert ys. induction xs as [|x xs IH]; intros [|y ys] Hl; try done.
  cbn [equal_lists length] in *. destruct (eq_elem x y) eqn:E.
  - rewrite IH by lia. split.
    + by constructor.
    + by intros [_ ?]%Forall2_cons.
  - split; [done|]. intros [? _]%Forall2_cons. congruence.
Qed.

Lemma less_lists_spec xs ys :
  less_lists xs ys = true ↔ lexicographically_less xs ys.
Proof.
  revert ys. induction xs as [|x xs IH]; intros [|y ys].
  - split; [done|]. intros (k & _ & Hk & _ & [[-> ?]|(x & y & ? & _)]); cbn in *; [lia|done].
  - split; [|done]. intros _. exists 0. split_and!; [intros; lia|cbn; lia..|].
    left. cbn. lia.
  - split; [done|]. intros (k & _ & _ & Hk & [[_ ?]|(x' & y & _ & ? & _)]); cbn in *; [lia|done].
  - cbn [less_lists]. destruct (lt_elem x y) eqn:Hxy.
    { split; [|done]. intros _. exists 0. split_and!; [intros; lia|cbn; lia..|].
      right. by exists x, y. }
    destruct (lt_elem y x) eqn:Hyx.
    { split; [done|]. intros (k & Hpre & Hk1 & Hk2 & Hat). destruct k as [|k].
      - destruct Hat as [[? _]|(x' & y' & ? & ? & ?)]; [done|]. cbn in *. congruence.
      - destruct (Hpre 0 x y) as [_ ?]; [lia|done|done|]. congruence. }
    rewrite IH. split.
    + intros (k & Hpre & Hk1 & Hk2 & Hat). exists (S k). split_and!.
      * intros [|j] x' y' Hj Hx' Hy'; cbn in *; [by simplify_eq|].
        eapply (Hpre j); [lia|done..].
      * cbn. lia.
      * cbn. lia.
      * destruct Hat as [[-> ?]|?]; [left; cbn; lia|by right].
    + intros (k & Hpre & Hk1 & Hk2 & Hat). destruct k as [|k].
      { destruct Hat as [[? _]|(x' & y' & ? & ? & ?)]; [done|]. cbn in *. congruence. }
      exists k. split_and!.
      * intros j x' y' Hj Hx' Hy'. eapply (Hpre (S j)); [lia|done..].
      * cbn in Hk1. lia.
      * cbn in Hk2. lia.
      * destruct Hat as [[? ?]|?]; [left; cbn in *; lia|by right].
Qed.

Lemma run_equal_elems w b1 blk1 i x b2 blk2 j y :
  fault w = None → heap w !! b1 = Some blk1 → blk1 !! i = Some x →
  heap w !! b2 = Some blk2 → blk2 !! j = Some y →
  equal_elems (Ptr b1 i) (Ptr b2 j) w = Ok (eq_elem x y) w.
Proof.
  intros Hf H1 Hx H2 Hy. unfold equal_elems.
  rewrite (bind_Ok _ _ _ _ _ (run_load _ _ _ _ _ H1 Hx)).
  rewrite (bind_Ok _ _ _ _ _ (run_load _ _ _ _ _ H2 Hy)).
  by rewrite (bind_Ok _ _ _ _ _ (run_fallible _ Hf)).
Qed.

Lemma run_less_elems w b1 blk1 i x b2 blk2 j y :
  fault w = None → heap w !! b1 = Some blk1 → blk1 !! i = Some x →
  heap w !! b2 = Some blk2 → blk2 !! j = Some y →
  less_elems (Ptr b1 i) (Ptr b2 j) w = Ok (lt_elem x y) w.
Proof.
  intros Hf H1 Hx H2 Hy. unfold less_elems.
  rewrite (bind_Ok _ _ _ _ _ (run_load _ _ _ _ _ H1 Hx)).
  rewrite (bind_Ok _ _ _ _ _ (run_load _ _ _ _ _ H2 Hy)).
  by rewrite (bind_Ok _ _ _ _ _ (run_fallible _ Hf)).
Qed.

Lemma run_equal_loop w b1 blk1 b2 blk2 n : ∀ i j,
  fault w = None → heap w !! b1 = Some blk1 → heap w !! b2 = Some blk2 →
  i + n ≤ length blk1 → j + n ≤ length blk2 →
  equal_loop n (Ptr b1 i) (Ptr b2 j) w =
    Ok (equal_lists (take n (drop i blk1)) (take n (drop j blk2))) w.
Proof.
  induction n as [|n IH]; intros i j Hf H1 H2 Hi Hj; [done|].
  destruct (lookup_lt_is_Some_2 blk1 i) as [x Hx]; [lia|].
  destruct (lookup_lt_is_Some_2 blk2 j) as [y Hy]; [lia|].
  cbn [equal_loop padd].
  rewrite (bind_Ok _ _ _ _ _ (run_equal_elems _ _ _ _ _ _ _ _ _ Hf H1 Hx H2 Hy)).
  rewrite (drop_S blk1 x i Hx), (drop_S blk2 y j Hy). cbn [take equal_lists].
  destruct (eq_elem x y); [|done].
  rewrite !Nat.add_1_r. apply IH; [done..|lia|lia].
Qed.

Lemma run_lexicographical_loop w b1 blk1 b2 blk2 n1 : ∀ n2 i j,
  fault w = None → heap w !! b1 = Some blk1 → heap w !! b2 = Some blk2 →
  i + n1 ≤ length blk1 → j + n2 ≤ length blk2 →
  lexicographical_loop n1 n2 (Ptr b1 i) (Ptr b2 j) w =
    Ok (less_lists (take n1 (drop i blk1)) (take n2 (drop j blk2))) w.
Proof.
  induction n1 as [|n1 IH]; intros [|n2] i j Hf H1 H2 Hi Hj.
  - done.
  - destruct (lookup_lt_is_Some_2 blk2 j) as [y Hy]; [lia|].
    by rewrite (drop_S blk2 y j Hy).
  - cbn [lexicographical_loop take]. by destruct (take (S n1) (drop i blk1)).
  - destruct (lookup_lt_is_Some_2 blk1 i) as [x Hx]; [lia|].
    destruct (lookup_lt_is_Some_2 blk2 j) as [y Hy]; [lia|].
    cbn [lexicographical_loop padd].
    rewrite (bind_Ok _ _ _ _ _ (run_less_elems _ _ _ _ _ _ _ _ _ Hf H1 Hx H2 Hy)).
    rewrite (drop_S blk1 x i Hx), (drop_S blk2 y j Hy). cbn [take less_lists].
    destruct (lt_elem x y); [done|].
    rewrite (bind_Ok _ _ _ _ _ (run_less_elems _ _ _ _ _ _ _ _ _ Hf H2 Hy H1 Hx)).
    destruct (lt_elem y x); [done|].
    rewrite !Nat.add_1_r. apply IH; [done..|lia|lia].
Qed.

Lemma run_operator_eq w (lhs rhs : positive) s1 c1 xs s2 c2 ys :
  fault w = None →
  observe w lhs = Some (s1, c1, xs) → observe w rhs = Some (s2, c2, ys) →
  operator_eq lhs rhs w = Ok (bool_decide (s1 = s2) && equal_lists xs ys) w.
Proof.
  destruct w as [h a vs f]. cbn [fault]. intros -> Hl Hr. apply post_eq.
  destruct (decide (s1 = s2)) as [<-|Hs].
  2:{ destruct (observe_inv _ _ _ _ _ Hl) as (q1 & k1 & Hv1 & _).
      destruct (observe_inv _ _ _ _ _ Hr) as (q2 & k2 & Hv2 & _). cbn [vecs] in *.
      sv_run. by rewrite bool_decide_eq_false_2. }
  rewrite bool_decide_eq_true_2 by done. cbn [andb].
  destruct (observe_shape _ _ _ _ _ _ _ _ Hl)
    as [Hlen1 [(k1 & Hv1 & -> & ->)|(k1 & b1 & o1 & blk1 & Hv1 & Hb1 & Ho1 & ->)]];
  destruct (observe_shape _ _ _ _ _ _ _ _ Hr)
    as [Hlen2 [(k2 & Hv2 & ? & ->)|(k2 & b2 & o2 & blk2 & Hv2 & Hb2 & Ho2 & ->)]].
  - by sv_run.
  - by sv_run.
  - subst s1. sv_run. rewrite Nat.add_sub'. by sv_run.
  - sv_run. rewrite Nat.add_sub'.
    by rewrite (run_equal_loop _ b1 blk1 b2 blk2 s1 o1 o2) by done.
Qed.

Lemma run_operator_lt w (lhs rhs : positive) s1 c1 xs s2 c2 ys :
  fault w = None →
  observe w lhs = Some (s1, c1, xs) → observe w rhs = Some (s2, c2, ys) →
  operator_lt lhs rhs w = Ok (less_lists xs ys) w.
Proof.
  destruct w as [h a vs f]. cbn [fault]. intros -> Hl Hr. apply post_eq.
  destruct (observe_shape _ _ _ _ _ _ _ _ Hl)
    as [Hlen1 [(k1 & Hv1 & -> & ->)|(k1 & b1 & o1 & blk1 & Hv1 & Hb1 & Ho1 & ->)]];
  destruct (observe_shape _ _ _ _ _ _ _ _ Hr)
    as [Hlen2 [(k2 & Hv2 & -> & ->)|(k2 & b2 & o2 & blk2 & Hv2 & Hb2 & Ho2 & ->)]].
  - by sv_run.
  - sv_run. rewrite Nat.add_sub'. destruct s2 as [|s2]; [done|].
    destruct (lookup_lt_is_Some_2 blk2 o2) as [y Hy]; [lia|].
    by rewrite (drop_S blk2 y o2 Hy).
  - sv_run. rewrite Nat.add_sub'. destruct s1 as [|s1]; [done|].
    cbn [lexicographical_loop wp]. by destruct (take (S s1) (drop o1 blk1)).
  - sv_run. rewrite !Nat.add_sub'.
    by rewrite (run_lexicographical_loop _ b1 blk1 b2 blk2 s1 s2 o1 o2) by done.
Qed.

Lemma run_negated (m : M T bool) w r :
  m w = Ok r w → (r ← m; mret (negb r)) w = Ok (negb r) w.
Proof. intros E. by rewrite (bind_Ok _ _ _ _ _ E). Qed.

(** X18.  [lhs == rhs] is true exactly when the two vectors have the same
    number of elements and the elements compare equal index by index;
    capacities play no part.  [lhs != rhs] is its negation.  Neither changes
    the state. *)
Theorem operator_eq_compares_elements w (lhs rhs : positive) s1 c1 xs s2 c2 ys :
  fault w = None →
  observe w lhs = Some (s1, c1, xs) → observe w rhs = Some (s2, c2, ys) →
  ∃ r, operator_eq lhs rhs w = Ok r w ∧
       operator_ne lhs rhs w = Ok (negb r) w ∧
       (r = true ↔ Forall2 (λ x y, eq_elem x y = true) xs ys).
Proof.
  intros Hf Hl Hr.
  pose proof (run_operator_eq w lhs rhs s1 c1 xs s2 c2 ys Hf Hl Hr) as Heq.
  eexists. split; [exact Heq|]. split; [by apply run_negated|].
  destruct w as [h a vs f].
  destruct (observe_shape _ _ _ _ _ _ _ _ Hl) as [Hlen1 _].
  destruct (observe_shape _ _ _ _ _ _ _ _ Hr) as [Hlen2 _].
  rewrite andb_true_iff, bool_decide_eq_true. split.
  - intros [-> Hxs]. apply equal_lists_Forall2; [congruence|done].
  - intros HF. pose proof (Forall2_length _ _ _ HF) as Hlen.
    split; [congruence|]. by apply equal_lists_Forall2.
Qed.

(** X19.  [lhs < rhs] is the lexicographic comparison of the elements by
    the element type's [<]. *)
Theorem operator_lt_is_lexicographic w (lhs rhs : positive) s1 c1 xs s2 c2 ys :
  fault w = None →
  observe w lhs = Some (s1, c1, xs) → observe w rhs = Some (s2, c2, ys) →
  ∃ r, operator_lt lhs rhs w = Ok r w ∧ (r = true ↔ lexicographically_less xs ys).
Proof.
  intros Hf Hl Hr. exists (less_lists xs ys).
  split; [by eapply run_operator_lt|]. apply less_lists_spec.
Qed.

(** The three outcomes on lists, for an element order that is strict and
    total and an element equality that is equality. *)
Lemma lists_trichotomy xs ys :
  (∀ x y, eq_elem x y = true ↔ x = y) →
  (∀ x, lt_elem x x = false) →
  (∀ x y, lt_elem x y = true → lt_elem y x = false) →
  (∀ x y, x ≠ y → lt_elem x y = true ∨ lt_elem y x = true) →
  let e := bool_decide (length xs = length ys) && equal_lists xs ys in
  let l := less_lists xs ys in
  let g := less_lists ys xs in
  (e = true ↔ xs = ys) ∧
  ((e = true ∧ l = false ∧ g = false) ∨
   (e = false ∧ l = true ∧ g = false) ∨
   (e = false ∧ l = false ∧ g = true)).
Proof.
  intros Heq Hirr Hasym Htot. cbn zeta.
  revert ys. induction xs as [|x xs IH]; intros [|y ys]; cbn [less_lists equal_lists length].
  - rewrite bool_decide_eq_true_2 by done. split; [done|]. by left.
  - rewrite bool_decide_eq_false_2 by done. split; [done|]. right. by left.
  - rewrite bool_decide_eq_false_2 by done. split; [done|]. right. by right.
  - destruct (IH ys) as [IHe IHt]. clear IH.
    destruct (eq_elem x y) eqn:E.
    + apply Heq in E as ->. rewrite Hirr.
      assert (bool_decide (S (length xs) = S (length ys)) = bool_decide (length xs = length ys))
        as -> by (apply bool_decide_ext; lia).
      split; [|done]. rewrite IHe. split; [by intros ->|by intros [= ->]].
    + assert (x ≠ y) as Hne.
      { intros ->. rewrite (proj2 (Heq y y) eq_refl) in E. done. }
      rewrite andb_false_r. split; [split; [done|congruence]|].
      destruct (Htot x y Hne) as [Hlt|Hgt].
      * rewrite Hlt, (Hasym _ _ Hlt). right. by left.
      * rewrite Hgt, (Hasym _ _ Hgt). right. by right.
Qed.

(** X20.  For an element type whose [==] is equality and whose [<] is a
    strict total order, exactly one of [lhs == rhs], [lhs < rhs] and
    [lhs > rhs] is true, [==] is true exactly for equal element lists, and
    [!=], [<=], [>=] are ([<] or [>]), ([<] or [==]) and ([>] or [==]). *)
Theorem comparison_operators_total_order w (lhs rhs : positive) s1 c1 xs s2 c2 ys :
  (∀ x y, eq_elem x y = true ↔ x = y) →
  (∀ x, lt_elem x x = false) →
  (∀ x y, lt_elem x y = true → lt_elem y x = false) →
  (∀ x y, x ≠ y → lt_elem x y = true ∨ lt_elem y x = true) →
  fault w = None →
  observe w lhs = Some (s1, c1, xs) → observe w rhs = Some (s2, c2, ys) →
  ∃ e l g,
    operator_eq lhs rhs w = Ok e w ∧
    operator_lt lhs rhs w = Ok l w ∧
    operator_gt lhs rhs w = Ok g w ∧
    operator_ne lhs rhs w = Ok (l || g) w ∧
    operator_le lhs rhs w = Ok (l || e) w ∧
    operator_ge lhs rhs w = Ok (g || e) w ∧
    (e = true ↔ xs = ys) ∧
    ((e = true ∧ l = false ∧ g = false) ∨
     (e = false ∧ l = true ∧ g = false) ∨
     (e = false ∧ l = false ∧ g = true)).
Proof.
  intros Heq Hirr Hasym Htot Hf Hl Hr.
  pose proof (run_operator_eq w lhs rhs s1 c1 xs s2 c2 ys Hf Hl Hr) as He.
  pose proof (run_operator_lt w lhs rhs s1 c1 xs s2 c2 ys Hf Hl Hr) as Hlt.
  pose proof (run_operator_lt w rhs lhs s2 c2 ys s1 c1 xs Hf Hr Hl) as Hgt.
  assert (length xs = s1 ∧ length ys = s2) as [<- <-].
  { destruct w as [h a vs f].
    destruct (observe_shape _ _ _ _ _ _ _ _ Hl) as [? _].
    by destruct (observe_shape _ _ _ _ _ _ _ _ Hr) as [? _]. }
  destruct (lists_trichotomy xs ys Heq Hirr Hasym Htot) as [Hiff Htri].
  eexists _, _, _. split; [exact He|]. split; [exact Hlt|]. split; [exact Hgt|].
  assert (∀ r r', negb r = r' → operator_eq lhs rhs w = Ok r w →
                  operator_ne lhs rhs w = Ok r' w) as Hne.
  { intros r r' <- E. by apply run_negated. }
  assert (∀ r r', negb r = r' → operator_lt rhs lhs w = Ok r w →
                  operator_le lhs rhs w = Ok r' w) as Hle.
  { intros r r' <- E. by apply run_negated. }
  assert (∀ r r', negb r = r' → operator_lt lhs rhs w = Ok r w →
                  operator_ge lhs rhs w = Ok r' w) as Hge.
  { intros r r' <- E. by apply run_negated. }
  split_and!; [eapply Hne; [|done]|eapply Hle; [|done]|eapply Hge; [|done]|done|done];
    destruct Htri as [(-> & -> & ->)|[(-> & -> & ->)|(-> & -> & ->)]]; done.
Qed.
Lemma equal_lists_refl xs : (∀ x, eq_elem x x = true) → equal_lists xs xs = true.
Proof.
  intros Hrefl. induction xs as [|x xs IH]; [done|].
  cbn [equal_lists]. by rewrite Hrefl.
Qed.

(** X21.  A copy-constructed vector compares equal to its source, in both
    directions, when the element type's [==] is reflexive; this holds though
    the two capacities may differ. *)
Theorem copy_compares_equal w (other : positive) s c xs :
  (∀ x : T, eq_elem x x = true) →
  fault w = None → valid w other → observe w other = Some (s, c, xs) →
  ∃ this w',
    SimpleVector.declare (λ o, SimpleVector.ctor_copy o other) w = Ok this w' ∧
    operator_eq this other w' = Ok true w' ∧
    operator_eq other this w' = Ok true w' ∧
    operator_ne this other w' = Ok false w'.
Proof.
  destruct w as [h a vs f]. cbn [fault]. intros Hrefl -> Hvalid Hobs.
  destruct (post_Ok _ _ (ctor_copy_post h a vs other s c xs Hvalid Hobs))
    as (this & w' & Hrun & _ & _ & Hthis & _ & Hother & _ & Hf).
  exists this, w'. split; [done|].
  pose proof (run_operator_eq w' this other s s xs s c xs Hf Hthis Hother) as H1.
  pose proof (run_operator_eq w' other this s c xs s s xs Hf Hother Hthis) as H2.
  rewrite bool_decide_eq_true_2, equal_lists_refl in H1, H2 by done.
  split_and!; [done..|]. unfold operator_ne. by rewrite (bind_Ok _ _ _ _ _ H1).
Qed.
End comparisons.

(** *** Storage: what a scope and a failed copy leave behind *)

Section storage.
Context {T : Type} `{!Elem T}.
Implicit Types (w : World T) (h : gmap positive (list T)) (blk xs : list T).

(** X22.  A block scope that holds one [SimpleVector(size)] leaves the
    heap and the objects exactly as it found them, whatever throws during
    the construction: the destructor frees the buffer, and a constructor
    that fails frees what it had allocated. *)
Theorem vector_scope_frees_buffer w n :
  wp (SimpleVector.local (λ v, SimpleVector.ctor_size v n) (λ _, mret tt) w)
     (λ _ w', same_memory w w') (λ w', same_memory w w').
Proof.
  destruct w as [h a vs f]. unfold same_memory. cbn [heap arrs vecs].
  destruct (decide (0 < n)) as [Hn|Hn].
  - xrun.
    { split_and!; [done..|]. same_map. }
    eapply (wp_generate_loop _ _ _ _ _ (fresh (dom h)) (replicate n dflt) 0);
      [lookup|len| |]; intros f' blk' Hl; xrun.
    + split_and!; [|done|]; same_map.
    + split_and!; [|done|]; same_map.
  - assert (n = 0) as -> by lia. xrun. split_and!; [done..|]. same_map.
Qed.

(** X23.  When the copy constructor throws, at whichever allocation,
    element construction or element copy, no block stays allocated and no
    object is left behind. *)
Theorem copy_ctor_failure_leaks_nothing w (other : positive) :
  valid w other →
  wp (SimpleVector.declare (λ o, SimpleVector.ctor_copy o other) w)
     (λ _ _, True) (λ w', same_memory w w').
Proof.
  destruct w as [h a vs f]. unfold same_memory. cbn [heap arrs vecs]. intros Hvalid.
  apply valid_inv in Hvalid as (q & d' & n & d & Hr & Hnd & Hq).
  destruct (decide (n = 0)) as [->|Hn].
  { destruct Hq as [[-> ->]|(br & src & -> & Hbr & Hlen)]; by xrun. }
  destruct Hq as [[-> ->]|(br & src & -> & Hbr & Hlen)]; [lia|].
  xrun.
  { split_and!; [done..|]. same_map. }
  eapply (wp_generate_loop _ _ _ _ _ (fresh (dom h)) (replicate n dflt) 0);
    [lookup|len| |]; intros f' blk' Hl; rewrite length_replicate in Hl; xrun.
  { split_and!; [|done|]; same_map. }
  eapply (wp_forward_copy _ _ _ _ _ br (fresh (dom h)) src blk' 0 0);
    [neq|lookup|lookup|lia|lia| |]; intros f'' dst' Hl'; xrun; [|done].
  split_and!; [|done|]; same_map.
Qed.
End storage.

(** *** [ArrayPtr]: giving up and taking over a block *)

(** The object behind a place, case by case. *)
Ltac object_of this Ha :=
  let v := fresh "v" in let Hv := fresh "Hv" in
  destruct this as [?o|?l];
  [ apply get_arr_Items_inv in Ha as (v & Ha & Hv); destruct v as [[? ?] ? ?];
    cbn in Hv; simplify_eq
  | apply get_arr_Local_inv in Ha ].

Ltac member :=
  lazymatch goal with
  | |- get_arr (Items _) _ = _ => erewrite run_get_arr_Items by lookup; fields; done
  | |- get_arr (Local _) _ = _ => erewrite run_get_arr_Local by lookup; fields; done
  end.

Section array_ptr_ownership.
Context {T : Type} `{!Elem T}.
Implicit Types (w : World T) (h : gmap positive (list T)) (blk xs : list T).

(** X24.  [Delete()] frees the block and leaves the pointer null (the
    recorded capacity stays); [operator bool] is then false, and a second
    [Delete()] or the destructor frees nothing more. *)
Theorem ArrayPtr_Delete_frees_once w this b c blk :
  get_arr this w = Ok (AP.Build (Ptr b 0) c) w → heap w !! b = Some blk →
  ∃ w', ArrayPtr.Delete this w = Ok tt w' ∧
        heap w' = delete b (heap w) ∧
        get_arr this w' = Ok (AP.Build Null c) w' ∧
        ArrayPtr.to_bool this w' = Ok false w' ∧
        ArrayPtr.Delete this w' = Ok tt w' ∧
        ArrayPtr.dtor this w' = Ok tt w'.
Proof.
  destruct w as [h ar vs f]. cbn [heap]. intros Ha Hb.
  apply post_unit.
  object_of this Ha; run;
    (split_and!; [done|member|apply post_eq..];
     [unfold ArrayPtr.to_bool; by run|run; by rewrite insert_insert_eq|by run]).
Qed.

(** X25.  [ArrayPtr q(p.Release())] hands the block over: the heap is
    unchanged, [p] is null and [q] holds the block (with recorded capacity
    0); destroying [p] then frees nothing, destroying [q] frees the
    block. *)
Theorem ArrayPtr_Release_transfers_ownership w this other b c blk a :
  this ≠ other →
  get_arr this w = Ok (AP.Build (Ptr b 0) c) w → heap w !! b = Some blk →
  get_arr other w = Ok a w →
  ∃ w', (raw ← ArrayPtr.Release this; ArrayPtr.ctor_raw other raw) w = Ok tt w' ∧
        heap w' = heap w ∧
        get_arr this w' = Ok (AP.Build Null c) w' ∧
        get_arr other w' = Ok (AP.Build (Ptr b 0) 0) w' ∧
        (∃ w'', ArrayPtr.dtor this w' = Ok tt w'' ∧ heap w'' = heap w) ∧
        (∃ w'', ArrayPtr.dtor other w' = Ok tt w'' ∧ heap w'' = delete b (heap w)).
Proof.
  destruct w as [h ar vs f]. cbn [heap]. intros Hne Ha Hb Ho.
  assert (∀ x y : positive, Items x ≠ Items y → x ≠ y) as HI by congruence.
  assert (∀ x y : positive, Local x ≠ Local y → x ≠ y) as HL by congruence.
  apply post_unit.
  object_of this Ha; object_of other Ho;
    try (apply HI in Hne); try (apply HL in Hne);
    (run; split_and!; [done|member|member|apply post_unit; by run..]).
Qed.

(** X26.  [ArrayPtr(size)] with [size > 0] owns a block in which every
    element is value-initialised: [p[i]] for [i < size] reads [Type()],
    [operator bool] is true and the recorded capacity is [size]. *)
Theorem ArrayPtr_elements_value_initialised w this a n i :
  fault w = None → get_arr this w = Ok a w → i < n →
  ∃ q w', (ArrayPtr.ctor_size this n;; ArrayPtr.index this i) w = Ok q w' ∧
          load q w' = Ok dflt w' ∧
          ArrayPtr.to_bool this w' = Ok true w' ∧
          get_arr this w' = Ok (AP.Build (q -ₚ i) n) w'.
Proof.
  destruct w as [h ar vs f]. cbn [fault]. intros -> Ha Hi.
  apply post_Ok.
  object_of this Ha; exec;
    (split_and!;
     [ apply (run_load _ (fresh (dom h)) i (replicate n dflt)); [lookup|];
       by apply lookup_replicate_2
     | apply post_eq; unfold ArrayPtr.to_bool; by run
     | unfold psub; rewrite decide_True by done; rewrite Nat.sub_diag; member ]).
Qed.
End array_ptr_ownership.

(** *** A vector that has been moved from *)

Section moved_from.
Context {T : Type} `{!Elem T}.
Implicit Types (w : World T) (h : gmap positive (list T)) (blk xs : list T).

Lemma bind_Undef {A B} (m : M T A) (k : A → M T B) w :
  m w = Undef → (m ≫= k) w = Undef.
Proof. intros E. unfold mbind, M_bind, bind. by rewrite E. Qed.

(** Writing an element through the null pointer, whatever is read. *)
Lemma transfer_to_null (by_move : bool) r h a vs :
  (if by_move then move_elem else copy_elem) Null r (mkWorld h a vs None) = Undef.
Proof.
  destruct r as [|rb ro]; [by destruct by_move|].
  destruct by_move; unfold move_elem, copy_elem, assign, load, mbind, M_bind, bind;
    cbn [heap]; destruct (h !! rb) as [rblk|]; try done; by destruct (rblk !! ro).
Qed.

(** [PushBack] on members that claim a capacity the null buffer cannot
    back. *)
Lemma PushBack_null_buffer (by_move : bool) h a vs (this : positive) c' c r :
  vs !! this = Some (SV.Build (AP.Build Null c') 0 c) → 0 < c →
  (if by_move then SimpleVector.PushBack_move else SimpleVector.PushBack_copy)
    this r (mkWorld h a vs None) = Undef.
Proof.
  intros Hv Hc.
  assert (∀ A (m : M T A) w x w', post (m w) (λ y w'', Ok y w'' = Ok x w') → m w = Ok x w')
    as Hrun by (intros; by apply post_eq).
  destruct by_move.
  - unfold SimpleVector.PushBack_move.
    erewrite bind_Ok; [|apply Hrun; run; reflexivity]. cbn [SV.capacity_ SV.size_].
    rewrite decide_False by lia.
    erewrite bind_Ok; [|apply Hrun; run; reflexivity].
    erewrite bind_Ok; [|apply Hrun; run; reflexivity].
    erewrite bind_Ok; [|apply Hrun; run; reflexivity].
    erewrite bind_Ok; [|apply Hrun; run; reflexivity].
    apply (transfer_to_null true).
  - unfold SimpleVector.PushBack_copy.
    erewrite bind_Ok; [|apply Hrun; run; reflexivity]. cbn [SV.capacity_ SV.size_].
    rewrite decide_False by lia.
    apply bind_Undef.
    erewrite bind_Ok; [|apply Hrun; run; reflexivity].
    erewrite bind_Ok; [|apply Hrun; run; reflexivity].
    apply (transfer_to_null false).
Qed.

(** X27.  After [SimpleVector b(std::move(a))], [b] has the elements,
    size, capacity and buffer [a] had; [a] has size 0 and no buffer but still
    reports the old capacity, so a [PushBack] on it (by copy or by move, of
    whatever object) finds room by its count and writes through the null
    pointer. *)
Theorem moved_from_vector_keeps_capacity_without_buffer w (other : positive)
    s c xs p r (by_move : bool) :
  fault w = None → observe w other = Some (s, c, xs) → buffer w other = Some p →
  ∃ this w',
    SimpleVector.declare (λ o, SimpleVector.ctor_move o other) w = Ok this w' ∧
    observe w' this = Some (s, c, xs) ∧ buffer w' this = Some p ∧
    observe w' other = Some (0, c, []) ∧ buffer w' other = Some Null ∧
    (0 < c →
     (if by_move then SimpleVector.PushBack_move else SimpleVector.PushBack_copy)
       other r w' = Undef).
Proof.
  destruct w as [h a vs f]. cbn [fault]. intros -> (q & c' & Hv & Hel)%observe_inv Hbuf.
  cbn [vecs] in Hv. rewrite (buffer_eq _ _ _ _ _ _ _ _ _ Hv) in Hbuf. simplify_eq.
  apply post_Ok. exec.
  assert (fresh (dom vs) ≠ other) as Hne by neq.
  split_and!; [|eapply buffer_eq; lookup|eapply observe_Null; lookup
              |eapply buffer_eq; lookup|].
  - unfold observe, elements in *. cbn [vecs heap] in *.
    rewrite lookup_insert_ne by done. rewrite lookup_insert_eq.
    rewrite Hv in Hel. cbn in *. by rewrite Hel.
  - intros Hc. eapply PushBack_null_buffer; [lookup|done].
Qed.
End moved_from.

(** ** The properties on concrete vectors *)

(** The concrete states are what the constructors produce. *)
Example w12_reached :
  SimpleVector.declare (λ o, SimpleVector.ctor_init o [1; 2]) start = Ok 1%positive w12.
Proof. vm_compute. reflexivity. Qed.

Example w123_reached :
  SimpleVector.declare (λ o, SimpleVector.ctor_init o [1; 2; 3]) start = Ok 1%positive w123.
Proof. vm_compute. reflexivity. Qed.

Example w123_e_reached :
  (SimpleVector.declare (λ o, SimpleVector.ctor_init o [1; 2; 3]);;
   SimpleVector.declare SimpleVector.ctor_default) start = Ok 2%positive w123_e.
Proof. vm_compute. reflexivity. Qed.

Example w123_7_reached :
  (SimpleVector.declare (λ o, SimpleVector.ctor_init o [1; 2; 3]);;
   SimpleVector.declare (λ o, SimpleVector.ctor_init o [7])) start = Ok 2%positive w123_7.
Proof. vm_compute. reflexivity. Qed.

Example w12_reserved_reached :
  (a ← SimpleVector.declare (λ o, SimpleVector.ctor_init o [1; 2]);
   SimpleVector.Reserve a 4) start = Ok tt w12_reserved.
Proof. vm_compute. reflexivity. Qed.

Example w_two_buffers_reached :
  (ArrayPtr.ctor_size (Local 1) 2;; ArrayPtr.ctor_size (Local 2) 3) start
    = Ok tt w_two_buffers.
Proof. vm_compute. reflexivity. Qed.

Example w_buffer_and_empty_reached :
  (ArrayPtr.ctor_size (Local 1) 2;; ArrayPtr.ctor_default (Local 2)) start
    = Ok tt w_buffer_and_empty.
Proof. vm_compute. reflexivity. Qed.

Example w123_9_reached :
  (SimpleVector.declare (λ o, SimpleVector.ctor_init o [1; 2; 3]);;
   SimpleVector.declare (λ o, SimpleVector.ctor_init o [9])) start = Ok 2%positive w123_9.
Proof. vm_compute. reflexivity. Qed.

Example w12_reserved_89_reached :
  (v ← SimpleVector.declare (λ o, SimpleVector.ctor_init o [1; 2]);
   SimpleVector.Reserve v 4;;
   SimpleVector.declare (λ o, SimpleVector.ctor_init o [8; 9])) start
    = Ok 2%positive w12_reserved_89.
Proof. vm_compute. reflexivity. Qed.

Example w_rows_7_reached :
  (SimpleVector.declare (λ o, SimpleVector.ctor_init o [[1; 2]; [3; 4]]);;
   SimpleVector.declare (λ o, SimpleVector.ctor_init o [[7]])) start
    = Ok 2%positive w_rows_7.
Proof. vm_compute. reflexivity. Qed.

(** The scenarios of the specification: [Insert(begin() + 1, 9)] on
    [{1, 2, 3}] gives [{1, 9, 2, 3}] of size 4; the 9 is the element of
    [u]. *)
Example Insert_scenario :
  ∃ it w', SimpleVector.Insert_copy 1 (Ptr 1 1) (Ptr 2 0) w123_9 = Ok it w' ∧
           observe w' 1 = Some (4, 6, [1; 9; 2; 3]).
Proof. eexists _, _. split; vm_compute; reflexivity. Qed.

(** [PushBack(const Type&)] copies its argument into the new block while the
    old block is still the vector's (line 230, before the swap of line 233):
    on the full [{1, 2, 3}], [v.PushBack(v[0])] gives [{1, 2, 3, 1}].
    [PushBack(Type&&)] reads its argument once the reallocation is over
    (line 244): [v.PushBack(std::move(v[0]))] on the same vector reads in
    the block that [ResizeCapacity] has freed. *)
Example PushBack_of_own_element :
  (∃ w', SimpleVector.PushBack_copy 1 (Ptr 1 0) w123 = Ok tt w' ∧
         observe w' 1 = Some (4, 6, [1; 2; 3; 1])) ∧
  SimpleVector.PushBack_move 1 (Ptr 1 0) w123 = Undef.
Proof. split; [eexists; split; vm_compute; reflexivity|vm_compute; reflexivity]. Qed.

Lemma w123_valid : valid w123 1.
Proof.
  exists (SV.Build (AP.Build (Ptr 1 0) 3) 3 3).
  split; [reflexivity|]. split; [simpl; lia|]. split; [reflexivity|].
  exists [1; 2; 3]. split; [reflexivity|simpl; lia].
Defined.

Lemma w12_reserved_valid : valid w12_reserved 1.
Proof.
  exists (SV.Build (AP.Build (Ptr 2 0) 4) 2 4).
  split; [reflexivity|]. split; [simpl; lia|]. split; [reflexivity|].
  exists [1; 2; 0; 0]. split; [reflexivity|simpl; lia].
Defined.

Lemma w123_7_valid : valid w123_7 1 ∧ valid w123_7 2.
Proof.
  split.
  - exists (SV.Build (AP.Build (Ptr 1 0) 3) 3 3).
    split; [reflexivity|]. split; [simpl; lia|]. split; [reflexivity|].
    exists [1; 2; 3]. split; [reflexivity|simpl; lia].
  - exists (SV.Build (AP.Build (Ptr 2 0) 1) 1 1).
    split; [reflexivity|]. split; [simpl; lia|]. split; [reflexivity|].
    exists [7]. split; [reflexivity|simpl; lia].
Defined.

Lemma w123_9_valid : valid w123_9 1.
Proof.
  exists (SV.Build (AP.Build (Ptr 1 0) 3) 3 3).
  split; [reflexivity|]. split; [simpl; lia|]. split; [reflexivity|].
  exists [1; 2; 3]. split; [reflexivity|simpl; lia].
Defined.

Lemma w12_reserved_89_valid : valid w12_reserved_89 1.
Proof.
  exists (SV.Build (AP.Build (Ptr 2 0) 4) 2 4).
  split; [reflexivity|]. split; [simpl; lia|]. split; [reflexivity|].
  exists [1; 2; 0; 0]. split; [reflexivity|simpl; lia].
Defined.


(** The elements of [u] are no elements of [v]. *)
Lemma w123_9_outside : outside w123_9 1 (Ptr 2 0).
Proof. intros b off off' Hr Hb. injection Hr as <- <-. discriminate Hb. Defined.

Lemma w12_reserved_89_outside : outside w12_reserved_89 1 (Ptr 3 0).
Proof. intros b off off' Hr Hb. injection Hr as <- <-. discriminate Hb. Defined.


(** A computation that throws has ended in the state its guarantee
    describes. *)
Lemma wp_Throw {T A} (r : Res (World T) A) (Q : A → World T → Prop) (E : World T → Prop) w' :
  r = Throw w' → wp r Q E → E w'.
Proof. intros ->. exact (λ H, H). Defined.

Lemma two_buffers_differ : Local 1 ≠ Local 2.
Proof. discriminate. Defined.

Lemma two_buffers_invariant :
  empty_iff_no_capacity (AP.Build (Ptr 1 0) 2) ∧ empty_iff_no_capacity (AP.Build (Ptr 2 0) 3).
Proof. split; (split; simpl; intros; discriminate). Defined.

Lemma first_buffer_deletable : deletable w_two_buffers (AP.Build (Ptr 1 0) 2).
Proof. split; [reflexivity|]. exists [0; 0]. reflexivity. Defined.

(** C8 on [v = e] with [v = {1, 2, 3}] and [e] empty. *)
Lemma copy_assign_from_empty_is_Clear_witness :
  (2%positive ≠ 1%positive ∧
   vecs w123_e !! 1%positive = Some (SV.Build (AP.Build (Ptr 1 0) 3) 3 3) ∧
   vecs w123_e !! 2%positive = Some SV.init ∧ SV.size_ SV.init = 0) ∧
  ∃ w', SimpleVector.copy_assign 1 2 w123_e = Ok tt w' ∧
        SimpleVector.Clear 1 w123_e = Ok tt w' ∧
        vecs w' !! 1%positive = Some (SV.Build (AP.Build (Ptr 1 0) 3) 0 3) ∧
        heap w' = heap w123_e.
Proof.
  assert (2%positive ≠ 1%positive) as Hne by discriminate.
  split.
  - split; [exact Hne|]. split; [reflexivity|]. split; reflexivity.
  - exact (copy_assign_from_empty_is_Clear w123_e 1 2
             (SV.Build (AP.Build (Ptr 1 0) 3) 3 3) SV.init Hne eq_refl eq_refl eq_refl).
Defined.

(** C9 on [v = std::move(v)] with [v = {1, 2, 3}]. *)
Lemma move_assign_same_buffer_noop_witness :
  (vecs w123 !! 1%positive = Some (SV.Build (AP.Build (Ptr 1 0) 3) 3 3) ∧
   AP.raw_ptr_ (SV.items_ (SV.Build (AP.Build (Ptr 1 0) 3) 3 3)) =
   AP.raw_ptr_ (SV.items_ (SV.Build (AP.Build (Ptr 1 0) 3) 3 3))) ∧
  SimpleVector.move_assign 1 1 w123 = Ok tt w123.
Proof.
  split.
  - split; reflexivity.
  - exact (move_assign_same_buffer_noop w123 1 1 _ _ eq_refl eq_refl eq_refl).
Defined.

(** C10 on a vector of size 2 and capacity 4: the copy has capacity 2. *)
Lemma copy_ctor_capacity_is_size_witness :
  (fault w12_reserved = None ∧ valid w12_reserved 1 ∧
   observe w12_reserved 1 = Some (2, 4, [1; 2])) ∧
  ∃ this w',
    SimpleVector.declare (λ o, SimpleVector.ctor_copy o 1) w12_reserved = Ok this w' ∧
    this ≠ 1%positive ∧
    observe w' this = Some (2, 2, [1; 2]) ∧
    observe w' 1 = Some (2, 4, [1; 2]).
Proof.
  split.
  - split; [reflexivity|]. split; [exact w12_reserved_valid|reflexivity].
  - exact (copy_ctor_capacity_is_size w12_reserved 1 2 4 [1; 2] eq_refl
             w12_reserved_valid eq_refl).
Defined.

(** C5, amended, on two buffers of 2 and 3 elements. *)
Lemma ArrayPtr_move_exchanges_witness :
  (Local 1 ≠ Local 2 ∧
   get_arr (Local 1) w_two_buffers = Ok (AP.Build (Ptr 1 0) 2) w_two_buffers ∧
   get_arr (Local 2) w_two_buffers = Ok (AP.Build (Ptr 2 0) 3) w_two_buffers) ∧
  (∃ w', ArrayPtr.ctor_move (Local 1) (Local 2) w_two_buffers = Ok tt w' ∧
         get_arr (Local 1) w' = Ok (AP.Build (Ptr 2 0) 3) w' ∧
         get_arr (Local 2) w' = Ok AP.init w' ∧
         heap w' = heap w_two_buffers) ∧
  (∃ w', ArrayPtr.move_assign (Local 1) (Local 2) w_two_buffers = Ok tt w' ∧
         get_arr (Local 1) w' = Ok (AP.Build (Ptr 2 0) 3) w' ∧
         get_arr (Local 2) w' = Ok (AP.Build (Ptr 1 0) 2) w' ∧
         heap w' = heap w_two_buffers).
Proof.
  split.
  - split; [exact two_buffers_differ|]. split; reflexivity.
  - exact (ArrayPtr_move_exchanges w_two_buffers (Local 1) (Local 2) _ _
             two_buffers_differ eq_refl eq_refl).
Defined.

(** C5 as stated fails: after [p = std::move(q)] with [p] holding a block,
    the source [q] is not empty, it holds the block [p] had. *)
Lemma ArrayPtr_move_assign_source_keeps_block :
  ∃ w', ArrayPtr.move_assign (Local 1) (Local 2) w_two_buffers = Ok tt w' ∧
        arrs w' !! 1%positive = Some (AP.Build (Ptr 2 0) 3) ∧
        arrs w' !! 2%positive = Some (AP.Build (Ptr 1 0) 2) ∧
        AP.raw_ptr_ (AP.Build (Ptr 1 0) 2) ≠ Null.
Proof. eexists. split; [vm_compute; reflexivity|]. split_and!; done. Qed.

(** C6, amended, on two buffers of 2 and 3 elements; shown for the
    construction from a size. *)
Lemma ArrayPtr_capacity_record_witness :
  (Local 1 ≠ Local 2 ∧ fault w_two_buffers = None ∧
   get_arr (Local 1) w_two_buffers = Ok (AP.Build (Ptr 1 0) 2) w_two_buffers ∧
   get_arr (Local 2) w_two_buffers = Ok (AP.Build (Ptr 2 0) 3) w_two_buffers ∧
   empty_iff_no_capacity (AP.Build (Ptr 1 0) 2) ∧
   empty_iff_no_capacity (AP.Build (Ptr 2 0) 3) ∧
   deletable w_two_buffers (AP.Build (Ptr 1 0) 2)) ∧
  ∃ w' a', ArrayPtr.ctor_size (Local 1) 5 w_two_buffers = Ok tt w' ∧
      get_arr (Local 1) w' = Ok a' w' ∧ empty_iff_no_capacity a' ∧ AP.capacity_ a' = 5.
Proof.
  split.
  - split; [exact two_buffers_differ|]. split; [reflexivity|]. split; [reflexivity|].
    split; [reflexivity|]. split; [exact (proj1 two_buffers_invariant)|].
    split; [exact (proj2 two_buffers_invariant)|exact first_buffer_deletable].
  - exact (proj1 (proj2 (ArrayPtr_capacity_record w_two_buffers (Local 1) (Local 2) _ _ 5 Null
             two_buffers_differ eq_refl eq_refl eq_refl
             (proj1 two_buffers_invariant) (proj2 two_buffers_invariant)
             first_buffer_deletable))).
Defined.

(** C6 as stated fails: [ArrayPtr<int> r(p.Release())], which is what
    [ReallocateCopy] returns, holds a block while its recorded capacity is 0. *)
Lemma ArrayPtr_from_raw_block_has_capacity_0 :
  ∃ w', (raw ← ArrayPtr.Release (Local 1); ArrayPtr.ctor_raw (Local 3) raw) w_two_buffers
          = Ok tt w' ∧
        arrs w' !! 3%positive = Some (AP.Build (Ptr 1 0) 0) ∧
        ¬ empty_iff_no_capacity (AP.Build (Ptr 1 0) 0).
Proof.
  eexists. split; [vm_compute; reflexivity|]. split; [done|].
  intros [_ Hcap]. by specialize (Hcap eq_refl).
Qed.



(** A throw from the move of the first element changes nothing: on the
    same rows, [Reserve(4)] with the fourteenth fallible step of the call
    armed. *)
Example Reserve_failure_at_first_move_keeps_vector :
  ∃ w', SimpleVector.Reserve 1 4 (set_fault w_rows_7 (Some 13)) = Throw w' ∧
        observe w' 1 = Some (2, 2, [[1; 2]; [3; 4]]).
Proof. eexists. split; vm_compute; reflexivity. Qed.

(** The guarantee at work: during [v.PushBack(u[0])] on the full
    [{1, 2, 3}] the copy of the second element throws, and the vector is as
    before. *)
Example PushBack_copy_failure :
  ∃ w', SimpleVector.PushBack_copy 1 (Ptr 2 0) (set_fault w123_9 (Some 8)) = Throw w' ∧
        observe w' 1 = Some (3, 3, [1; 2; 3]).
Proof. eexists. split; vm_compute; reflexivity. Qed.

(** [PushBack(Type&&)] increments [size_] before it assigns the new
    element (line 244): when that assignment throws, on [{1, 2}] with room
    for four, the vector is left with size 3. *)
Example PushBack_move_failure_keeps_size_incremented :
  observe w12_reserved_89 1 = Some (2, 4, [1; 2]) ∧
  ∃ w', SimpleVector.PushBack_move 1 (Ptr 3 0) (set_fault w12_reserved_89 (Some 0))
          = Throw w' ∧
        observe w' 1 = Some (3, 4, [1; 2; 0]).
Proof. split; [reflexivity|]. eexists. split; vm_compute; reflexivity. Qed.

(** [Resize] changes the vector on failure even where moves leave the
    elements alone: on [{1, 2}] of [int], [Resize(3)] adopts the new buffer
    and only then fills the tail; when the element construction of that fill
    throws (the thirteenth fallible step of the call), the exception leaves the
    vector with size 3, capacity 3 and elements [{1, 2, 0}] where it had size
    2, capacity 2 and [{1, 2}]. *)
Example Resize_failure_changes_vector :
  observe w12 1 = Some (2, 2, [1; 2]) ∧
  ∃ w', SimpleVector.Resize 1 3 (set_fault w12 (Some 12)) = Throw w' ∧
        observe w' 1 = Some (3, 3, [1; 2; 0]).
Proof. split; [reflexivity|]. eexists. split; vm_compute; reflexivity. Qed.

(** C7 fails when the argument is an element of the vector and the vector
    has room: [Insert] shifts the tail first and reads its argument after
    (lines 255-257 and 283-286).  On [{1, 2}] with capacity 4,
    [v.Insert(v.begin(), v[1])] inserts 1, the value the shift has put in the
    slot of [v[1]], and not 2: the vector holds [{1, 1, 2}], by copy and by
    move.  The reallocating branch reads the argument while the old block is
    as it was: on the full [{1, 2}] the same call gives [{2, 1, 2}]. *)
Theorem Insert_of_own_element_inserts_shifted_value :
  observe w12_reserved 1 = Some (2, 4, [1; 2]) ∧
  load (Ptr 2 1) w12_reserved = Ok 2 w12_reserved ∧
  (∃ w', SimpleVector.Insert_copy 1 (Ptr 2 0) (Ptr 2 1) w12_reserved = Ok (Ptr 2 0) w' ∧
         observe w' 1 = Some (3, 4, [1; 1; 2])) ∧
  (∃ w', SimpleVector.Insert_move 1 (Ptr 2 0) (Ptr 2 1) w12_reserved = Ok (Ptr 2 0) w' ∧
         observe w' 1 = Some (3, 4, [1; 1; 2])) ∧
  observe w12 1 = Some (2, 2, [1; 2]) ∧
  load (Ptr 1 1) w12 = Ok 2 w12 ∧
  (∃ it w', SimpleVector.Insert_copy 1 (Ptr 1 0) (Ptr 1 1) w12 = Ok it w' ∧
            observe w' 1 = Some (3, 4, [2; 1; 2])).
Proof.
  split; [reflexivity|]. split; [reflexivity|].
  split; [eexists; split; vm_compute; reflexivity|].
  split; [eexists; split; vm_compute; reflexivity|].
  split; [reflexivity|]. split; [reflexivity|].
  eexists _, _. split; vm_compute; reflexivity.
Qed.

(** C7 says every vector: on the vector a move constructor has emptied,
    which keeps its capacity and has no buffer, [Insert] at [begin()] finds
    room by its count and writes through the null pointer. *)
Example Insert_into_moved_from_vector_is_undefined :
  ∃ this w', SimpleVector.declare (λ o, SimpleVector.ctor_move o 1) w123_9 = Ok this w' ∧
             observe w' 1 = Some (0, 3, []) ∧ buffer w' 1 = Some Null ∧
             SimpleVector.Insert_copy 1 Null (Ptr 2 0) w' = Undef ∧
             SimpleVector.Insert_move 1 Null (Ptr 2 0) w' = Undef.
Proof. eexists _, _. split_and!; vm_compute; reflexivity. Qed.

(** C2 fails on the capacity: on [{1, 2}], [Resize(5)] keeps the two elements,
    makes the three new ones 0 and sets the size to 5, but the capacity is 5,
    the capacity of the temporary that [swap] brings in, and not 10. *)
Theorem Resize_growth_capacity_is_new_size :
  observe w12 1 = Some (2, 2, [1; 2]) ∧
  ∃ w', SimpleVector.Resize 1 5 w12 = Ok tt w' ∧
        observe w' 1 = Some (5, 5, [1; 2; 0; 0; 0]).
Proof. split; [reflexivity|]. eexists. split; vm_compute; reflexivity. Qed.

(** C3 fails at [n = size]: on a vector of size 2 and capacity 4,
    [Resize(2)] takes the growth branch, moves the elements to a new block
    and leaves capacity 2. *)
Theorem Resize_to_same_size_reallocates :
  observe w12_reserved 1 = Some (2, 4, [1; 2]) ∧
  buffer w12_reserved 1 = Some (Ptr 2 0) ∧
  ∃ w', SimpleVector.Resize 1 2 w12_reserved = Ok tt w' ∧
        observe w' 1 = Some (2, 2, [1; 2]) ∧
        buffer w' 1 = Some (Ptr 3 0).
Proof.
  split; [reflexivity|]. split; [reflexivity|].
  eexists. split_and!; vm_compute; reflexivity.
Qed.

(** C4 fails for move assignment: after [b = std::move(a)] with
    [a = {1, 2, 3}] and [b = {7}], [b] holds [{1, 2, 3}] but [a.size()] is
    still 3. *)
Theorem move_assign_leaves_source_size :
  ∃ w', SimpleVector.move_assign 2 1 w123_7 = Ok tt w' ∧
        observe w' 2 = Some (3, 3, [1; 2; 3]) ∧
        observe w' 1 = Some (3, 3, [1; 2; 3]).
Proof. eexists. split_and!; vm_compute; reflexivity. Qed.

(** *** The properties of the rest of the interface, on concrete vectors *)

(** The laws of [==] and [<] on [int]. *)
Lemma nat_eq_elem_eq : ∀ x y : nat, eq_elem x y = true ↔ x = y.
Proof. exact Nat.eqb_eq. Defined.

Lemma nat_eq_elem_refl : ∀ x : nat, eq_elem x x = true.
Proof. exact Nat.eqb_refl. Defined.

Lemma nat_lt_elem_irrefl : ∀ x : nat, lt_elem x x = false.
Proof. exact Nat.ltb_irrefl. Defined.

Lemma nat_lt_elem_asym : ∀ x y : nat, lt_elem x y = true → lt_elem y x = false.
Proof. intros x y H. apply Nat.ltb_lt in H. apply Nat.ltb_ge. lia. Defined.

Lemma nat_lt_elem_total : ∀ x y : nat, x ≠ y → lt_elem x y = true ∨ lt_elem y x = true.
Proof.
  intros x y H. destruct (Nat.lt_total x y) as [?|[?|?]]; [left|done|right];
    by apply Nat.ltb_lt.
Defined.

Lemma w12_valid : valid w12 1.
Proof.
  exists (SV.Build (AP.Build (Ptr 1 0) 2) 2 2).
  split; [reflexivity|]. split; [simpl; lia|]. split; [reflexivity|].
  exists [1; 2]. split; [reflexivity|simpl; lia].
Defined.

Lemma w123_7_objects : is_Some (vecs w123_7 !! 1%positive) ∧ is_Some (vecs w123_7 !! 2%positive).
Proof. split; eexists; reflexivity. Defined.

Lemma w123_7_buffers_differ : buffer w123_7 2 ≠ buffer w123_7 1.
Proof. discriminate. Defined.

Lemma buffer_and_empty_differ : Local 1 ≠ Local 2.
Proof. discriminate. Defined.

(** X1 on [{1, 2, 3}] at index 3, the size. *)
Lemma At_checks_bounds_witness :
  (observe w123 1 = Some (3, 3, [1; 2; 3]) ∧ buffer w123 1 = Some (Ptr 1 0)) ∧
  (3 ≤ 3 → SimpleVector.At 1 3 w123 = Throw w123) ∧
  (3 < 3 → SimpleVector.At 1 3 w123 = Ok (Ptr 1 0 +ₚ 3) w123) ∧
  (∀ x, [1; 2; 3] !! 3 = Some x → load (Ptr 1 0 +ₚ 3) w123 = Ok x w123).
Proof.
  split; [split; reflexivity|].
  exact (At_checks_bounds w123 1 3 3 [1; 2; 3] (Ptr 1 0) 3 eq_refl eq_refl).
Defined.

(** X2 on [{1, 2, 3}] at index 3, the size. *)
Lemma subscript_admits_index_up_to_size_witness :
  (observe w123 1 = Some (3, 3, [1; 2; 3]) ∧ buffer w123 1 = Some (Ptr 1 0)) ∧
  (3 ≤ 3 → SimpleVector.subscript 1 3 w123 = Ok (Ptr 1 0 +ₚ 3) w123) ∧
  (3 < 3 → SimpleVector.subscript 1 3 w123 = Undef) ∧
  SimpleVector.subscript_const 1 3 w123 = Ok (Ptr 1 0 +ₚ 3) w123 ∧
  (∀ x, [1; 2; 3] !! 3 = Some x → load (Ptr 1 0 +ₚ 3) w123 = Ok x w123).
Proof.
  split; [split; reflexivity|].
  exact (subscript_admits_index_up_to_size w123 1 3 3 [1; 2; 3] (Ptr 1 0) 3 eq_refl eq_refl).
Defined.

(** X3 on [{1, 2, 3}]. *)
Lemma iterators_delimit_elements_witness :
  observe w123 1 = Some (3, 3, [1; 2; 3]) ∧
  ∃ b e,
    SimpleVector.begin 1 w123 = Ok b w123 ∧ SimpleVector.end_ 1 w123 = Ok e w123 ∧
    SimpleVector.cbegin 1 w123 = Ok b w123 ∧ SimpleVector.cend 1 w123 = Ok e w123 ∧
    range b e w123 = Ok 3 w123 ∧ (b = e ↔ 3 = 0) ∧
    (∀ i x, [1; 2; 3] !! i = Some x → load (b +ₚ i) w123 = Ok x w123) ∧
    SimpleVector.GetSize 1 w123 = Ok 3 w123 ∧
    SimpleVector.GetCapacity 1 w123 = Ok 3 w123 ∧
    SimpleVector.IsEmpty 1 w123 = Ok (bool_decide (3 = 0)) w123.
Proof.
  split; [reflexivity|].
  exact (iterators_delimit_elements w123 1 3 3 [1; 2; 3] eq_refl).
Defined.

(** X4: [SimpleVector<int> u(2);] beside [{1, 2, 3}]. *)
Lemma ctor_size_value_initialises_witness :
  fault w123 = None ∧
  ∃ this w', SimpleVector.declare (λ o, SimpleVector.ctor_size o 2) w123 = Ok this w' ∧
             constructed w123 this w' 2 2 (replicate 2 dflt) ∧
             (2 = 0 → heap w' = heap w123).
Proof.
  split; [reflexivity|].
  exact (ctor_size_value_initialises w123 2 eq_refl).
Defined.

(** X5: [SimpleVector<int> u(2, 7);] beside [{1, 2, 3}]. *)
Lemma ctor_value_fills_witness :
  fault w123 = None ∧
  ∃ this w', SimpleVector.declare (λ o, SimpleVector.ctor_value o 2 7) w123 = Ok this w' ∧
             constructed w123 this w' 2 2 (replicate 2 7) ∧
             (2 = 0 → heap w' = heap w123).
Proof.
  split; [reflexivity|].
  exact (ctor_value_fills w123 2 7 eq_refl).
Defined.

(** X6: [SimpleVector<int> u{4, 5};] beside [{1, 2, 3}]. *)
Lemma ctor_init_holds_list_witness :
  fault w123 = None ∧
  ∃ this w', SimpleVector.declare (λ o, SimpleVector.ctor_init o [4; 5]) w123 = Ok this w' ∧
             constructed w123 this w' (length [4; 5]) (length [4; 5]) [4; 5] ∧
             ([4; 5] = [] → heap w' = heap w123).
Proof.
  split; [reflexivity|].
  exact (ctor_init_holds_list w123 [4; 5] eq_refl).
Defined.

(** X7: [SimpleVector<int> u(Reserve(4));] beside [{1, 2, 3}]. *)
Lemma ctor_proxy_reserves_witness :
  fault w123 = None ∧
  ∃ this w',
    SimpleVector.declare (λ o, SimpleVector.ctor_proxy o (Reserve 4)) w123 = Ok this w' ∧
    constructed w123 this w' 0 4 [] ∧
    (4 = 0 → heap w' = heap w123).
Proof.
  split; [reflexivity|].
  exact (ctor_proxy_reserves w123 4 eq_refl).
Defined.

(** X8 on [{1, 2, 3}]. *)
Lemma PopBack_drops_last_witness :
  (observe w123 1 = Some (3, 3, [1; 2; 3]) ∧ buffer w123 1 = Some (Ptr 1 0)) ∧
  ∃ w', SimpleVector.PopBack 1 w123 = Ok tt w' ∧
        observe w' 1 = Some (3 - 1, 3, take (3 - 1) [1; 2; 3]) ∧
        buffer w' 1 = Some (Ptr 1 0) ∧
        heap w' = heap w123 ∧ fault w' = fault w123 ∧
        (3 = 0 → w' = w123).
Proof.
  split; [split; reflexivity|].
  exact (PopBack_drops_last w123 1 3 3 [1; 2; 3] (Ptr 1 0) eq_refl eq_refl).
Defined.

(** X9 on [{1, 2, 3}], erasing at offset 1. *)
Lemma Erase_removes_element_witness :
  (fault w123 = None ∧ valid w123 1 ∧ observe w123 1 = Some (3, 3, [1; 2; 3]) ∧
   buffer w123 1 = Some (Ptr 1 0) ∧ 1 < 3) ∧
  ∃ w', SimpleVector.Erase 1 (Ptr 1 0 +ₚ 1) w123 = Ok (Ptr 1 0 +ₚ 1) w' ∧
        observe w' 1 = Some (3 - 1, 3, take 1 [1; 2; 3] ++ drop 2 [1; 2; 3]) ∧
        buffer w' 1 = Some (Ptr 1 0) ∧ valid w' 1 ∧ fault w' = None.
Proof.
  assert (1 < 3) as Hlt by lia.
  split.
  - split; [reflexivity|]. split; [exact w123_valid|]. split; [reflexivity|].
    split; [reflexivity|exact Hlt].
  - exact (Erase_removes_element w123 1 3 3 [1; 2; 3] (Ptr 1 0) 1
             eq_refl w123_valid eq_refl eq_refl Hlt).
Defined.

(** X10 on the full [v = {1, 2, 3}] with [u = {9}]:
    [v.PushBack(std::move(u[0]))]. *)
Lemma PushBack_appends_witness :
  (fault w123_9 = None ∧ valid w123_9 1 ∧ observe w123_9 1 = Some (3, 3, [1; 2; 3]) ∧
   load (Ptr 2 0) w123_9 = Ok 9 w123_9 ∧ (true = true → outside w123_9 1 (Ptr 2 0))) ∧
  ∃ w', SimpleVector.PushBack_move 1 (Ptr 2 0) w123_9 = Ok tt w' ∧
        observe w' 1 =
          Some (3 + 1, (if decide (3 < 3) then 3 else (3 * 2) `max` (3 + 1)),
                [1; 2; 3] ++ [9]) ∧
        valid w' 1 ∧ fault w' = None ∧
        (3 < 3 → buffer w' 1 = buffer w123_9 1) ∧
        (outside w123_9 1 (Ptr 2 0) → load (Ptr 2 0) w' = Ok (moved 9) w').
Proof.
  split.
  - split; [reflexivity|]. split; [exact w123_9_valid|]. split; [reflexivity|].
    split; [reflexivity|exact (λ _, w123_9_outside)].
  - exact (PushBack_appends true w123_9 1 3 3 [1; 2; 3] (Ptr 2 0) 9
             eq_refl w123_9_valid eq_refl eq_refl (λ _, w123_9_outside)).
Defined.

(** X11 on [v = {1, 2}] with capacity 4 and [u = {8, 9}], pushing the two
    elements of [u] by move. *)
Lemma PushBack_each_appends_witness :
  (fault w12_reserved_89 = None ∧ valid w12_reserved_89 1 ∧
   observe w12_reserved_89 1 = Some (2, 4, [1; 2]) ∧
   heap w12_reserved_89 !! 3%positive = Some [8; 9] ∧ 0 + 2 ≤ length [8; 9] ∧
   outside w12_reserved_89 1 (Ptr 3 0)) ∧
  ∃ w' c', PushBack_each true 1 2 (Ptr 3 0) w12_reserved_89 = Ok tt w' ∧
           observe w' 1 = Some (2 + 2, c', [1; 2] ++ take 2 (drop 0 [8; 9])) ∧
           valid w' 1 ∧ 4 ≤ c' ∧
           (2 + 2 ≤ 4 → c' = 4 ∧ buffer w' 1 = buffer w12_reserved_89 1) ∧
           heap w' !! 3%positive =
             Some (take 0 [8; 9] ++ (moved <$> take 2 (drop 0 [8; 9])) ++ drop (0 + 2) [8; 9]).
Proof.
  assert (0 + 2 ≤ length [8; 9]) as Hle by (simpl; lia).
  split.
  - split; [reflexivity|]. split; [exact w12_reserved_89_valid|]. split; [reflexivity|].
    split; [reflexivity|]. split; [exact Hle|exact w12_reserved_89_outside].
  - exact (PushBack_each_appends true 2 w12_reserved_89 1 2 4 [1; 2] 3 0 [8; 9]
             eq_refl w12_reserved_89_valid eq_refl eq_refl Hle w12_reserved_89_outside).
Defined.

(** X12 on [{1, 2}] with [Reserve(4)]. *)
Lemma Reserve_grows_capacity_witness :
  (fault w12 = None ∧ valid w12 1 ∧ observe w12 1 = Some (2, 2, [1; 2])) ∧
  ∃ w', SimpleVector.Reserve 1 4 w12 = Ok tt w' ∧
        observe w' 1 = Some (2, 2 `max` 4, [1; 2]) ∧
        valid w' 1 ∧ fault w' = None ∧
        (4 ≤ 2 → w' = w12) ∧
        (2 < 4 → buffer w' 1 = Some (Ptr (fresh (dom (heap w12))) 0) ∧
                 ∀ b, buffer w12 1 = Some (Ptr b 0) → heap w' !! b = None).
Proof.
  split.
  - split; [reflexivity|]. split; [exact w12_valid|reflexivity].
  - exact (Reserve_grows_capacity w12 1 2 2 [1; 2] 4 eq_refl w12_valid eq_refl).
Defined.

(** X13 on [a = {1, 2, 3}] and [b = {7}]. *)
Lemma swap_exchanges_vectors_witness :
  (1%positive ≠ 2%positive ∧
   is_Some (vecs w123_7 !! 1%positive) ∧ is_Some (vecs w123_7 !! 2%positive)) ∧
  ∃ w', SimpleVector.swap 1 2 w123_7 = Ok tt w' ∧
        observe w' 1 = observe w123_7 2 ∧ buffer w' 1 = buffer w123_7 2 ∧
        observe w' 2 = observe w123_7 1 ∧ buffer w' 2 = buffer w123_7 1 ∧
        (∀ o, o ≠ 1%positive → o ≠ 2%positive → vecs w' !! o = vecs w123_7 !! o) ∧
        heap w' = heap w123_7 ∧ arrs w' = arrs w123_7 ∧ fault w' = fault w123_7 ∧
        SimpleVector.swap 1 2 w' = Ok tt w123_7.
Proof.
  assert (1%positive ≠ 2%positive) as Hne by discriminate.
  split.
  - split; [exact Hne|exact w123_7_objects].
  - exact (swap_exchanges_vectors w123_7 1 2 Hne
             (proj1 w123_7_objects) (proj2 w123_7_objects)).
Defined.

(** X14 on [b = a] with [a = {1, 2, 3}] and [b = {7}]. *)
Lemma copy_assign_copies_witness :
  (fault w123_7 = None ∧ valid w123_7 2 ∧ valid w123_7 1 ∧ 1%positive ≠ 2%positive ∧
   observe w123_7 2 = Some (1, 1, [7]) ∧ observe w123_7 1 = Some (3, 3, [1; 2; 3]) ∧
   0 < 3 ∧ buffer w123_7 2 ≠ buffer w123_7 1) ∧
  ∃ w', SimpleVector.copy_assign 2 1 w123_7 = Ok tt w' ∧
        observe w' 2 = Some (3, 3, [1; 2; 3]) ∧ valid w' 2 ∧
        observe w' 1 = Some (3, 3, [1; 2; 3]) ∧ valid w' 1 ∧
        buffer w' 2 = Some (Ptr (fresh (dom (heap w123_7))) 0) ∧
        buffer w' 1 = buffer w123_7 1 ∧
        fault w' = None ∧
        (∀ b, buffer w123_7 2 = Some (Ptr b 0) → heap w' !! b = None).
Proof.
  assert (1%positive ≠ 2%positive) as Hne by discriminate.
  assert (0 < 3) as Hlt by lia.
  split.
  - split; [reflexivity|]. split; [exact (proj2 w123_7_valid)|].
    split; [exact (proj1 w123_7_valid)|]. split; [exact Hne|].
    split; [reflexivity|]. split; [reflexivity|]. split; [exact Hlt|].
    exact w123_7_buffers_differ.
  - exact (copy_assign_copies w123_7 2 1 1 1 [7] 3 3 [1; 2; 3] eq_refl
             (proj2 w123_7_valid) (proj1 w123_7_valid) Hne eq_refl eq_refl Hlt
             w123_7_buffers_differ).
Defined.

(** X15 on [v = {1, 2}] with capacity 4 and [u = {8, 9}]:
    [v.Insert(v.begin() + 1, std::move(u[0]))]. *)
Lemma Insert_within_capacity_keeps_buffer_witness :
  (fault w12_reserved_89 = None ∧ valid w12_reserved_89 1 ∧
   observe w12_reserved_89 1 = Some (2, 4, [1; 2]) ∧
   buffer w12_reserved_89 1 = Some (Ptr 2 0) ∧ 1 ≤ 2 ∧ 2 < 4 ∧
   load (Ptr 3 0) w12_reserved_89 = Ok 8 w12_reserved_89 ∧
   outside w12_reserved_89 1 (Ptr 3 0)) ∧
  ∃ w', SimpleVector.Insert_move 1 (Ptr 2 0 +ₚ 1) (Ptr 3 0) w12_reserved_89
          = Ok (Ptr 2 0 +ₚ 1) w' ∧
        observe w' 1 = Some (2 + 1, 4, take 1 [1; 2] ++ 8 :: drop 1 [1; 2]) ∧
        buffer w' 1 = Some (Ptr 2 0) ∧ valid w' 1 ∧
        dom (heap w') = dom (heap w12_reserved_89) ∧
        load (Ptr 3 0) w' = Ok (moved 8) w'.
Proof.
  assert (1 ≤ 2) as Hle by lia. assert (2 < 4) as Hlt by lia.
  split.
  - split; [reflexivity|]. split; [exact w12_reserved_89_valid|]. split; [reflexivity|].
    split; [reflexivity|]. split; [exact Hle|]. split; [exact Hlt|].
    split; [reflexivity|exact w12_reserved_89_outside].
  - exact (Insert_within_capacity_keeps_buffer true w12_reserved_89 1 2 4 [1; 2] (Ptr 2 0) 1
             (Ptr 3 0) 8 eq_refl w12_reserved_89_valid eq_refl eq_refl Hle Hlt eq_refl
             w12_reserved_89_outside).
Defined.

(** X29 on the full [v = {1, 2, 3}] with [u = {9}]:
    [v.Insert(v.begin() + 1, u[0])]. *)
Lemma Insert_of_outside_object_places_value_witness :
  (fault w123_9 = None ∧ valid w123_9 1 ∧ observe w123_9 1 = Some (3, 3, [1; 2; 3]) ∧
   buffer w123_9 1 = Some (Ptr 1 0) ∧ 1 ≤ 3 ∧
   load (Ptr 2 0) w123_9 = Ok 9 w123_9 ∧ outside w123_9 1 (Ptr 2 0)) ∧
  ∃ it w' c' p' xs',
    SimpleVector.Insert_copy 1 (Ptr 1 0 +ₚ 1) (Ptr 2 0) w123_9 = Ok it w' ∧
    observe w' 1 = Some (3 + 1, c', xs') ∧
    xs' = take 1 [1; 2; 3] ++ 9 :: drop 1 [1; 2; 3] ∧
    inserted_at [1; 2; 3] 1 9 xs' ∧
    buffer w' 1 = Some p' ∧ it = p' +ₚ 1 ∧ valid w' 1.
Proof.
  assert (1 ≤ 3) as Hle by lia.
  split.
  - split; [reflexivity|]. split; [exact w123_9_valid|]. split; [reflexivity|].
    split; [reflexivity|]. split; [exact Hle|]. split; [reflexivity|exact w123_9_outside].
  - exact (Insert_of_outside_object_places_value false w123_9 1 3 3 [1; 2; 3] (Ptr 1 0) 1
             (Ptr 2 0) 9 eq_refl w123_9_valid eq_refl eq_refl Hle eq_refl w123_9_outside).
Defined.

(** X16 on [v = {1, 2}] with capacity 4: [v.Insert(v.begin(), v[1])], whose
    argument is an element of the vector, and [Erase] at the iterator
    returned. *)
Lemma Insert_then_Erase_restores_witness :
  (fault w12_reserved = None ∧ valid w12_reserved 1 ∧
   observe w12_reserved 1 = Some (2, 4, [1; 2]) ∧
   buffer w12_reserved 1 = Some (Ptr 2 0) ∧ 0 ≤ 2 ∧
   load (Ptr 2 1) w12_reserved = Ok 2 w12_reserved ∧
   (false = true → outside w12_reserved 1 (Ptr 2 1))) ∧
  ∃ it w1 w2 c',
    SimpleVector.Insert_copy 1 (Ptr 2 0 +ₚ 0) (Ptr 2 1) w12_reserved = Ok it w1 ∧
    SimpleVector.Erase 1 it w1 = Ok it w2 ∧
    observe w2 1 = Some (2, c', [1; 2]) ∧ valid w2 1.
Proof.
  assert (0 ≤ 2) as Hle by lia.
  assert (false = true → outside w12_reserved 1 (Ptr 2 1)) as Hno by discriminate.
  split.
  - split; [reflexivity|]. split; [exact w12_reserved_valid|]. split; [reflexivity|].
    split; [reflexivity|]. split; [exact Hle|]. split; [reflexivity|exact Hno].
  - exact (Insert_then_Erase_restores false w12_reserved 1 2 4 [1; 2] (Ptr 2 0) 0
             (Ptr 2 1) 2 eq_refl w12_reserved_valid eq_refl eq_refl Hle eq_refl Hno).
Defined.

(** X17 on the full [v = {1, 2, 3}] with [u = {9}], by move. *)
Lemma PushBack_then_PopBack_restores_witness :
  (fault w123_9 = None ∧ valid w123_9 1 ∧ observe w123_9 1 = Some (3, 3, [1; 2; 3]) ∧
   load (Ptr 2 0) w123_9 = Ok 9 w123_9 ∧ (true = true → outside w123_9 1 (Ptr 2 0))) ∧
  ∃ w1 w2 c',
    SimpleVector.PushBack_move 1 (Ptr 2 0) w123_9 = Ok tt w1 ∧
    SimpleVector.PopBack 1 w1 = Ok tt w2 ∧
    observe w2 1 = Some (3, c', [1; 2; 3]) ∧ 3 ≤ c'.
Proof.
  split.
  - split; [reflexivity|]. split; [exact w123_9_valid|]. split; [reflexivity|].
    split; [reflexivity|exact (λ _, w123_9_outside)].
  - exact (PushBack_then_PopBack_restores true w123_9 1 3 3 [1; 2; 3] (Ptr 2 0) 9
             eq_refl w123_9_valid eq_refl eq_refl (λ _, w123_9_outside)).
Defined.

(** X18 on [a = {1, 2, 3}] and [b = {7}]. *)
Lemma operator_eq_compares_elements_witness :
  (fault w123_7 = None ∧ observe w123_7 1 = Some (3, 3, [1; 2; 3]) ∧
   observe w123_7 2 = Some (1, 1, [7])) ∧
  ∃ r, operator_eq 1 2 w123_7 = Ok r w123_7 ∧
       operator_ne 1 2 w123_7 = Ok (negb r) w123_7 ∧
       (r = true ↔ Forall2 (λ x y, eq_elem x y = true) [1; 2; 3] [7]).
Proof.
  split; [split_and!; reflexivity|].
  exact (operator_eq_compares_elements w123_7 1 2 3 3 [1; 2; 3] 1 1 [7]
           eq_refl eq_refl eq_refl).
Defined.

(** X19 on [a = {1, 2, 3}] and [b = {7}]. *)
Lemma operator_lt_is_lexicographic_witness :
  (fault w123_7 = None ∧ observe w123_7 1 = Some (3, 3, [1; 2; 3]) ∧
   observe w123_7 2 = Some (1, 1, [7])) ∧
  ∃ r, operator_lt 1 2 w123_7 = Ok r w123_7 ∧
       (r = true ↔ lexicographically_less [1; 2; 3] [7]).
Proof.
  split; [split_and!; reflexivity|].
  exact (operator_lt_is_lexicographic w123_7 1 2 3 3 [1; 2; 3] 1 1 [7]
           eq_refl eq_refl eq_refl).
Defined.

(** X20 on [a = {1, 2, 3}] and [b = {7}] of [int]. *)
Lemma comparison_operators_total_order_witness :
  ((∀ x y : nat, eq_elem x y = true ↔ x = y) ∧
   (∀ x : nat, lt_elem x x = false) ∧
   (∀ x y : nat, lt_elem x y = true → lt_elem y x = false) ∧
   (∀ x y : nat, x ≠ y → lt_elem x y = true ∨ lt_elem y x = true) ∧
   fault w123_7 = None ∧ observe w123_7 1 = Some (3, 3, [1; 2; 3]) ∧
   observe w123_7 2 = Some (1, 1, [7])) ∧
  ∃ e l g,
    operator_eq 1 2 w123_7 = Ok e w123_7 ∧
    operator_lt 1 2 w123_7 = Ok l w123_7 ∧
    operator_gt 1 2 w123_7 = Ok g w123_7 ∧
    operator_ne 1 2 w123_7 = Ok (l || g) w123_7 ∧
    operator_le 1 2 w123_7 = Ok (l || e) w123_7 ∧
    operator_ge 1 2 w123_7 = Ok (g || e) w123_7 ∧
    (e = true ↔ [1; 2; 3] = [7]) ∧
    ((e = true ∧ l = false ∧ g = false) ∨
     (e = false ∧ l = true ∧ g = false) ∨
     (e = false ∧ l = false ∧ g = true)).
Proof.
  split.
  - split; [exact nat_eq_elem_eq|]. split; [exact nat_lt_elem_irrefl|].
    split; [exact nat_lt_elem_asym|]. split; [exact nat_lt_elem_total|].
    split_and!; reflexivity.
  - exact (comparison_operators_total_order w123_7 1 2 3 3 [1; 2; 3] 1 1 [7]
             nat_eq_elem_eq nat_lt_elem_irrefl nat_lt_elem_asym nat_lt_elem_total
             eq_refl eq_refl eq_refl).
Defined.

(** X21 on a vector of size 2 and capacity 4. *)
Lemma copy_compares_equal_witness :
  ((∀ x : nat, eq_elem x x = true) ∧ fault w12_reserved = None ∧
   valid w12_reserved 1 ∧ observe w12_reserved 1 = Some (2, 4, [1; 2])) ∧
  ∃ this w',
    SimpleVector.declare (λ o, SimpleVector.ctor_copy o 1) w12_reserved = Ok this w' ∧
    operator_eq this 1 w' = Ok true w' ∧
    operator_eq 1 this w' = Ok true w' ∧
    operator_ne this 1 w' = Ok false w'.
Proof.
  split.
  - split; [exact nat_eq_elem_refl|]. split; [reflexivity|].
    split; [exact w12_reserved_valid|reflexivity].
  - exact (copy_compares_equal w12_reserved 1 2 4 [1; 2]
             nat_eq_elem_refl eq_refl w12_reserved_valid eq_refl).
Defined.

(** X23 on [{1, 2, 3}] when the copy of the second element throws (the
    twelfth fallible step of the construction). *)
Lemma copy_ctor_failure_leaks_nothing_witness :
  valid (set_fault w123 (Some 11)) 1 ∧
  wp (SimpleVector.declare (λ o, SimpleVector.ctor_copy o 1) (set_fault w123 (Some 11)))
     (λ _ _, True) (λ w', same_memory (set_fault w123 (Some 11)) w') ∧
  ∃ w', SimpleVector.declare (λ o, SimpleVector.ctor_copy o 1) (set_fault w123 (Some 11))
          = Throw w'.
Proof.
  split; [exact w123_valid|].
  split; [exact (copy_ctor_failure_leaks_nothing (set_fault w123 (Some 11)) 1 w123_valid)|].
  eexists. vm_compute. reflexivity.
Defined.

(** X24 on [ArrayPtr<int> p(2)]. *)
Lemma ArrayPtr_Delete_frees_once_witness :
  (get_arr (Local 1) w_buffer_and_empty = Ok (AP.Build (Ptr 1 0) 2) w_buffer_and_empty ∧
   heap w_buffer_and_empty !! 1%positive = Some [0; 0]) ∧
  ∃ w', ArrayPtr.Delete (Local 1) w_buffer_and_empty = Ok tt w' ∧
        heap w' = delete 1%positive (heap w_buffer_and_empty) ∧
        get_arr (Local 1) w' = Ok (AP.Build Null 2) w' ∧
        ArrayPtr.to_bool (Local 1) w' = Ok false w' ∧
        ArrayPtr.Delete (Local 1) w' = Ok tt w' ∧
        ArrayPtr.dtor (Local 1) w' = Ok tt w'.
Proof.
  split; [split; reflexivity|].
  exact (ArrayPtr_Delete_frees_once w_buffer_and_empty (Local 1) 1 2 [0; 0] eq_refl eq_refl).
Defined.

(** X25 on [ArrayPtr<int> p(2), q;], handing the block of [p] to [q]. *)
Lemma ArrayPtr_Release_transfers_ownership_witness :
  (Local 1 ≠ Local 2 ∧
   get_arr (Local 1) w_buffer_and_empty = Ok (AP.Build (Ptr 1 0) 2) w_buffer_and_empty ∧
   heap w_buffer_and_empty !! 1%positive = Some [0; 0] ∧
   get_arr (Local 2) w_buffer_and_empty = Ok AP.init w_buffer_and_empty) ∧
  ∃ w', (raw ← ArrayPtr.Release (Local 1); ArrayPtr.ctor_raw (Local 2) raw)
          w_buffer_and_empty = Ok tt w' ∧
        heap w' = heap w_buffer_and_empty ∧
        get_arr (Local 1) w' = Ok (AP.Build Null 2) w' ∧
        get_arr (Local 2) w' = Ok (AP.Build (Ptr 1 0) 0) w' ∧
        (∃ w'', ArrayPtr.dtor (Local 1) w' = Ok tt w'' ∧
                heap w'' = heap w_buffer_and_empty) ∧
        (∃ w'', ArrayPtr.dtor (Local 2) w' = Ok tt w'' ∧
                heap w'' = delete 1%positive (heap w_buffer_and_empty)).
Proof.
  split.
  - split; [exact buffer_and_empty_differ|]. split_and!; reflexivity.
  - exact (ArrayPtr_Release_transfers_ownership w_buffer_and_empty (Local 1) (Local 2)
             1 2 [0; 0] AP.init buffer_and_empty_differ eq_refl eq_refl eq_refl).
Defined.

(** X26: constructing [ArrayPtr<int> q(3)] and reading [q[1]]. *)
Lemma ArrayPtr_elements_value_initialised_witness :
  (fault w_buffer_and_empty = None ∧
   get_arr (Local 2) w_buffer_and_empty = Ok AP.init w_buffer_and_empty ∧ 1 < 3) ∧
  ∃ q w', (ArrayPtr.ctor_size (Local 2) 3;; ArrayPtr.index (Local 2) 1)
            w_buffer_and_empty = Ok q w' ∧
          load q w' = Ok dflt w' ∧
          ArrayPtr.to_bool (Local 2) w' = Ok true w' ∧
          get_arr (Local 2) w' = Ok (AP.Build (q -ₚ 1) 3) w'.
Proof.
  assert (1 < 3) as Hlt by lia.
  split.
  - split; [reflexivity|]. split; [reflexivity|exact Hlt].
  - exact (ArrayPtr_elements_value_initialised w_buffer_and_empty (Local 2) AP.init 3 1
             eq_refl eq_refl Hlt).
Defined.

(** X27 on [SimpleVector<int> b(std::move(v))] with [v = {1, 2, 3}] and
    [u = {9}], then [v.PushBack(u[0])] by copy. *)
Lemma moved_from_vector_keeps_capacity_without_buffer_witness :
  (fault w123_9 = None ∧ observe w123_9 1 = Some (3, 3, [1; 2; 3]) ∧
   buffer w123_9 1 = Some (Ptr 1 0)) ∧
  ∃ this w',
    SimpleVector.declare (λ o, SimpleVector.ctor_move o 1) w123_9 = Ok this w' ∧
    observe w' this = Some (3, 3, [1; 2; 3]) ∧ buffer w' this = Some (Ptr 1 0) ∧
    observe w' 1 = Some (0, 3, []) ∧ buffer w' 1 = Some Null ∧
    (0 < 3 → SimpleVector.PushBack_copy 1 (Ptr 2 0) w' = Undef).
Proof.
  split; [split_and!; reflexivity|].
  exact (moved_from_vector_keeps_capacity_without_buffer w123_9 1 3 3 [1; 2; 3] (Ptr 1 0)
           (Ptr 2 0) false eq_refl eq_refl eq_refl).
Defined.

(** X28 on the full [v = {1, 2, 3}] with [u = {9}]:
    [v.PushBack(std::move(u[0]))]. *)
Lemma PushBack_reallocation_is_local_witness :
  (fault w123_9 = None ∧ valid w123_9 1 ∧ observe w123_9 1 = Some (3, 3, [1; 2; 3]) ∧
   buffer w123_9 1 = Some (Ptr 1 0) ∧
   load (Ptr 2 0) w123_9 = Ok 9 w123_9 ∧ outside w123_9 1 (Ptr 2 0)) ∧
  ∃ w', SimpleVector.PushBack_move 1 (Ptr 2 0) w123_9 = Ok tt w' ∧
        buffer w' 1 = Some (Ptr (fresh (dom (heap w123_9))) 0) ∧
        heap w' !! 1%positive = None ∧
        load (Ptr 2 0) w' = Ok (moved 9) w' ∧
        (∀ b', b' ≠ 1%positive → b' ≠ fresh (dom (heap w123_9)) →
               (∀ off, Ptr 2 0 ≠ Ptr b' off) →
               heap w' !! b' = heap w123_9 !! b') ∧
        (∀ o, o ≠ 1%positive → vecs w' !! o = vecs w123_9 !! o) ∧
        arrs w' = arrs w123_9.
Proof.
  split.
  - split; [reflexivity|]. split; [exact w123_9_valid|]. split; [reflexivity|].
    split; [reflexivity|]. split; [reflexivity|exact w123_9_outside].
  - exact (PushBack_reallocation_is_local true w123_9 1 3 [1; 2; 3] 1 (Ptr 2 0) 9
             eq_refl w123_9_valid eq_refl eq_refl eq_refl w123_9_outside).
Defined.
